(** * Comparativas de precios: the reconciliation engine of [main.py]

    A shallow embedding of the functions of [src/main.py] that carry the
    logic of the application -- [clean_price], [normalize_columns],
    [calculate_text_similarity] and the analysis block of [main] -- together
    with the library operations they call (pandas, numpy, difflib, [float],
    [re.sub]), modelled from their documented behaviour. The rest of
    [main] that decides something -- the validation of the two files, the
    fourth KPI, [highlight_diff] -- and [convert_df_to_excel], up to the
    encoding of the workbook, are embedded as well.

    Conventions.
    - A Python [str] is the list of its code points ([pystr]).
    - A Python [float] is a binary64 number, Rocq's primitive [float].
    - A Python [int] is an unbounded integer ([Z]).
    - Code that may raise returns a [result]; code that mutates objects
      runs in a state-and-exception monad over a store of data frames. *)

From Stdlib Require Import List Bool Arith ZArith NArith Lia.
From Stdlib Require Import Ascii.
From Stdlib Require String.
Import String.StringSyntax.
From Stdlib Require Import Permutation.
From Stdlib Require Import Floats.
From Stdlib Require Uint63.
Import ListNotations.

Set Implicit Arguments.
Set Warnings "-inexact-float".
Open Scope string_scope.
Open Scope list_scope.
Open Scope nat_scope.

(* ================================================================= *)
(** ** Python values *)

(** A character is a Unicode code point. *)
Definition char := N.
Definition pystr := list char.

(** [lit] reads an ASCII literal as a Python string. *)
Definition lit (s : String.string) : pystr :=
  map N_of_ascii (String.list_ascii_of_string s).

Definition char_eqb : char -> char -> bool := N.eqb.

Fixpoint pystr_eqb (s t : pystr) : bool :=
  match s, t with
  | [], [] => true
  | c :: s', d :: t' => char_eqb c d && pystr_eqb s' t'
  | _, _ => false
  end.

Definition pystr_eq_dec : forall s t : pystr, {s = t} + {s <> t} :=
  list_eq_dec N.eq_dec.

(** The exceptions the modelled code can raise. *)
Inductive exn : Type :=
  | ValueError
  | OverflowError
  | ZeroDivisionError
  | AttributeError
  | KeyError
  | NoFuel.   (* not a Python exception: a loop of the model exceeded its
                 bound; [similarity_returns] shows it is never raised *)

Inductive result (A : Type) : Type :=
  | Ok (a : A)
  | Raise (e : exn).
Arguments Ok {A} a.
Arguments Raise {A} e.

Definition rbind {A B} (r : result A) (k : A -> result B) : result B :=
  match r with
  | Ok a => k a
  | Raise e => Raise e
  end.

Declare Scope result_scope.
Delimit Scope result_scope with result.
Notation "x <- r ;; k" := (rbind r (fun x => k))
  (at level 61, r at next level, right associativity) : result_scope.

(** [try: r except e: h] *)
Definition exn_eqb (a b : exn) : bool :=
  match a, b with
  | ValueError, ValueError | OverflowError, OverflowError
  | ZeroDivisionError, ZeroDivisionError | AttributeError, AttributeError
  | KeyError, KeyError | NoFuel, NoFuel => true
  | _, _ => false
  end.

Definition try_except {A} (r : result A) (e : exn) (h : result A) : result A :=
  match r with
  | Ok a => Ok a
  | Raise e' => if exn_eqb e' e then h else Raise e'
  end.

Fixpoint mapM {A B} (f : A -> result B) (l : list A) : result (list B) :=
  match l with
  | [] => Ok []
  | x :: l' =>
      match f x with
      | Raise e => Raise e
      | Ok y =>
          match mapM f l' with
          | Raise e => Raise e
          | Ok ys => Ok (y :: ys)
          end
      end
  end.

(** The value of a spreadsheet cell as pandas hands it to Python code. *)
Inductive cell : Type :=
  | CNone                    (* None *)
  | CBool (b : bool)
  | CInt (z : Z)
  | CFloat (f : float)       (* includes NaN, pandas' missing value *)
  | CStr (s : pystr).

(* ================================================================= *)
(** ** Binary64 helpers *)

Definition fzero : float := 0%float.
Definition fhundred : float := 100%float.

(** [float(n)] for a Python [int]: the nearest binary64 (ties to even);
    [OverflowError] when [n] is too large to be represented. *)
Definition float_of_int (z : Z) : result float :=
  match binary_normalize prec emax z 0 false with
  | S754_infinity _ => Raise OverflowError
  | sf => Ok (SF2Prim sf)
  end.

(** The quotient [n / d] of two positive integers rounded once to binary64,
    with sign [neg]. *)
Definition float_of_ratio (neg : bool) (n d : positive) : float :=
  SF2Prim (SFdiv prec emax (S754_finite neg n 0) (S754_finite false d 0)).

(** [numpy.rint]: the nearest integer, ties to even, as a float. *)
Definition np_rint (x : float) : float :=
  match Prim2SF x with
  | S754_finite s m e =>
      match e with
      | Zneg pe =>
          let p := Z.pow_pos 2 pe in
          let q := (Zpos m / p)%Z in
          let r := (Zpos m mod p)%Z in
          let n := match (2 * r ?= p)%Z with
                   | Lt => q
                   | Gt => (q + 1)%Z
                   | Eq => if Z.even q then q else (q + 1)%Z
                   end in
          SF2Prim (binary_normalize prec emax (cond_Zopp s n) 0 s)
      | _ => x
      end
  | _ => x
  end.

(** [numpy.round(x, 2)], which pandas' [Series.round(2)] calls: multiply by
    [10**2], [rint], divide by [10**2]. *)
Definition round2 (x : float) : float :=
  (np_rint (x * fhundred) / fhundred)%float.

(* ================================================================= *)
(** ** [clean_price] *)

Definition is_digit (c : char) : bool := (48 <=? c)%N && (c <=? 57)%N.
Definition DOT : char := 46%N.
Definition MINUS : char := 45%N.

(** [re.sub(r'[^0-9.-]', '', s)] *)
Definition re_sub_non_numeric (s : pystr) : pystr :=
  filter (fun c => is_digit c || char_eqb c DOT || char_eqb c MINUS) s.

Fixpoint digits_value (acc : Z) (ds : list char) : Z :=
  match ds with
  | [] => acc
  | c :: ds' => digits_value (10 * acc + (Z.of_N c - 48))%Z ds'
  end.

Fixpoint span_digits (s : pystr) : pystr * pystr :=
  match s with
  | c :: s' =>
      if is_digit c then let (ds, r) := span_digits s' in (c :: ds, r)
      else ([], s)
  | [] => ([], [])
  end.

Fixpoint pow10 (k : nat) : positive :=
  match k with
  | O => 1%positive
  | S k' => (10 * pow10 k')%positive
  end.

(** The value of the decimal numeral [ip.fp], correctly rounded. *)
Definition decimal_value (neg : bool) (ip fp : pystr) : float :=
  match digits_value 0 (ip ++ fp) with
  | Zpos n => float_of_ratio neg n (pow10 (length fp))
  | _ => if neg then (- fzero)%float else fzero
  end.

(** [float(s)] for a string over the alphabet [0-9 . -] (what
    [re_sub_non_numeric] leaves): an optional sign, then digits with at most
    one decimal point and at least one digit; anything else is a
    [ValueError]. *)
Definition float_of_cleaned (s : pystr) : result float :=
  let '(neg, body) :=
    match s with
    | c :: r => if char_eqb c MINUS then (true, r) else (false, s)
    | [] => (false, s)
    end in
  let '(ip, rest) := span_digits body in
  match rest with
  | [] =>
      match ip with
      | [] => Raise ValueError
      | _ => Ok (decimal_value neg ip [])
      end
  | c :: fp =>
      if char_eqb c DOT && forallb is_digit fp
         && negb (Nat.eqb (length ip + length fp) 0)
      then Ok (decimal_value neg ip fp)
      else Raise ValueError
  end.

(** [pandas.isna(val)] on a scalar. *)
Definition pd_isna (val : cell) : bool :=
  match val with
  | CNone => true
  | CFloat f => is_nan f
  | _ => false
  end.

(** [val == ""] *)
Definition eq_empty_str (val : cell) : bool :=
  match val with
  | CStr [] => true
  | _ => false
  end.

(** [isinstance(val, (int, float))]; [bool] is a subclass of [int]. *)
Definition is_int_or_float (val : cell) : bool :=
  match val with
  | CBool _ | CInt _ | CFloat _ => true
  | _ => false
  end.

(** [float(val)] for a value that passed [is_int_or_float]. *)
Definition float_of_number (val : cell) : result float :=
  match val with
  | CBool b => Ok (if b then 1%float else fzero)
  | CInt z => float_of_int z
  | CFloat f => Ok f
  | _ => Raise ValueError
  end.

Section Runtime.

(** [repr] of a finite binary64 (the shortest decimal that reads back as
    the same float) is left as a parameter of the model: no property
    below depends on the digits it prints. *)
Variable float_repr : float -> pystr.

Definition str_of_float (f : float) : pystr :=
  if is_nan f then lit "nan"
  else if is_infinity f then (if get_sign f then lit "-inf" else lit "inf")
  else float_repr f.

Fixpoint str_of_uint (d : Decimal.uint) : pystr :=
  match d with
  | Decimal.Nil => []
  | Decimal.D0 d' => 48%N :: str_of_uint d'
  | Decimal.D1 d' => 49%N :: str_of_uint d'
  | Decimal.D2 d' => 50%N :: str_of_uint d'
  | Decimal.D3 d' => 51%N :: str_of_uint d'
  | Decimal.D4 d' => 52%N :: str_of_uint d'
  | Decimal.D5 d' => 53%N :: str_of_uint d'
  | Decimal.D6 d' => 54%N :: str_of_uint d'
  | Decimal.D7 d' => 55%N :: str_of_uint d'
  | Decimal.D8 d' => 56%N :: str_of_uint d'
  | Decimal.D9 d' => 57%N :: str_of_uint d'
  end.

Definition str_of_int (z : Z) : pystr :=
  match Z.to_int z with
  | Decimal.Pos d => str_of_uint d
  | Decimal.Neg d => MINUS :: str_of_uint d
  end.

(** [str(val)] *)
Definition py_str (val : cell) : pystr :=
  match val with
  | CNone => lit "None"
  | CBool b => if b then lit "True" else lit "False"
  | CInt z => str_of_int z
  | CFloat f => str_of_float f
  | CStr s => s
  end.

(** [clean_price(val)], lines 17-36. *)
Definition clean_price (val : cell) : result float :=
  if pd_isna val || eq_empty_str val then Ok fzero
  else if is_int_or_float val then float_of_number val
  else
    let s := py_str val in
    let cleaned := re_sub_non_numeric s in
    try_except (float_of_cleaned cleaned) ValueError (Ok fzero).

End Runtime.

(* ================================================================= *)
(** ** Strings: [str.strip] *)

(** The code points [str.isspace] accepts, which [str.strip()] removes. *)
Definition is_space (c : char) : bool :=
  ((9 <=? c) && (c <=? 13) || (28 <=? c) && (c <=? 32)
   || (c =? 133) || (c =? 160) || (c =? 5760)
   || (8192 <=? c) && (c <=? 8202)
   || (c =? 8232) || (c =? 8233) || (c =? 8239) || (c =? 8287)
   || (c =? 12288))%N.

Fixpoint lstrip (s : pystr) : pystr :=
  match s with
  | c :: s' => if is_space c then lstrip s' else s
  | [] => []
  end.

Definition rstrip (s : pystr) : pystr := rev (lstrip (rev s)).
Definition strip (s : pystr) : pystr := rstrip (lstrip s).

(* ================================================================= *)
(** ** Data frames and the object store *)

(** A column of a frame: one cell per row. *)
Definition Series := list cell.

(** A [pandas.DataFrame] with a default index: labelled columns (labels
    may repeat) and the number of rows. *)
Record DataFrame : Type := mkDF {
  df_cols : list (cell * Series);
  df_len : nat
}.

Definition columns (d : DataFrame) : list cell := map fst (df_cols d).

(** Every column has one cell per row. *)
Definition wf_frame (d : DataFrame) : Prop :=
  Forall (fun c => length (snd c) = df_len d) (df_cols d).

Definition label_is (name : pystr) (l : cell) : bool :=
  match l with
  | CStr s => pystr_eqb s name
  | _ => false
  end.

(** [name in df.columns] *)
Definition in_columns (name : pystr) (d : DataFrame) : bool :=
  existsb (label_is name) (columns d).

(** The columns [df[name]] selects: every column carrying the label. *)
Definition cols_named (name : pystr) (d : DataFrame) : list Series :=
  map snd (filter (fun c => label_is name (fst c)) (df_cols d)).

(** [df.columns = labels] (same number of labels as columns). *)
Definition set_labels (f : cell -> cell) (d : DataFrame) : DataFrame :=
  mkDF (map (fun c => (f (fst c), snd c)) (df_cols d)) (df_len d).

(** A [dict] from labels to labels, in insertion order. *)
Definition col_dict := list (pystr * pystr).

Fixpoint dict_get (m : col_dict) (k : pystr) : option pystr :=
  match m with
  | [] => None
  | (k', v) :: m' => if pystr_eqb k' k then Some v else dict_get m' k
  end.

(** [df.rename(columns=col_map)]: a new frame. *)
Definition rename_label (m : col_dict) (l : cell) : cell :=
  match l with
  | CStr s => match dict_get m s with Some v => CStr v | None => l end
  | _ => l
  end.

Definition rename (m : col_dict) (d : DataFrame) : DataFrame :=
  set_labels (rename_label m) d.

(** [df[name] = value] for a scalar [value] and a label not yet present:
    a new last column. *)
Definition add_column (name : pystr) (value : cell) (d : DataFrame) : DataFrame :=
  mkDF (df_cols d ++ [(CStr name, repeat value (df_len d))]) (df_len d).

(** Apply [f] to every column labelled [name], in place. *)
Definition map_named (name : pystr) (f : Series -> Series) (d : DataFrame) : DataFrame :=
  mkDF (map (fun c => if label_is name (fst c) then (fst c, f (snd c)) else c)
            (df_cols d))
       (df_len d).

(** [df[[n1, n2, ...]]]: for each requested label, all the columns that
    carry it; a new frame. *)
Definition select (names : list pystr) (d : DataFrame) : DataFrame :=
  mkDF (flat_map (fun n => filter (fun c => label_is n (fst c)) (df_cols d)) names)
       (df_len d).

(** Objects live in a store; a variable holds a reference. *)
Definition ref := nat.
Definition store := list DataFrame.

Definition empty_frame : DataFrame := mkDF [] 0.

Definition deref (st : store) (r : ref) : DataFrame := nth r st empty_frame.

Fixpoint update (st : store) (r : ref) (d : DataFrame) : store :=
  match st, r with
  | [], _ => []
  | _ :: st', O => d :: st'
  | x :: st', S r' => x :: update st' r' d
  end.

(** Computations that read and mutate the store and may raise; a raised
    exception leaves the mutations made so far in place. *)
Definition M (A : Type) : Type := store -> result A * store.

Definition ret {A} (a : A) : M A := fun st => (Ok a, st).
Definition raise {A} (e : exn) : M A := fun st => (Raise e, st).
Definition bind {A B} (m : M A) (k : A -> M B) : M B :=
  fun st =>
    match m st with
    | (Ok a, st') => k a st'
    | (Raise e, st') => (Raise e, st')
    end.
Definition lift {A} (r : result A) : M A := fun st => (r, st).
Definition load (r : ref) : M DataFrame := fun st => (Ok (deref st r), st).
Definition modify (r : ref) (f : DataFrame -> DataFrame) : M unit :=
  fun st => (Ok tt, update st r (f (deref st r))).
Definition alloc (d : DataFrame) : M ref :=
  fun st => (Ok (length st), st ++ [d]).

Declare Scope monad_scope.
Delimit Scope monad_scope with monad.
Notation "x <- m ;; k" := (bind m (fun x => k))
  (at level 61, m at next level, right associativity) : monad_scope.
Notation "m ;; k" := (bind m (fun _ => k))
  (at level 61, right associativity) : monad_scope.

(* ================================================================= *)
(** ** [normalize_columns] *)

Definition CLAVE : pystr := Eval compute in lit "Clave".
Definition DESCRIPCION : pystr := Eval compute in lit "Descripcion".
Definition PRECIO : pystr := Eval compute in lit "Precio".

(** ['Descripción'], with U+00F3. *)
Definition DESCRIPCION_ACENTO : pystr :=
  Eval compute in (lit "Descripci" ++ [243%N] ++ lit "n").

Definition clave_cols : list pystr :=
  Eval compute in
    [lit "Clave"; lit "clave"; lit "CLAVE"; lit "Codigo"; lit "codigo";
     lit "SKU"; lit "sku"].

Definition desc_cols : list pystr :=
  Eval compute in
    [DESCRIPCION_ACENTO; lit "Descripcion"; lit "descripcion"; lit "Nombre";
     lit "nombre"].

Definition price_cols : list pystr :=
  Eval compute in
    [lit "Precio"; lit "precio"; lit "PRECIO"; lit "Costo"; lit "costo"].

(** [for c in cands: if c in df.columns: col_map[c] = target; break] *)
Fixpoint first_match (cands : list pystr) (d : DataFrame) : option pystr :=
  match cands with
  | [] => None
  | c :: cs => if in_columns c d then Some c else first_match cs d
  end.

Definition map_entry (cands : list pystr) (target : pystr) (d : DataFrame)
  : col_dict :=
  match first_match cands d with
  | Some c => [(c, target)]
  | None => []
  end.

Definition build_col_map (d : DataFrame) : col_dict :=
  map_entry clave_cols CLAVE d ++ map_entry desc_cols DESCRIPCION d
  ++ map_entry price_cols PRECIO d.

(** ['Clave' in col_map.values()] *)
Definition in_values (v : pystr) (m : col_dict) : bool :=
  existsb (fun kv => pystr_eqb (snd kv) v) m.

Section Normalizer.

Variable float_repr : float -> pystr.

Local Abbreviation py_str := (py_str float_repr).
Local Abbreviation clean_price := (clean_price float_repr).

(** [df.columns.astype(str).str.strip()] on one label. *)
Definition strip_label (l : cell) : cell := CStr (strip (py_str l)).

(** What [Series.astype(str)] does with a missing value (None or NaN)
    depends on the pandas release, and the repository pins none: up to
    pandas 2 the value is written out like any other (['None'], ['nan']),
    from pandas 3 on it stays missing. [na_kept] says which: [true] for
    pandas 3. *)
Variable na_kept : bool.

(** [.astype(str)] on one cell. *)
Definition astype_str (c : cell) : cell :=
  if na_kept && pd_isna c then CFloat nan else CStr (py_str c).

(** [.str.strip()] on one cell: a missing cell stays missing. *)
Definition str_strip (c : cell) : cell :=
  match c with
  | CStr s => CStr (strip s)
  | _ => c
  end.

(** [.fillna("")] on one cell. *)
Definition fillna_empty (c : cell) : cell :=
  if pd_isna c then CStr [] else c.

(** Line 80 on one cell: [.astype(str).str.strip()]. *)
Definition clave_cell (c : cell) : cell := str_strip (astype_str c).

(** Line 81 on one cell: [.astype(str).fillna("")]. *)
Definition descripcion_cell (c : cell) : cell := fillna_empty (astype_str c).

(** [df['Clave'].astype(str).str.strip()]. With a repeated label
    [df['Clave']] is a frame, which has no [.str]. *)
Definition coerce_clave (d : DataFrame) : result DataFrame :=
  match cols_named CLAVE d with
  | [] => Raise KeyError
  | [ _ ] => Ok (map_named CLAVE (map clave_cell) d)
  | _ => Raise AttributeError
  end.

(** [df['Descripcion'].astype(str).fillna("")]. With a repeated label
    this is a frame-to-frame assignment over all the columns that carry
    it. *)
Definition coerce_descripcion (d : DataFrame) : result DataFrame :=
  match cols_named DESCRIPCION d with
  | [] => Raise KeyError
  | _ => Ok (map_named DESCRIPCION (map descripcion_cell) d)
  end.

(** [df['Precio'].apply(clean_price).round(2)]. With a repeated label
    [apply] hands [clean_price] a whole column, whose truth value is a
    [ValueError] (a frame without rows is returned as it is). *)
Definition coerce_precio (d : DataFrame) : result DataFrame :=
  match cols_named PRECIO d with
  | [] => Raise KeyError
  | [ s ] =>
      match mapM clean_price s with
      | Raise e => Raise e
      | Ok fs =>
          Ok (map_named PRECIO (fun _ => map (fun f => CFloat (round2 f)) fs) d)
      end
  | _ => if Nat.eqb (df_len d) 0 then Ok d else Raise ValueError
  end.

(** Run a pure, possibly raising, update on the object behind [r]. *)
Definition modify_result (r : ref) (f : DataFrame -> result DataFrame) : M unit :=
  fun st =>
    match f (deref st r) with
    | Ok d' => (Ok tt, update st r d')
    | Raise e => (Raise e, st)
    end.

(** [normalize_columns(df)], lines 38-84. The argument is a reference:
    line 43 mutates the caller's object, line 71 rebinds the local name
    to a new frame. *)
Definition normalize_columns (df : ref) : M (ref * bool) :=
  (modify df (set_labels strip_label) ;;
   d <- load df ;;
   let col_map := build_col_map d in
   if negb (in_values CLAVE col_map) then ret (df, false)
   else
     df <- alloc (rename col_map d) ;;
     d <- load df ;;
     (if negb (in_columns DESCRIPCION d)
      then modify df (add_column DESCRIPCION (CStr []))
      else ret tt) ;;
     d <- load df ;;
     (if negb (in_columns PRECIO d)
      then modify df (add_column PRECIO (CFloat fzero))
      else ret tt) ;;
     modify_result df coerce_clave ;;
     modify_result df coerce_descripcion ;;
     modify_result df coerce_precio ;;
     d <- load df ;;
     out <- alloc (select [CLAVE; DESCRIPCION; PRECIO] d) ;;
     ret (out, true))%monad.

End Normalizer.

(* ================================================================= *)
(** ** [difflib.SequenceMatcher] *)

Module Difflib.

(** A [Match(a, b, size)] triple. *)
Definition Match : Type := (nat * nat * nat)%type.
Definition size (m : Match) : nat := snd m.

(** [j2len]: a dict read only through [get(j, 0)]. *)
Definition j2len_t := nat -> nat.
Definition j2len_empty : j2len_t := fun _ => 0.
Definition j2len_set (m : j2len_t) (j k : nat) : j2len_t :=
  fun x => if Nat.eqb x j then k else m x.
(** [j2len.get(j-1, 0)]: no key is negative. *)
Definition j2len_prev (m : j2len_t) (j : nat) : nat :=
  match j with
  | O => 0
  | S j' => m j'
  end.

Section Matcher.

(** [SequenceMatcher(None, a, b)]: no junk predicate, [autojunk]
    left at its default [True]. *)
Variables a b : pystr.

Definition at_a (i : nat) : char := nth i a 0%N.
Definition at_b (j : nat) : char := nth j b 0%N.

(** [__chain_b]: with [isjunk = None] the junk set is empty; an element
    is popular when [b] has at least 200 elements and it occurs more
    than [len(b) // 100 + 1] times. *)
Definition isbjunk (c : char) : bool := false.

Definition popular (elt : char) : bool :=
  (200 <=? length b) && (length b / 100 + 1 <? count_occ N.eq_dec b elt).

Fixpoint indices_from (i : nat) (elt : char) (l : pystr) : list nat :=
  match l with
  | [] => []
  | c :: l' =>
      if char_eqb c elt then i :: indices_from (S i) elt l'
      else indices_from (S i) elt l'
  end.

(** [b2j.get(elt, [])]: the positions of [elt] in [b], ascending;
    popular elements were deleted from [b2j]. *)
Definition b2j_get (elt : char) : list nat :=
  if popular elt then [] else indices_from 0 elt b.

(** The running best match [(besti, bestj, bestsize)]. *)
Definition best_t : Type := (nat * nat * nat)%type.

(** The inner loop of [find_longest_match] over [b2j.get(a[i])]:
    [continue] below [blo], [break] from [bhi] on. *)
Fixpoint flm_inner (i blo bhi : nat) (j2len : j2len_t) (js : list nat)
         (newj2len : j2len_t) (best : best_t) : j2len_t * best_t :=
  match js with
  | [] => (newj2len, best)
  | j :: js' =>
      if j <? blo then flm_inner i blo bhi j2len js' newj2len best
      else if bhi <=? j then (newj2len, best)
      else
        let k := j2len_prev j2len j + 1 in
        let newj2len' := j2len_set newj2len j k in
        let '(_, _, bestsize) := best in
        let best' := if bestsize <? k then (i + 1 - k, j + 1 - k, k)
                     else best in
        flm_inner i blo bhi j2len js' newj2len' best'
  end.

(** The outer loop, [for i in range(alo, ahi)]. *)
Definition flm_row (blo bhi : nat) (st : j2len_t * best_t) (i : nat)
  : j2len_t * best_t :=
  flm_inner i blo bhi (fst st) (b2j_get (at_a i)) j2len_empty (snd st).

Definition flm_main (alo ahi blo bhi : nat) : best_t :=
  snd (fold_left (flm_row blo bhi) (seq alo (ahi - alo))
                 (j2len_empty, (alo, blo, 0))).

(** [while besti > alo and bestj > blo and isbjunk(b[bestj-1]) == junk
    and a[besti-1] == b[bestj-1]]: grow the match to the left. *)
Fixpoint extend_left (junk : bool) (alo blo besti bestj bestsize : nat)
  : best_t :=
  match besti, bestj with
  | S i', S j' =>
      if (alo <? besti) && (blo <? bestj)
         && Bool.eqb (isbjunk (at_b j')) junk
         && char_eqb (at_a i') (at_b j')
      then extend_left junk alo blo i' j' (S bestsize)
      else (besti, bestj, bestsize)
  | _, _ => (besti, bestj, bestsize)
  end.

(** [while besti+bestsize < ahi and bestj+bestsize < bhi and
    isbjunk(b[bestj+bestsize]) == junk and
    a[besti+bestsize] == b[bestj+bestsize]]: grow it to the right.
    [n] bounds the iterations; [ahi - (besti + bestsize)] is enough. *)
Fixpoint extend_right (n : nat) (junk : bool) (ahi bhi besti bestj bestsize : nat)
  : nat :=
  match n with
  | O => bestsize
  | S n' =>
      if (besti + bestsize <? ahi) && (bestj + bestsize <? bhi)
         && Bool.eqb (isbjunk (at_b (bestj + bestsize))) junk
         && char_eqb (at_a (besti + bestsize)) (at_b (bestj + bestsize))
      then extend_right n' junk ahi bhi besti bestj (S bestsize)
      else bestsize
  end.

Definition extend (junk : bool) (alo ahi blo bhi : nat) (m : best_t) : best_t :=
  let '(besti, bestj, bestsize) := m in
  let '(besti, bestj, bestsize) :=
    extend_left junk alo blo besti bestj bestsize in
  (besti, bestj,
   extend_right (ahi - (besti + bestsize)) junk ahi bhi besti bestj bestsize).

(** [find_longest_match(alo, ahi, blo, bhi)] *)
Definition find_longest_match (alo ahi blo bhi : nat) : Match :=
  extend true alo ahi blo bhi
    (extend false alo ahi blo bhi (flm_main alo ahi blo bhi)).

(** The work list of [get_matching_blocks]: a Python list used as a
    stack, kept here with its last element first. *)
Definition window : Type := (nat * nat * nat * nat)%type.

Definition step (w : window) (queue : list window) (blocks : list Match)
  : list window * list Match :=
  let '(alo, ahi, blo, bhi) := w in
  let '(i, j, k) := find_longest_match alo ahi blo bhi in
  if Nat.eqb k 0 then (queue, blocks)
  else
    let q1 := if (alo <? i) && (blo <? j)
              then (alo, i, blo, j) :: queue else queue in
    let q2 := if (i + k <? ahi) && (j + k <? bhi)
              then (i + k, ahi, j + k, bhi) :: q1 else q1 in
    (q2, blocks ++ [(i, j, k)]).

(** [while queue: ...], with [fuel] iterations allowed; [None] when
    they do not suffice. *)
Fixpoint blocks_loop (fuel : nat) (queue : list window) (blocks : list Match)
  : option (list Match) :=
  match queue with
  | [] => Some blocks
  | w :: queue' =>
      match fuel with
      | O => None
      | S fuel' =>
          let '(q, bl) := step w queue' blocks in
          blocks_loop fuel' q bl
      end
  end.

End Matcher.

(** [matching_blocks.sort()]: tuples compare lexicographically. *)
Definition match_leb (x y : Match) : bool :=
  let '(i1, j1, k1) := x in
  let '(i2, j2, k2) := y in
  if i1 <? i2 then true else if i2 <? i1 then false
  else if j1 <? j2 then true else if j2 <? j1 then false
  else k1 <=? k2.

Fixpoint insert_match (x : Match) (l : list Match) : list Match :=
  match l with
  | [] => [x]
  | y :: l' => if match_leb x y then x :: l else y :: insert_match x l'
  end.

Definition sort_matches (l : list Match) : list Match :=
  fold_right insert_match [] l.

(** The pass that merges adjacent blocks; [(i1, j1, k1)] is the block
    being grown. *)
Fixpoint collapse (i1 j1 k1 : nat) (l : list Match) : list Match :=
  match l with
  | [] => if Nat.eqb k1 0 then [] else [(i1, j1, k1)]
  | (i2, j2, k2) :: l' =>
      if Nat.eqb (i1 + k1) i2 && Nat.eqb (j1 + k1) j2
      then collapse i1 j1 (k1 + k2) l'
      else (if Nat.eqb k1 0 then [] else [(i1, j1, k1)])
           ++ collapse i2 j2 k2 l'
  end.

(** [get_matching_blocks()]; the fuel given to the loop always suffices
    (see [blocks_loop_terminates]). *)
Definition get_matching_blocks (a b : pystr) : option (list Match) :=
  let la := length a in
  let lb := length b in
  match blocks_loop a b (2 * la + 2) [(0, la, 0, lb)] [] with
  | None => None
  | Some blocks =>
      Some (collapse 0 0 0 (sort_matches blocks) ++ [(la, lb, 0)])
  end.

(** [len(x)] as a float: a length is below [2**63]. *)
Definition float_of_len (n : nat) : float :=
  of_uint63 (Uint63.of_Z (Z.of_nat n)).

(** [_calculate_ratio(matches, length)] *)
Definition calculate_ratio (matches length : nat) : float :=
  if Nat.eqb length 0 then 1%float
  else (2 * float_of_len matches / float_of_len length)%float.

Definition sum_sizes (l : list Match) : nat :=
  fold_right (fun m acc => size m + acc) 0 l.

(** [SequenceMatcher(None, a, b).ratio()] *)
Definition ratio (a b : pystr) : option float :=
  match get_matching_blocks a b with
  | None => None
  | Some blocks => Some (calculate_ratio (sum_sizes blocks) (length a + length b))
  end.

End Difflib.

(* ================================================================= *)
(** ** [calculate_text_similarity] *)

Section Similarity.

(** [str.lower], the Unicode lower-casing of a whole string, is a
    parameter of the model. *)
Variable lower : pystr -> pystr.

Definition is_empty (s : pystr) : bool :=
  match s with
  | [] => true
  | _ => false
  end.

(** [calculate_text_similarity(s1, s2)], lines 86-90, on two strings.
    [None] only if the matcher's loop ran out of fuel, which
    [similarity_returns] excludes. *)
Definition calculate_text_similarity (s1 s2 : pystr) : option float :=
  if is_empty s1 || is_empty s2 then Some fzero
  else
    match Difflib.ratio (lower s1) (lower s2) with
    | None => None
    | Some r => Some (r * fhundred)%float
    end.

End Similarity.

(** Lower-casing restricted to ASCII letters, enough to run the model on
    ASCII inputs. *)
Definition ascii_lower_char (c : char) : char :=
  if ((65 <=? c) && (c <=? 90))%N then (c + 32)%N else c.
Definition ascii_lower (s : pystr) : pystr := map ascii_lower_char s.

(* ================================================================= *)
(** ** The analysis block of [main], lines 155-184 *)

(** A row of a canonical table, the frame [normalize_columns] returns. *)
Record CanonicalRecord : Type := mkRecord {
  Clave : pystr;
  Descripcion : pystr;
  Precio : float
}.

Definition CanonicalTable := list CanonicalRecord.

(** A row of [merged]: which side(s) it came from, with the rows it
    joins. The [_merge] indicator and the suffixed columns are read off
    it; a missing side is NaN in the frame. *)
Inductive MergedRow : Type :=
  | LeftOnly (ra : CanonicalRecord)
  | RightOnly (rb : CanonicalRecord)
  | Both (ra rb : CanonicalRecord).

Inductive indicator : Type := left_only | right_only | both.

Definition merge_indicator (r : MergedRow) : indicator :=
  match r with
  | LeftOnly _ => left_only
  | RightOnly _ => right_only
  | Both _ _ => both
  end.

Definition indicator_eqb (x y : indicator) : bool :=
  match x, y with
  | left_only, left_only | right_only, right_only | both, both => true
  | _, _ => false
  end.

Definition merged_Clave (r : MergedRow) : pystr :=
  match r with
  | LeftOnly ra | Both ra _ => Clave ra
  | RightOnly rb => Clave rb
  end.

Definition merged_Descripcion_A (r : MergedRow) : cell :=
  match r with
  | LeftOnly ra | Both ra _ => CStr (Descripcion ra)
  | RightOnly _ => CFloat nan
  end.

Definition merged_Precio_A (r : MergedRow) : float :=
  match r with
  | LeftOnly ra | Both ra _ => Precio ra
  | RightOnly _ => nan
  end.

Definition merged_Descripcion_B (r : MergedRow) : cell :=
  match r with
  | RightOnly rb | Both _ rb => CStr (Descripcion rb)
  | LeftOnly _ => CFloat nan
  end.

Definition merged_Precio_B (r : MergedRow) : float :=
  match r with
  | RightOnly rb | Both _ rb => Precio rb
  | LeftOnly _ => nan
  end.

(** Keys compare as Python strings do: lexicographically by code point. *)
Fixpoint pystr_leb (s t : pystr) : bool :=
  match s, t with
  | [], _ => true
  | _ :: _, [] => false
  | c :: s', d :: t' =>
      if (c <? d)%N then true
      else if (d <? c)%N then false
      else pystr_leb s' t'
  end.

Fixpoint insert_key (k : pystr) (l : list pystr) : list pystr :=
  match l with
  | [] => [k]
  | k' :: l' => if pystr_leb k k' then k :: l else k' :: insert_key k l'
  end.

Definition sort_keys (l : list pystr) : list pystr :=
  fold_right insert_key [] l.

Definition keys (t : CanonicalTable) : list pystr := map Clave t.

(** The distinct keys of both tables, sorted: the order in which an outer
    merge lays out its groups. *)
Definition join_keys (A B : CanonicalTable) : list pystr :=
  sort_keys (nodup pystr_eq_dec (keys A ++ keys B)).

Definition rows_with (k : pystr) (t : CanonicalTable) : CanonicalTable :=
  filter (fun r => pystr_eqb (Clave r) k) t.

(** The rows of one key: every left row with every right row, or the rows
    of the only side that has the key. *)
Definition join_group (A B : CanonicalTable) (k : pystr) : list MergedRow :=
  match rows_with k A, rows_with k B with
  | [], rb => map RightOnly rb
  | ra, [] => map LeftOnly ra
  | ra, rb => flat_map (fun x => map (Both x) rb) ra
  end.

(** [pd.merge(df_a, df_b, on='Clave', how='outer', suffixes=('_A', '_B'),
    indicator=True)] *)
Definition merge_outer (A B : CanonicalTable) : list MergedRow :=
  flat_map (join_group A B) (join_keys A B).

(** A row of [common_df]. *)
Record MatchRecord : Type := mkMatch {
  match_Clave : pystr;
  Descripcion_A : pystr;
  Descripcion_B : pystr;
  Precio_A : float;
  Precio_B : float;
  Diferencia_abs : float;       (* 'Diferencia $' *)
  Diferencia_pct : float;       (* 'Diferencia %' *)
  Similitud_Texto : float
}.

Record ComparisonResult : Type := mkResult {
  total_a : nat;
  total_b : nat;
  common_count : nat;
  only_a_count : nat;
  only_b_count : nat;
  common_df : list MatchRecord;
  only_a_df : list CanonicalRecord;
  only_b_df : list CanonicalRecord
}.

(** Python's [x / y] on floats raises on a zero divisor. *)
Definition py_truediv (x y : float) : result float :=
  if (y =? 0)%float then Raise ZeroDivisionError else Ok (x / y)%float.

(** [(x['Diferencia $'] / x['Precio_A'] * 100) if x['Precio_A'] != 0 else 0] *)
Definition diferencia_pct (dif precio_a : float) : result float :=
  if negb (precio_a =? 0)%float
  then (q <- py_truediv dif precio_a ;; Ok (q * fhundred)%float)%result
  else Ok fzero.

Section Analysis.

Variable lower : pystr -> pystr.

(** The three derived columns of one [both] row. *)
Definition match_record (ra rb : CanonicalRecord) : result MatchRecord :=
  let dif := round2 (Precio rb - Precio ra)%float in
  (pct <- diferencia_pct dif (Precio ra) ;;
   match calculate_text_similarity lower (Descripcion ra) (Descripcion rb) with
   | None => Raise NoFuel
   | Some sim =>
       Ok (mkMatch (Clave ra) (Descripcion ra) (Descripcion rb)
                   (Precio ra) (Precio rb) dif pct sim)
   end)%result.

Definition common_row (r : MergedRow) : result MatchRecord :=
  match r with
  | Both ra rb => match_record ra rb
  | _ => Raise KeyError
  end.

Definition only_a_row (r : MergedRow) : CanonicalRecord :=
  mkRecord (merged_Clave r)
           (match merged_Descripcion_A r with CStr s => s | _ => [] end)
           (merged_Precio_A r).

Definition only_b_row (r : MergedRow) : CanonicalRecord :=
  mkRecord (merged_Clave r)
           (match merged_Descripcion_B r with CStr s => s | _ => [] end)
           (merged_Precio_B r).

Definition with_indicator (x : indicator) (merged : list MergedRow)
  : list MergedRow :=
  filter (fun r => indicator_eqb (merge_indicator r) x) merged.

(** Lines 158-184: the merge, the three partitions and the results
    object. *)
Definition reconcile (df_a df_b : CanonicalTable) : result ComparisonResult :=
  let merged := merge_outer df_a df_b in
  (common <- mapM common_row (with_indicator both merged) ;;
   let only_a := map only_a_row (with_indicator left_only merged) in
   let only_b := map only_b_row (with_indicator right_only merged) in
   Ok (mkResult (length df_a) (length df_b) (length common)
                (length only_a) (length only_b) common only_a only_b))%result.

End Analysis.

(* ================================================================= *)
(** ** The frame [normalize_columns] returns, read row by row *)

(** One row of a frame whose three columns hold a key, a description and a
    price of the types [normalize_columns] leaves in them. *)
Definition canonical_row (k d p : cell) : option CanonicalRecord :=
  match k, d, p with
  | CStr key, CStr desc, CFloat price => Some (mkRecord key desc price)
  | _, _, _ => None
  end.

Fixpoint zip_rows (ks ds ps : Series) : option CanonicalTable :=
  match ks, ds, ps with
  | [], [], [] => Some []
  | k :: ks', d :: ds', p :: ps' =>
      match canonical_row k d p, zip_rows ks' ds' ps' with
      | Some r, Some t => Some (r :: t)
      | _, _ => None
      end
  | _, _, _ => None
  end.

(** The rows of a frame with exactly the columns ['Clave'],
    ['Descripcion'], ['Precio'], in this order: what [pd.merge] on line 158
    is handed. [None] for any other frame. *)
Definition canonical_rows (d : DataFrame) : option CanonicalTable :=
  match df_cols d with
  | [(lk, ks); (ld, ds); (lp, ps)] =>
      if label_is CLAVE lk && label_is DESCRIPCION ld && label_is PRECIO lp
      then zip_rows ks ds ps
      else None
  | _ => None
  end.

(* ================================================================= *)
(** ** The rest of [main]: validation, KPI, cell style *)


Section Validation.

Variable float_repr : float -> pystr.
Variable na_kept : bool.


End Validation.

(** Line 193, the fourth KPI card:
    [results['only_a_count'] + results['only_b_count']]. *)
Definition diferencias (results : ComparisonResult) : nat :=
  only_a_count results + only_b_count results.

(** [val != 0] and [val > 0] for a number. *)
Definition ne_zero (val : cell) : bool :=
  match val with
  | CBool b => b
  | CInt z => negb (z =? 0)%Z
  | CFloat f => negb (f =? 0)%float
  | _ => true
  end.

Definition gt_zero (val : cell) : bool :=
  match val with
  | CBool b => b
  | CInt z => (0 <? z)%Z
  | CFloat f => (0 <? f)%float
  | _ => false
  end.

(** [highlight_diff(val)], lines 224-228. *)
Definition highlight_diff (val : cell) : pystr :=
  if is_int_or_float val && ne_zero val then
    let color := if gt_zero val then lit "red" else lit "green" in
    lit "color: " ++ color ++ lit "; font-weight: bold"
  else [].

(* ================================================================= *)
(** ** [convert_df_to_excel] *)

(** What [to_excel] writes to one sheet. *)
Inductive Sheet : Type :=
  | SummarySheet (metrica : list pystr) (valor : list nat)
  | MatchSheet (rows : list MatchRecord)
  | RecordSheet (rows : list CanonicalRecord).

(** The [ExcelWriter]: the sheets written so far, by name, in order. *)
Definition Workbook := list (pystr * Sheet).

Definition to_excel (sheet_name : pystr) (s : Sheet) (writer : Workbook)
  : Workbook :=
  writer ++ [(sheet_name, s)].

(** [df.empty] for a frame that has columns: no row. *)
Definition empty {A} (rows : list A) : bool :=
  match rows with
  | [] => true
  | _ => false
  end.

Definition summary_metrica : list pystr :=
  Eval compute in
    [lit "Total Archivo A"; lit "Total Archivo B"; lit "Coincidencias";
     lit "Solo en A"; lit "Solo en B"].

(** [convert_df_to_excel(results)], lines 93-118, up to the encoding of
    the workbook as bytes. *)
Definition convert_df_to_excel (results : ComparisonResult) : Workbook :=
  let writer := [] in
  let summary :=
    SummarySheet summary_metrica
      [total_a results; total_b results; common_count results;
       only_a_count results; only_b_count results] in
  let writer := to_excel (lit "Resumen") summary writer in
  let writer :=
    if negb (empty (common_df results))
    then to_excel (lit "Coincidencias") (MatchSheet (common_df results)) writer
    else writer in
  let writer :=
    if negb (empty (only_a_df results))
    then to_excel (lit "Solo en A") (RecordSheet (only_a_df results)) writer
    else writer in
  let writer :=
    if negb (empty (only_b_df results))
    then to_excel (lit "Solo en B") (RecordSheet (only_b_df results)) writer
    else writer in
  writer.

(* ================================================================= *)
(** * Properties *)

Unset Implicit Arguments.

(* ================================================================= *)
(** ** The matcher: bounds, termination, matched total *)

Module DifflibFacts.
Import Difflib.

Section Bounds.

Variables a b : pystr.
Variables alo ahi blo bhi : nat.

(** A candidate match lies inside the window; an empty one sits at
    its origin. *)
Definition best_ok (bst : best_t) : Prop :=
  let '(bi, bj, bk) := bst in
  alo <= bi /\ blo <= bj /\
  ((bk = 0 /\ bi = alo /\ bj = blo) \/ (bi + bk <= ahi /\ bj + bk <= bhi)).

(** Before row [i], no recorded run is longer than the part of the
    window it ends in. *)
Definition j2len_ok (i : nat) (m : j2len_t) : Prop :=
  forall j, m j <= i - alo /\ m j <= j + 1 - blo.

Lemma j2len_ok_empty : forall i, j2len_ok i j2len_empty.
Proof. intros i j. unfold j2len_empty. lia. Qed.

Lemma flm_inner_ok : forall js i m new bst,
  alo <= i -> i < ahi ->
  j2len_ok i m -> j2len_ok (S i) new -> best_ok bst ->
  j2len_ok (S i) (fst (flm_inner i blo bhi m js new bst)) /\
  best_ok (snd (flm_inner i blo bhi m js new bst)).
Proof.
  induction js as [|j js IH]; intros i m new bst Hlo Hhi Hm Hnew Hb; simpl.
  - auto.
  - destruct (j <? blo) eqn:Hj; [now apply IH|].
    destruct (bhi <=? j) eqn:Hj'; [simpl; auto|].
    apply Nat.ltb_ge in Hj. apply Nat.leb_gt in Hj'.
    destruct bst as [[bi bj] bk].
    assert (Hk : j2len_prev m j + 1 <= S i - alo /\
                 j2len_prev m j + 1 <= j + 1 - blo).
    { destruct j as [|j']; cbn [j2len_prev].
      - lia.
      - destruct (Hm j'). lia. }
    destruct Hk as [Hk1 Hk2].
    apply IH; auto.
    + intros x. unfold j2len_set.
      destruct (Nat.eqb x j) eqn:Hx.
      * apply Nat.eqb_eq in Hx. subst x. lia.
      * apply Hnew.
    + destruct (bk <? j2len_prev m j + 1); [|exact Hb].
      unfold best_ok. lia.
Qed.

Lemma flm_rows_ok : forall n s st,
  alo <= s -> s + n <= ahi ->
  j2len_ok s (fst st) -> best_ok (snd st) ->
  best_ok (snd (fold_left (flm_row a b blo bhi) (seq s n) st)).
Proof.
  induction n as [|n IH]; intros s st Hs Hn Hm Hb; simpl.
  - exact Hb.
  - destruct (flm_inner_ok (b2j_get b (at_a a s)) s (fst st)
                j2len_empty (snd st)) as [H1 H2];
      auto using j2len_ok_empty; try lia.
    apply IH; auto; lia.
Qed.

Lemma flm_main_ok : best_ok (flm_main a b alo ahi blo bhi).
Proof.
  unfold flm_main.
  destruct (Nat.le_gt_cases alo ahi) as [H|H].
  - apply flm_rows_ok; [lia | lia | apply j2len_ok_empty | simpl; lia].
  - replace (ahi - alo) with 0 by lia. simpl. unfold best_ok. lia.
Qed.

Lemma extend_left_ok : forall junk bi bj bk,
  best_ok (bi, bj, bk) ->
  best_ok (extend_left a b junk alo blo bi bj bk).
Proof.
  induction bi as [|i' IH]; intros bj bk Hb; cbn [extend_left]; auto.
  destruct bj as [|j']; auto.
  match goal with |- best_ok (if ?c then _ else _) => destruct c eqn:Hc end;
    auto.
  repeat (apply andb_true_iff in Hc; destruct Hc as [Hc ?]).
  apply Nat.ltb_lt in Hc.
  match goal with H : (blo <? _) = true |- _ => apply Nat.ltb_lt in H end.
  apply IH. unfold best_ok in *. lia.
Qed.

Lemma extend_right_ok : forall n junk bi bj bk,
  best_ok (bi, bj, bk) ->
  best_ok (bi, bj, extend_right a b n junk ahi bhi bi bj bk).
Proof.
  induction n as [|n IH]; intros junk bi bj bk Hb; cbn [extend_right]; auto.
  match goal with |- best_ok (_, _, if ?c then _ else _) => destruct c eqn:Hc end;
    auto.
  repeat (apply andb_true_iff in Hc; destruct Hc as [Hc ?]).
  apply Nat.ltb_lt in Hc.
  match goal with H : (_ <? bhi) = true |- _ => apply Nat.ltb_lt in H end.
  apply IH. unfold best_ok in *. lia.
Qed.

Lemma extend_ok : forall junk bst,
  best_ok bst -> best_ok (extend a b junk alo ahi blo bhi bst).
Proof.
  intros junk [[bi bj] bk] Hb. unfold extend.
  pose proof (extend_left_ok junk bi bj bk Hb) as H.
  destruct (extend_left a b junk alo blo bi bj bk) as [[i j] k].
  now apply extend_right_ok.
Qed.

Lemma find_longest_match_ok :
  best_ok (find_longest_match a b alo ahi blo bhi).
Proof.
  unfold find_longest_match. do 2 apply extend_ok. apply flm_main_ok.
Qed.

End Bounds.

(** The match [find_longest_match] returns lies inside the window. *)
Lemma find_longest_match_bounds : forall a b alo ahi blo bhi i j k,
  find_longest_match a b alo ahi blo bhi = (i, j, k) ->
  alo <= i /\ blo <= j /\ (k <> 0 -> i + k <= ahi /\ j + k <= bhi).
Proof.
  intros a b alo ahi blo bhi i j k H.
  pose proof (find_longest_match_ok a b alo ahi blo bhi) as Hb.
  rewrite H in Hb. unfold best_ok in Hb. lia.
Qed.

(** *** Termination of the work-list loop and the matched total *)

Definition width_a (w : window) : nat :=
  let '(alo, ahi, _, _) := w in ahi - alo.
Definition width_b (w : window) : nat :=
  let '(_, _, blo, bhi) := w in bhi - blo.

Definition span_a (q : list window) : nat :=
  fold_right (fun w acc => width_a w + acc) 0 q.
Definition span_b (q : list window) : nat :=
  fold_right (fun w acc => width_b w + acc) 0 q.

(** What is left to do: each window on the stack costs one iteration,
    plus two for every element it can still split at. *)
Definition weight (q : list window) : nat :=
  fold_right (fun w acc => 2 * width_a w + 1 + acc) 0 q.

Lemma sum_sizes_app : forall l l',
  sum_sizes (l ++ l') = sum_sizes l + sum_sizes l'.
Proof.
  induction l as [|x l IH]; intros l'; simpl; [reflexivity|].
  rewrite IH. lia.
Qed.

Lemma step_facts : forall a b w q bl q' bl',
  step a b w q bl = (q', bl') ->
  weight q' < weight (w :: q) /\
  sum_sizes bl' + span_a q' <= sum_sizes bl + span_a (w :: q) /\
  sum_sizes bl' + span_b q' <= sum_sizes bl + span_b (w :: q).
Proof.
  intros a b [[[alo ahi] blo] bhi] q bl q' bl' H. unfold step in H.
  destruct (find_longest_match a b alo ahi blo bhi) as [[i j] k] eqn:Hf.
  apply find_longest_match_bounds in Hf. destruct Hf as (Hi & Hj & Hk).
  destruct (Nat.eqb k 0) eqn:Hk0.
  - inversion H; subst. simpl. lia.
  - apply Nat.eqb_neq in Hk0. destruct (Hk Hk0) as [Hia Hjb].
    inversion H; subst. rewrite sum_sizes_app.
    destruct ((alo <? i) && (blo <? j)); destruct ((i + k <? ahi) && (j + k <? bhi));
      simpl; unfold size; simpl; lia.
Qed.

Lemma blocks_loop_returns : forall a b fuel q bl,
  weight q <= fuel -> exists r, blocks_loop a b fuel q bl = Some r.
Proof.
  intros a b fuel. induction fuel as [|fuel IH]; intros q bl Hw.
  - destruct q as [|w q]; simpl in *; [eauto | lia].
  - destruct q as [|w q]; [simpl; eauto|].
    cbn [blocks_loop]. destruct (step a b w q bl) as [q' bl'] eqn:Hs.
    apply step_facts in Hs. apply IH. lia.
Qed.

Lemma blocks_loop_sum : forall a b fuel q bl r,
  blocks_loop a b fuel q bl = Some r ->
  sum_sizes r <= sum_sizes bl + span_a q /\
  sum_sizes r <= sum_sizes bl + span_b q.
Proof.
  intros a b fuel. induction fuel as [|fuel IH]; intros q bl r H.
  - destruct q; simpl in H; [|discriminate]. inversion H; subst. lia.
  - destruct q as [|w q]; [simpl in H; inversion H; subst; lia|].
    cbn [blocks_loop] in H. destruct (step a b w q bl) as [q' bl'] eqn:Hs.
    apply step_facts in Hs. apply IH in H. lia.
Qed.

Lemma sum_sizes_insert : forall x l,
  sum_sizes (insert_match x l) = size x + sum_sizes l.
Proof.
  induction l as [|y l IH]; simpl; [reflexivity|].
  destruct (match_leb x y); simpl; [reflexivity|]. rewrite IH. lia.
Qed.

Lemma sum_sizes_sort : forall l, sum_sizes (sort_matches l) = sum_sizes l.
Proof.
  induction l as [|x l IH]; simpl; [reflexivity|].
  rewrite sum_sizes_insert, IH. reflexivity.
Qed.

Lemma sum_sizes_collapse : forall l i1 j1 k1,
  sum_sizes (collapse i1 j1 k1 l) = k1 + sum_sizes l.
Proof.
  induction l as [|[[i2 j2] k2] l IH]; intros i1 j1 k1; cbn [collapse].
  - destruct (Nat.eqb k1 0) eqn:E; simpl; unfold size; simpl.
    + apply Nat.eqb_eq in E. lia.
    + lia.
  - destruct (Nat.eqb (i1 + k1) i2 && Nat.eqb (j1 + k1) j2).
    + rewrite IH. simpl. unfold size. simpl. lia.
    + rewrite sum_sizes_app, IH.
      destruct (Nat.eqb k1 0) eqn:E; simpl; unfold size; simpl.
      * apply Nat.eqb_eq in E. lia.
      * lia.
Qed.

(** The loop of [get_matching_blocks] always ends within its bound. *)
Theorem blocks_loop_terminates : forall a b,
  exists r,
    blocks_loop a b (2 * length a + 2) [(0, length a, 0, length b)] [] = Some r.
Proof.
  intros a b. apply blocks_loop_returns. simpl. lia.
Qed.

Theorem get_matching_blocks_returns : forall a b,
  exists bls, get_matching_blocks a b = Some bls.
Proof.
  intros a b. unfold get_matching_blocks.
  destruct (blocks_loop_terminates a b) as [r Hr]. rewrite Hr. eauto.
Qed.

(** The blocks match at most every element of either sequence. *)
Theorem matched_le : forall a b bls,
  get_matching_blocks a b = Some bls ->
  sum_sizes bls <= length a /\ sum_sizes bls <= length b.
Proof.
  intros a b bls H. unfold get_matching_blocks in H.
  destruct (blocks_loop a b (2 * length a + 2) [(0, length a, 0, length b)] [])
    as [r|] eqn:Hr; [|discriminate].
  inversion H; subst. apply blocks_loop_sum in Hr.
  rewrite sum_sizes_app, sum_sizes_collapse, sum_sizes_sort.
  simpl in *. unfold size. simpl. lia.
Qed.

(** *** A sequence against itself *)

Fixpoint ascending (l : list nat) : Prop :=
  match l with
  | [] => True
  | j :: r => (forall x, In x r -> j < x) /\ ascending r
  end.

Lemma indices_from_In : forall c l k j,
  In j (indices_from k c l)
  <-> k <= j /\ j < k + length l /\ nth (j - k) l 0%N = c.
Proof.
  intros c. induction l as [|d l IH]; intros k j; cbn [indices_from].
  - simpl. split; [contradiction | lia].
  - assert (Hs : forall x, In x (indices_from (S k) c l)
                 <-> S k <= x /\ x < k + length (d :: l)
                     /\ nth (x - k) (d :: l) 0%N = c).
    { intro x. rewrite IH. simpl length.
      split; intros (H1 & H2 & H3); repeat split; try lia.
      - replace (x - k) with (S (x - S k)) by lia. exact H3.
      - replace (x - k) with (S (x - S k)) in H3 by lia. exact H3. }
    destruct (char_eqb d c) eqn:E.
    + apply N.eqb_eq in E. subst d. simpl In. rewrite Hs. split.
      * intros [<-|H]; [|lia]. rewrite Nat.sub_diag. simpl. lia.
      * intros (H1 & H2 & H3).
        destruct (Nat.eq_dec j k) as [->|Hne]; [now left|right].
        repeat split; try lia; try exact H3.
    + apply N.eqb_neq in E. rewrite Hs. split.
      * intros (H1 & H2 & H3). repeat split; try lia; try exact H3.
      * intros (H1 & H2 & H3).
        destruct (Nat.eq_dec j k) as [->|Hne].
        -- rewrite Nat.sub_diag in H3. simpl in H3. contradiction.
        -- repeat split; try lia; try exact H3.
Qed.

Lemma indices_from_ascending : forall c l k, ascending (indices_from k c l).
Proof.
  intros c. induction l as [|d l IH]; intros k; cbn [indices_from].
  - exact I.
  - destruct (char_eqb d c); [|apply IH].
    split; [|apply IH].
    intros x Hx. apply indices_from_In in Hx. lia.
Qed.

Section Diagonal.

Variable s : pystr.

Let n := length s.

Definition nonpop (c : char) : bool := negb (popular s c).

(** The number of consecutive unpopular elements that end at [j]. *)
Fixpoint run (j : nat) : nat :=
  match j with
  | O => if nonpop (at_b s 0) then 1 else 0
  | S j' => if nonpop (at_b s j) then S (run j') else 0
  end.

Definition run_before (i : nat) : nat :=
  match i with
  | O => 0
  | S i' => run i'
  end.

Lemma run_eq : forall j,
  run j = if nonpop (at_b s j) then S (run_before j) else 0.
Proof. intros [|j]; reflexivity. Qed.

(** Before row [i]: every recorded run is bounded by the runs of
    unpopular elements ending at its two ends, and the diagonal entry is
    exact. *)
Definition map_diag (i : nat) (m : j2len_t) : Prop :=
  (forall j, m j <= run j) /\
  (forall j, m j <= run_before i) /\
  j2len_prev m i = run_before i.

(** The best match so far lies on the diagonal and is at least as long as
    every run seen. *)
Definition best_diag (i : nat) (bst : best_t) : Prop :=
  let '(bi, bj, bk) := bst in
  bi = bj /\ forall j, j < i -> run j <= bk.

Lemma flm_inner_diag : forall i m js new bst,
  nonpop (at_a s i) = true ->
  map_diag i m ->
  ascending js ->
  (forall j, In j js -> j < n /\ at_b s j = at_a s i) ->
  (forall j, new j <= run j /\ new j <= run i) ->
  best_diag i bst ->
  (~ In i js -> new i = run i /\ run i <= snd bst) ->
  let r := flm_inner i 0 n m js new bst in
  (forall j, fst r j <= run j /\ fst r j <= run i) /\
  fst r i = run i /\ best_diag (S i) (snd r).
Proof.
  intros i m js. induction js as [|j r IH];
    intros new bst Hnp Hm Hasc Hjs Hnew Hb Hdone; cbn [flm_inner].
  - destruct (Hdone (fun H => H)) as [Hi Hbk]. destruct bst as [[bi bj] bk].
    simpl in *. repeat split; try apply Hnew; auto.
    + apply Hb.
    + intros j Hj. destruct (Nat.eq_dec j i) as [->|Hne]; [assumption|].
      apply Hb. lia.
  - destruct (Hjs j (or_introl eq_refl)) as [Hjn Hsj].
    destruct Hasc as [Hgt Hasc]. destruct Hm as (M1 & M2 & M3).
    (* the body of one iteration *)
    replace (j <? 0) with false by (symmetry; apply Nat.ltb_ge; lia).
    replace (n <=? j) with false by (symmetry; apply Nat.leb_gt; lia).
    destruct bst as [[bi bj] bk]. destruct Hb as [Hbd Hbr].
    assert (Hrj : run j = S (run_before j)).
    { rewrite run_eq. unfold at_a, at_b in *. rewrite Hsj. now rewrite Hnp. }
    assert (Hri : run i = S (run_before i)).
    { rewrite run_eq. unfold at_a, at_b in *. now rewrite Hnp. }
    assert (Hk : j2len_prev m j + 1 <= run j /\ j2len_prev m j + 1 <= run i).
    { split.
      - rewrite Hrj. destruct j as [|j']; cbn [j2len_prev run_before];
          [lia | specialize (M1 j'); lia].
      - rewrite Hri. destruct j as [|j']; cbn [j2len_prev];
          [lia | specialize (M2 j'); lia]. }
    destruct Hk as [Hk1 Hk2].
    assert (Hnew' : forall x, j2len_set new j (j2len_prev m j + 1) x <= run x /\
                              j2len_set new j (j2len_prev m j + 1) x <= run i).
    { intro x. unfold j2len_set. destruct (Nat.eqb x j) eqn:E;
        [apply Nat.eqb_eq in E; subst x; auto | apply Hnew]. }
    assert (Hm : map_diag i m) by (repeat split; assumption).
    assert (Hjs' : forall x, In x r -> x < n /\ at_b s x = at_a s i)
      by (intros x Hx; apply Hjs; now right).
    assert (Hb0 : best_diag i (bi, bj, bk)) by (split; assumption).
    destruct (Nat.lt_trichotomy j i) as [Hlt|[Heq|Hgt']].
    + (* a column left of the diagonal: no longer than a run already seen *)
      assert (Hno : (bk <? j2len_prev m j + 1) = false).
      { apply Nat.ltb_ge. specialize (Hbr j Hlt). lia. }
      rewrite Hno.
      apply IH; [assumption | assumption | assumption | assumption
                | assumption | assumption | ].
      intro Hni. destruct Hdone as [Hd1 Hd2].
      { intros [H|H]; [lia | contradiction]. }
      split; [|assumption]. unfold j2len_set.
      replace (Nat.eqb i j) with false
        by (symmetry; apply Nat.eqb_neq; lia). assumption.
    + (* the diagonal *)
      subst j.
      assert (Hkd : j2len_prev m i + 1 = run i) by (rewrite Hri, M3; lia).
      destruct (bk <? j2len_prev m i + 1) eqn:Hup.
      * apply Nat.ltb_lt in Hup.
        apply IH; [assumption | assumption | assumption | assumption
                  | assumption | | ].
        -- split; [reflexivity|]. intros x Hx. specialize (Hbr x Hx). lia.
        -- intros _. cbn [snd]. split; [|lia]. unfold j2len_set.
           now rewrite Nat.eqb_refl.
      * apply Nat.ltb_ge in Hup.
        apply IH; [assumption | assumption | assumption | assumption
                  | assumption | assumption | ].
        intros _. cbn [snd]. split; [|lia]. unfold j2len_set.
        now rewrite Nat.eqb_refl.
    + (* a column right of the diagonal: the diagonal was already seen *)
      destruct Hdone as [Hd1 Hd2].
      { intros [H|H]; [lia | apply Hgt in H; lia]. }
      cbn [snd] in Hd2.
      assert (Hno : (bk <? j2len_prev m j + 1) = false)
        by (apply Nat.ltb_ge; lia).
      rewrite Hno.
      apply IH; [assumption | assumption | assumption | assumption
                | assumption | assumption | ].
      intros _. split; [|assumption]. unfold j2len_set.
      replace (Nat.eqb i j) with false
        by (symmetry; apply Nat.eqb_neq; lia). assumption.
Qed.

Lemma flm_row_diag : forall i st,
  i < n -> map_diag i (fst st) -> best_diag i (snd st) ->
  map_diag (S i) (fst (flm_row s s 0 n st i)) /\
  best_diag (S i) (snd (flm_row s s 0 n st i)).
Proof.
  intros i [m bst] Hi Hm Hb. unfold flm_row. cbn [fst snd] in *.
  unfold b2j_get. destruct (popular s (at_a s i)) eqn:Hp.
  - cbn [flm_inner fst snd].
    assert (Hr : run i = 0).
    { rewrite run_eq. unfold nonpop, at_b, at_a in *. now rewrite Hp. }
    split.
    + unfold map_diag, j2len_empty. cbn [run_before j2len_prev].
      repeat split; intros; lia.
    + destruct bst as [[bi bj] bk]. destruct Hb as [Hd Hbr].
      split; [assumption|]. intros j Hj.
      destruct (Nat.eq_dec j i) as [->|Hne]; [lia | apply Hbr; lia].
  - destruct (flm_inner_diag i m (indices_from 0 (at_a s i) s)
                j2len_empty bst) as (H1 & H2 & H3);
      [ unfold nonpop; now rewrite Hp
      | exact Hm
      | apply indices_from_ascending
      |
      | intro j; unfold j2len_empty; lia
      | exact Hb
      |
      | ].
    + intros j Hj. apply indices_from_In in Hj.
      destruct Hj as (_ & Hj & Hn). rewrite Nat.sub_0_r in Hn.
      split; [exact Hj | exact Hn].
    + intro Hni. exfalso. apply Hni. apply indices_from_In.
      rewrite Nat.sub_0_r. split; [lia|]. split; [exact Hi | reflexivity].
    + split; [|assumption]. unfold map_diag. cbn [run_before j2len_prev].
      split; [|split]; try assumption; intro j; apply H1.
Qed.

Lemma flm_rows_diag : forall k i st,
  i + k <= n -> map_diag i (fst st) -> best_diag i (snd st) ->
  best_diag (i + k) (snd (fold_left (flm_row s s 0 n) (seq i k) st)).
Proof.
  induction k as [|k IH]; intros i st Hik Hm Hb; cbn [seq fold_left].
  - now rewrite Nat.add_0_r.
  - destruct (flm_row_diag i st) as [Hm' Hb']; auto; try lia.
    replace (i + S k) with (S i + k) by lia. apply IH; auto. lia.
Qed.

Lemma flm_main_diag : forall bi bj bk,
  flm_main s s 0 n 0 n = (bi, bj, bk) -> bi = bj.
Proof.
  intros bi bj bk H. unfold flm_main in H.
  pose proof (flm_rows_diag (n - 0) 0 (j2len_empty, (0, 0, 0))) as Hd.
  rewrite H in Hd. apply Hd.
  - lia.
  - unfold map_diag, j2len_empty. cbn. repeat split; intros; lia.
  - cbn. split; [reflexivity|]. intros; lia.
Qed.

Lemma extend_left_same : forall d k,
  extend_left s s false 0 0 d d k = (0, 0, k + d).
Proof.
  induction d as [|d IH]; intro k; cbn [extend_left].
  - now rewrite Nat.add_0_r.
  - unfold isbjunk, char_eqb. rewrite N.eqb_refl. cbn.
    rewrite IH. f_equal. lia.
Qed.

Lemma extend_right_same : forall fuel k,
  k + fuel = n -> extend_right s s fuel false n n 0 0 k = n.
Proof.
  induction fuel as [|fuel IH]; intros k Hk; cbn [extend_right].
  - lia.
  - replace (0 + k <? n) with true by (symmetry; apply Nat.ltb_lt; lia).
    unfold isbjunk, char_eqb. rewrite N.eqb_refl. cbn.
    apply IH. lia.
Qed.

Lemma extend_left_junk : forall (a b : pystr) alo blo bi bj bk,
  extend_left a b true alo blo bi bj bk = (bi, bj, bk).
Proof.
  intros a b alo blo [|bi] [|bj] bk; cbn [extend_left]; try reflexivity.
  unfold isbjunk. cbn. now rewrite !andb_false_r.
Qed.

Lemma extend_right_junk : forall (a b : pystr) fuel ahi bhi bi bj bk,
  extend_right a b fuel true ahi bhi bi bj bk = bk.
Proof.
  intros a b [|fuel] ahi bhi bi bj bk; cbn [extend_right]; [reflexivity|].
  unfold isbjunk. cbn. now rewrite !andb_false_r.
Qed.

(** Matched against itself, a sequence is one block. *)
Lemma find_longest_match_same : find_longest_match s s 0 n 0 n = (0, 0, n).
Proof.
  unfold find_longest_match.
  destruct (flm_main s s 0 n 0 n) as [[bi bj] bk] eqn:Hm.
  pose proof (flm_main_diag _ _ _ Hm) as Hd. subst bj.
  pose proof (flm_main_ok s s 0 n 0 n) as Hok. rewrite Hm in Hok.
  unfold extend at 2. rewrite extend_left_same.
  rewrite extend_right_same by (unfold best_ok in Hok; lia).
  unfold extend. rewrite extend_left_junk, extend_right_junk. reflexivity.
Qed.

End Diagonal.

Lemma blocks_loop_same : forall s,
  s <> [] ->
  blocks_loop s s (2 * length s + 2) [(0, length s, 0, length s)] []
  = Some [(0, 0, length s)].
Proof.
  intros s Hs. replace (2 * length s + 2) with (S (S (2 * length s))) by lia.
  cbn [blocks_loop]. unfold step. rewrite find_longest_match_same.
  assert (Hn : length s <> 0) by (destruct s; simpl; congruence).
  replace (Nat.eqb (length s) 0) with false
    by (symmetry; now apply Nat.eqb_neq).
  rewrite !Nat.ltb_irrefl. cbn [andb].
  replace (0 + length s <? length s) with false
    by (symmetry; apply Nat.ltb_ge; lia).
  reflexivity.
Qed.

(** Every element of a sequence matches when it is compared with
    itself. *)
Theorem matched_same : forall s,
  exists bls, get_matching_blocks s s = Some bls /\ sum_sizes bls = length s.
Proof.
  intro s. unfold get_matching_blocks. destruct s as [|c s].
  - eexists. split; reflexivity.
  - rewrite blocks_loop_same by discriminate.
    eexists. split; [reflexivity|].
    rewrite sum_sizes_app, sum_sizes_collapse, sum_sizes_sort.
    unfold sum_sizes, size. simpl. lia.
Qed.


Theorem ratio_returns : forall a b, exists r, ratio a b = Some r.
Proof.
  intros a b. unfold ratio.
  destruct (get_matching_blocks_returns a b) as [bls H]. rewrite H. eauto.
Qed.

End DifflibFacts.

(* ================================================================= *)
(** ** Binary64 arithmetic on lengths

    What the ratio needs from the floats: a length below [2^53] converts
    exactly, doubling is exact, [x / x] is 1, and a quotient of a smaller
    by a larger length, rounded and multiplied by 100, stays within
    [0, 100]. The rounding of [SpecFloat] is followed step by step. *)

Module FloatFacts.
Import Difflib.

Section Rounding.

Local Open Scope Z_scope.

Lemma digits2_bounds : forall p,
  2 ^ (Zpos (digits2_pos p) - 1) <= Zpos p < 2 ^ Zpos (digits2_pos p).
Proof.
  induction p as [p IH|p IH|]; cbn [digits2_pos].
  - rewrite Pos2Z.inj_succ.
    replace (Z.succ (Zpos (digits2_pos p)) - 1) with (Z.succ (Zpos (digits2_pos p) - 1)) by lia.
    rewrite !Z.pow_succ_r by lia. lia.
  - rewrite Pos2Z.inj_succ.
    replace (Z.succ (Zpos (digits2_pos p)) - 1) with (Z.succ (Zpos (digits2_pos p) - 1)) by lia.
    rewrite !Z.pow_succ_r by lia. lia.
  - simpl. lia.
Qed.

Lemma digits2_unique : forall p d,
  2 ^ (d - 1) <= Zpos p < 2 ^ d -> Zpos (digits2_pos p) = d.
Proof.
  intros p d [H1 H2]. pose proof (digits2_bounds p) as [B1 B2].
  assert (0 < d).
  { destruct (Z.lt_ge_cases 0 d); [assumption|].
    assert (2 ^ d <= 2 ^ 0) by (apply Z.pow_le_mono_r; lia).
    simpl in *. lia. }
  destruct (Z.lt_trichotomy (Zpos (digits2_pos p)) d) as [Hlt|[Heq|Hgt]]; [|assumption|].
  - assert (2 ^ Zpos (digits2_pos p) <= 2 ^ (d - 1)) by (apply Z.pow_le_mono_r; lia). lia.
  - assert (2 ^ d <= 2 ^ (Zpos (digits2_pos p) - 1)) by (apply Z.pow_le_mono_r; lia). lia.
Qed.

Lemma iter_pos_eq : forall (A : Type) (f : A -> A) p x,
  iter_pos f p x = Pos.iter f x p.
Proof.
  intros A f. induction p as [p IH|p IH|]; intro x; cbn [iter_pos Pos.iter].
  - rewrite !IH. rewrite <- !Pos.iter_swap. reflexivity.
  - rewrite !IH. reflexivity.
  - reflexivity.
Qed.

Lemma iter_pos_nat : forall (A : Type) (f : A -> A) p x,
  iter_pos f p x = Nat.iter (Pos.to_nat p) f x.
Proof. intros. rewrite iter_pos_eq. apply Pos2Nat.inj_iter. Qed.

Definition rec_exact (r : shr_record) : Prop := shr_r r = false /\ shr_s r = false.

Lemma shr_1_spec : forall m r s, 0 <= m ->
  shr_1 (Build_shr_record m r s) = Build_shr_record (m / 2) (Z.odd m) (r || s).
Proof.
  intros m r s Hm. rewrite <- Z.div2_div.
  destruct m as [|[p|p|]|p]; try lia; reflexivity.
Qed.

Lemma shr_iter_spec : forall k m r s, 0 <= m ->
  let R := Nat.iter k shr_1 (Build_shr_record m r s) in
  shr_m R = m / 2 ^ Z.of_nat k /\
  (rec_exact R <-> (r = false /\ s = false /\ m mod 2 ^ Z.of_nat k = 0)).
Proof.
  induction k as [|k IH]; intros m r s Hm R.
  - subst R. change (Nat.iter 0 shr_1 (Build_shr_record m r s)) with (Build_shr_record m r s). cbn [shr_m]. unfold rec_exact. cbn [shr_r shr_s].
    change (Z.of_nat 0) with 0.
    rewrite Z.pow_0_r, Z.div_1_r, Z.mod_1_r. tauto.
  - subst R. rewrite Nat.iter_succ. destruct (IH m r s Hm) as [Hq Hx].
    destruct (Nat.iter k shr_1 (Build_shr_record m r s)) as [mk rk sk] eqn:E.
    cbn [shr_m] in Hq. unfold rec_exact in *. cbn [shr_r shr_s] in Hx.
    assert (0 <= mk) by (subst mk; apply Z.div_pos; lia).
    rewrite shr_1_spec by assumption. cbn [shr_m shr_r shr_s].
    rewrite Nat2Z.inj_succ, Z.pow_succ_r by lia.
    split.
    + subst mk. rewrite Z.div_div by lia. f_equal. lia.
    + rewrite orb_false_iff. 
      assert (Hodd : Z.odd mk = false <-> mk mod 2 = 0).
      { rewrite Zmod_odd. destruct (Z.odd mk); split; intro; congruence. }
      rewrite Hodd.
      assert (Hmod: m mod (2 * 2 ^ Z.of_nat k) = 0 <-> (m mod 2 ^ Z.of_nat k = 0 /\ mk mod 2 = 0)).
      { subst mk. set (P := 2 ^ Z.of_nat k). assert (0 < P) by (apply Z.pow_pos_nonneg; lia).
        rewrite (Z.mul_comm 2 P). rewrite Z.rem_mul_r by lia.
        pose proof (Z.mod_pos_bound m P ltac:(lia)).
        pose proof (Z.mod_pos_bound (m / P) 2 ltac:(lia)). nia. }
      rewrite Hmod. tauto.
Qed.

Lemma Zdigits2_bounds : forall m, 0 < m ->
  2 ^ (Zdigits2 m - 1) <= m < 2 ^ Zdigits2 m.
Proof. intros [|p|p] H; try lia. apply digits2_bounds. Qed.

Lemma Zdigits2_unique : forall m d, 0 < m ->
  2 ^ (d - 1) <= m < 2 ^ d -> Zdigits2 m = d.
Proof. intros [|p|p] d H; try lia. apply digits2_unique. Qed.

Lemma record_of_loc_exact : forall m l,
  rec_exact (shr_record_of_loc m l) <-> l = loc_Exact.
Proof.
  intros m [|[| |]]; unfold rec_exact; simpl; split; intro H;
    try reflexivity; try discriminate; try (destruct H; discriminate); auto.
Qed.

Lemma shr_spec : forall m l e n, 0 <= m -> 0 <= n ->
  fst (shr (shr_record_of_loc m l) e n) = Nat.iter (Z.to_nat n) shr_1 (shr_record_of_loc m l) /\
  snd (shr (shr_record_of_loc m l) e n) = e + n /\
  shr_m (fst (shr (shr_record_of_loc m l) e n)) = m / 2 ^ n /\
  (rec_exact (fst (shr (shr_record_of_loc m l) e n))
   <-> (l = loc_Exact /\ m mod 2 ^ n = 0)).
Proof.
  intros m l e n Hm Hn.
  assert (E : fst (shr (shr_record_of_loc m l) e n)
              = Nat.iter (Z.to_nat n) shr_1 (shr_record_of_loc m l)).
  { destruct n as [|p|p]; try lia; cbn [shr fst].
    - reflexivity.
    - rewrite iter_pos_nat. reflexivity. }
  split; [exact E|]. split.
  { destruct n; simpl; lia. }
  rewrite E. pose proof (record_of_loc_exact m l) as Hl.
  destruct (shr_record_of_loc m l) as [m0 r0 s0] eqn:E0.
  assert (m0 = m) by (destruct l as [|[| |]]; inversion E0; reflexivity).
  subst m0.
  destruct (shr_iter_spec (Z.to_nat n) m r0 s0 Hm) as [H1 H2].
  rewrite Z2Nat.id in * by assumption.
  split; [exact H1|]. rewrite H2. unfold rec_exact in Hl. cbn [shr_r shr_s] in Hl.
  tauto.
Qed.

Lemma round_cases : forall R,
  (rec_exact R /\ round_nearest_even (shr_m R) (loc_of_shr_record R) = shr_m R) \/
  (~ rec_exact R /\
   (round_nearest_even (shr_m R) (loc_of_shr_record R) = shr_m R \/
    round_nearest_even (shr_m R) (loc_of_shr_record R) = shr_m R + 1)).
Proof.
  intros [m [|] [|]]; unfold rec_exact; cbn;
    try (right; split; [intros [? ?]; discriminate|]; auto;
         destruct (Z.even m); auto).
  left. auto.
Qed.

Lemma fexp_normal : forall x, -1074 <= x - 53 -> fexp prec emax x = x - 53.
Proof. intros x H. unfold fexp, SpecFloat.emin, prec, emax. lia. Qed.

Lemma pow2_split : forall n k, 0 <= n -> 0 <= k -> 2 ^ (n + k) = 2 ^ n * 2 ^ k.
Proof. intros. apply Z.pow_add_r; assumption. Qed.

Lemma bra_normal : forall s m e l,
  0 < m -> 53 <= Zdigits2 m ->
  -1074 <= Zdigits2 m + e - 53 -> Zdigits2 m + e - 53 + 1 <= 971 ->
  let n := Zdigits2 m - 53 in
  let m1 := m / 2 ^ n in
  exists m2 e2,
    binary_round_aux prec emax s m e l = S754_finite s m2 e2 /\
    2 ^ 52 <= Zpos m2 < 2 ^ 53 /\
    ((Zpos m2 = m1 /\ e2 = e + n) \/
     (~ (l = loc_Exact /\ m mod 2 ^ n = 0) /\
      ((Zpos m2 = m1 + 1 /\ e2 = e + n) \/
       (m1 + 1 = 2 ^ 53 /\ Zpos m2 = 2 ^ 52 /\ e2 = e + n + 1)))).
Proof.
  intros s m e l Hm Hd Hlo Hhi n m1.
  assert (Hn : 0 <= n) by (unfold n; lia).
  assert (Hm1 : 2 ^ 52 <= m1 < 2 ^ 53).
  { pose proof (Zdigits2_bounds m Hm) as [B1 B2].
    assert (P : 0 < 2 ^ n) by (apply Z.pow_pos_nonneg; lia).
    replace (Zdigits2 m - 1) with (n + 52) in B1 by (unfold n; lia).
    replace (Zdigits2 m) with (n + 53) in B2 by (unfold n; lia).
    rewrite pow2_split in B1, B2 by lia.
    unfold m1. split.
    - apply Z.div_le_lower_bound; lia.
    - apply Z.div_lt_upper_bound; lia. }
  unfold binary_round_aux, shr_fexp.
  rewrite (fexp_normal (Zdigits2 m + e)) by lia.
  replace (Zdigits2 m + e - 53 - e) with n by (unfold n; lia).
  destruct (shr_spec m l e n ltac:(lia) Hn) as (_ & He1 & Hq & Hx).
  destruct (shr (shr_record_of_loc m l) e n) as [R1 e1].
  cbn [fst snd] in He1, Hq, Hx. subst e1. fold m1 in Hq.
  set (mr := round_nearest_even (shr_m R1) (loc_of_shr_record R1)).
  assert (Hmr : mr = m1 \/ (~ (l = loc_Exact /\ m mod 2 ^ n = 0) /\ mr = m1 + 1)).
  { unfold mr. destruct (round_cases R1) as [[_ H]|[Hne [H|H]]];
      rewrite H, Hq; auto. right. split; [|reflexivity]. now rewrite <- Hx. }
  clearbody mr.
  assert (Hcase : mr < 2 ^ 53 \/ mr = 2 ^ 53) by lia.
  destruct Hcase as [Hlt|Heq].
  - assert (Hdr : Zdigits2 mr = 53) by (apply Zdigits2_unique; lia).
    rewrite Hdr. rewrite (fexp_normal (53 + (e + n))) by (unfold n; lia).
    replace (53 + (e + n) - 53 - (e + n)) with 0 by lia.
    cbn [shr shr_record_of_loc shr_m].
    destruct mr as [|p|p]; try lia.
    replace (e + n <=? emax - prec) with true
      by (symmetry; apply Z.leb_le; unfold emax, prec, n; lia).
    exists p, (e + n). split; [reflexivity|]. split; [lia|].
    destruct Hmr as [H|[Hne H]]; [left|right]; auto.
  - subst mr.
    replace (Zdigits2 (2 ^ 53)) with 54 by reflexivity.
    rewrite (fexp_normal (54 + (e + n))) by (unfold n; lia).
    replace (54 + (e + n) - 53 - (e + n)) with 1 by lia.
    cbn.
    replace (e + n + 1 <=? 971) with true
      by (symmetry; apply Z.leb_le; unfold n; lia).
    exists 4503599627370496%positive, (e + n + 1).
    split; [reflexivity|]. split; [cbn; lia|].
    destruct Hmr as [H|[Hne H]]; [lia|]. right. split; [assumption|].
    right. repeat split; try lia; try reflexivity.
Qed.

Definition normal (m : positive) : Prop := 2 ^ 52 <= Zpos m < 2 ^ 53.

Lemma iter_xO : forall q p, Zpos (Pos.iter xO p q) = Zpos p * 2 ^ Zpos q.
Proof.
  induction q as [|q IH] using Pos.peano_ind; intro p.
  - cbn [Pos.iter]. rewrite Pos2Z.inj_xO. change (2 ^ 1) with 2. lia.
  - rewrite Pos.iter_succ, Pos2Z.inj_xO, IH, Pos2Z.inj_succ, Z.pow_succ_r by lia.
    lia.
Qed.

(** An integer below 2^53 converts exactly: the mantissa is the integer
    shifted to 53 bits. *)
Lemma normalize_small : forall z, 0 < z < 2 ^ 53 ->
  exists m,
    binary_normalize prec emax z 0 false = S754_finite false m (Zdigits2 z - 53) /\
    Zpos m = z * 2 ^ (53 - Zdigits2 z) /\ normal m.
Proof.
  intros [|p|p] [Hz1 Hz2]; try lia.
  cbn [binary_normalize]. unfold binary_round.
  pose proof (digits2_bounds p) as [B1 B2].
  set (d := Zpos (digits2_pos p)) in *.
  assert (Hd : 1 <= d <= 53).
  { split; [unfold d; lia|].
    destruct (Z.le_gt_cases d 53); [assumption|].
    assert (2 ^ 53 <= 2 ^ (d - 1)) by (apply Z.pow_le_mono_r; lia). lia. }
  cbn [Zdigits2]. fold d.
  rewrite (fexp_normal (d + 0)) by lia.
  assert (Hmz : exists mz,
    shl_align p 0 (d + 0 - 53) = (mz, d - 53) /\ Zpos mz = Zpos p * 2 ^ (53 - d)).
  { unfold shl_align. destruct (d + 0 - 53 - 0) as [|q|q] eqn:E; try lia.
    - exists p. replace (d - 53) with 0 by lia. replace (53 - d) with 0 by lia.
      split; [reflexivity|]. lia.
    - exists (Pos.iter xO p q). split; [f_equal; lia|].
      rewrite iter_xO. f_equal. f_equal. lia. }
  destruct Hmz as (mz & -> & Hmz).
  assert (Hnz : normal mz).
  { unfold normal. rewrite Hmz.
    assert (P : 2 ^ (d - 1) * 2 ^ (53 - d) = 2 ^ 52)
      by (rewrite <- Z.pow_add_r by lia; f_equal; lia).
    assert (P' : 2 ^ d * 2 ^ (53 - d) = 2 ^ 53)
      by (rewrite <- Z.pow_add_r by lia; f_equal; lia).
    assert (0 < 2 ^ (53 - d)) by (apply Z.pow_pos_nonneg; lia).
    nia. }
  assert (Hdz : Zdigits2 (Zpos mz) = 53) by (apply Zdigits2_unique; [lia | exact Hnz]).
  destruct (bra_normal false (Zpos mz) (d - 53) loc_Exact) as (m2 & e2 & -> & Hn2 & Hc);
    try lia.
  rewrite Hdz in Hc. replace (53 - 53) with 0 in Hc by lia.
  rewrite Z.pow_0_r, Z.div_1_r, Z.mod_1_r in Hc.
  destruct Hc as [[H1 H2]|[Hne _]]; [|exfalso; apply Hne; auto].
  exists m2. replace (d - 53 + 0) with (d - 53) in H2 by lia. subst e2.
  split; [reflexivity|]. split; [lia | exact Hn2].
Qed.

Lemma SF_two : Prim2SF 2%float = S754_finite false 4503599627370496 (-51).
Proof. reflexivity. Qed.

Lemma SF_one : Prim2SF 1%float = S754_finite false 4503599627370496 (-52).
Proof. reflexivity. Qed.

Lemma SF_hundred : Prim2SF 100%float = S754_finite false 7036874417766400 (-46).
Proof. reflexivity. Qed.

Lemma mul2_normal : forall x m e,
  Prim2SF x = S754_finite false m e -> normal m -> -900 <= e <= 900 ->
  Prim2SF (2 * x)%float = S754_finite false m (e + 1).
Proof.
  intros x m e Hx Hm He. rewrite mul_spec, SF_two, Hx.
  unfold SF64mul, SFmul. cbn [xorb].
  assert (Hd : Zdigits2 (Zpos (4503599627370496 * m)) = 105).
  { apply Zdigits2_unique; [lia|]. unfold normal in Hm.
    rewrite Pos2Z.inj_mul. change (Zpos 4503599627370496) with (2 ^ 52).
    change (2 ^ (105 - 1)) with (2 ^ 52 * 2 ^ 52).
    change (2 ^ 105) with (2 ^ 52 * 2 ^ 53). nia. }
  destruct (bra_normal false (Zpos (4503599627370496 * m)) (-51 + e) loc_Exact)
    as (m2 & e2 & -> & Hn2 & Hc); try lia.
  rewrite Hd in Hc. replace (105 - 53) with 52 in Hc by lia.
  rewrite Pos2Z.inj_mul in Hc. change (Zpos 4503599627370496) with (2 ^ 52) in Hc.
  rewrite (Z.mul_comm (2 ^ 52)), Z.div_mul, Z.mod_mul in Hc by lia.
  destruct Hc as [[H1 H2]|[Hne _]]; [|exfalso; apply Hne; auto].
  f_equal; lia.
Qed.

Lemma div_eucl_mul : forall a b, 0 < b -> Z.div_eucl (a * b) b = (a, 0).
Proof.
  intros a b Hb. pose proof (Z.div_eucl_eq (a * b) b ltac:(lia)) as E.
  pose proof (Z.mod_pos_bound (a * b) b Hb) as B.
  unfold Z.modulo in B. destruct (Z.div_eucl (a * b) b) as [q r].
  assert (r = 0).
  { assert (Hr : r = (a - q) * b) by lia.
    destruct (Z.lt_trichotomy (a - q) 0) as [H|[H|H]]; nia. }
  subst r. f_equal. nia.
Qed.

(** [x / x] is 1 for a finite non-zero float. *)
Lemma SFdiv_self : forall s m e,
  SFdiv prec emax (S754_finite s m e) (S754_finite s m e)
  = S754_finite false 4503599627370496 (-52).
Proof.
  intros s m e. unfold SFdiv, SFdiv_core_binary.
  replace (Zdigits2 (Zpos m) + e - (Zdigits2 (Zpos m) + e)) with 0 by lia.
  replace (e - e) with 0 by lia.
  change (Z.min (fexp prec emax 0) 0) with (-53).
  change (0 - -53) with 53.
  cbv beta iota zeta.
  rewrite Z.shiftl_mul_pow2 by lia.
  rewrite (Z.mul_comm (Zpos m)), div_eucl_mul by lia.
  rewrite xorb_nilpotent.
  assert (Hl : new_location (Zpos m) 0 = loc_Exact)
    by (unfold new_location; destruct (Z.even (Zpos m)); reflexivity).
  rewrite Hl. reflexivity.
Qed.

Lemma div_self : forall x s m e,
  Prim2SF x = S754_finite s m e -> (x / x)%float = 1%float.
Proof.
  intros x s m e H. apply Prim2SF_inj.
  rewrite div_spec, H. unfold SF64div. rewrite SFdiv_self. reflexivity.
Qed.

Lemma Zdigits2_mono : forall a b, 0 < a -> a <= b -> Zdigits2 a <= Zdigits2 b.
Proof.
  intros a b Ha Hab.
  pose proof (Zdigits2_bounds a Ha) as [A1 _].
  pose proof (Zdigits2_bounds b ltac:(lia)) as [_ B2].
  destruct (Z.le_gt_cases (Zdigits2 a) (Zdigits2 b)); [assumption|].
  assert (2 ^ Zdigits2 b <= 2 ^ (Zdigits2 a - 1)) by (apply Z.pow_le_mono_r; lia).
  lia.
Qed.

Lemma Zdigits2_pos : forall a, 0 < a -> 0 < Zdigits2 a.
Proof. intros [|p|p] H; simpl; lia. Qed.

Lemma Zdigits2_double : forall a, 0 < a -> Zdigits2 (2 * a) = Zdigits2 a + 1.
Proof.
  intros a Ha. pose proof (Zdigits2_bounds a Ha) as [A1 A2].
  pose proof (Zdigits2_pos a Ha).
  apply Zdigits2_unique; [lia|].
  replace (Zdigits2 a + 1 - 1) with (Z.succ (Zdigits2 a - 1)) by lia.
  replace (Zdigits2 a + 1) with (Z.succ (Zdigits2 a)) by lia.
  rewrite !Z.pow_succ_r by lia. lia.
Qed.

Lemma SFdiv_le_one : forall mx ex my ey,
  normal mx -> normal my ->
  (ex < ey \/ (ex = ey /\ Zpos mx < Zpos my)) ->
  -60 <= ex <= 60 -> -60 <= ey <= 60 ->
  exists m e,
    SFdiv prec emax (S754_finite false mx ex) (S754_finite false my ey)
    = S754_finite false m e /\
    normal m /\
    ((Zpos m = 2 ^ 52 /\ e = -52) \/ (-200 <= e <= -53)).
Proof.
  intros mx ex my ey Hx Hy Hlt Hex Hey. unfold normal in *.
  unfold SFdiv, SFdiv_core_binary. cbn [xorb].
  rewrite (Zdigits2_unique (Zpos mx) 53) by (try lia; exact Hx).
  rewrite (Zdigits2_unique (Zpos my) 53) by (try lia; exact Hy).
  rewrite (fexp_normal (53 + ex - (53 + ey))) by lia.
  rewrite Z.min_l by lia.
  replace (ex - ey - (53 + ex - (53 + ey) - 53)) with 53 by lia.
  cbv beta iota zeta. rewrite Z.shiftl_mul_pow2 by lia.
  pose proof (Z.div_eucl_eq (Zpos mx * 2 ^ 53) (Zpos my) ltac:(lia)) as E.
  pose proof (Z.mod_pos_bound (Zpos mx * 2 ^ 53) (Zpos my) ltac:(lia)) as B.
  unfold Z.modulo in B.
  destruct (Z.div_eucl (Zpos mx * 2 ^ 53) (Zpos my)) as [q r].
  set (e' := 53 + ex - (53 + ey) - 53).
  assert (Hq : 2 ^ 52 <= q < 2 ^ 54).
  { change (2 ^ 54) with (2 * 2 ^ 53). change (2 ^ 53) with (2 * 2 ^ 52) in *.
    split; nia. }
  assert (Hq' : ex = ey -> q < 2 ^ 53).
  { intro He. destruct Hlt as [H|[_ H]]; [lia|]. nia. }
  assert (Hdq : Zdigits2 q = 53 \/ (Zdigits2 q = 54 /\ 2 ^ 53 <= q)).
  { destruct (Z.lt_ge_cases q (2 ^ 53)).
    - left. apply Zdigits2_unique; lia.
    - right. split; [|assumption]. apply Zdigits2_unique; lia. }
  destruct Hdq as [Hd|[Hd Hq2]];
    destruct (bra_normal false q e' (new_location (Zpos my) r))
      as (m2 & e2 & -> & Hn2 & Hc); try (unfold e'; lia);
    rewrite Hd in Hc; exists m2, e2; split; try reflexivity;
    split; try exact Hn2.
  - replace (53 - 53) with 0 in Hc by lia. rewrite Z.pow_0_r, Z.div_1_r in Hc.
    unfold e' in *.
    destruct Hc as [[H1 H2]|[_ [[H1 H2]|(H1 & H2 & H3)]]]; try (right; lia);
      try (destruct (Z.eq_dec ex ey); [left|right]; lia).
  - replace (54 - 53) with 1 in Hc by lia.
    assert (ex < ey) by (destruct (Z.eq_dec ex ey); [specialize (Hq' e); lia | lia]).
    unfold e' in *.
    destruct Hc as [[H1 H2]|[_ [[H1 H2]|(H1 & H2 & H3)]]]; try (right; lia);
      try (destruct (Z.eq_dec (ex + 1) ey); [left|right]; lia).
Qed.

Definition m100 : Z := 7036874417766400.

Lemma SFmul100_le : forall m e,
  normal m ->
  ((Zpos m = 2 ^ 52 /\ e = -52) \/ (-200 <= e <= -53)) ->
  exists m2 e2,
    SFmul prec emax (S754_finite false m e) (S754_finite false 7036874417766400 (-46))
    = S754_finite false m2 e2 /\
    (e2 < -46 \/ (e2 = -46 /\ Zpos m2 <= m100)).
Proof.
  intros m e Hm Hc. unfold normal in Hm. unfold SFmul. cbn [xorb].
  rewrite Pos2Z.inj_mul. fold m100.
  assert (H100 : m100 = 25 * 2 ^ 48) by reflexivity.
  set (P := Zpos m * m100).
  assert (HP : 2 ^ 104 <= P < 2 ^ 106).
  { unfold P. rewrite H100.
    change (2 ^ 104) with (2 ^ 52 * (16 * 2 ^ 48)).
    change (2 ^ 106) with (2 ^ 53 * (32 * 2 ^ 48)).
    change (2 ^ 48) with 281474976710656. lia. }
  assert (Hdp : (Zdigits2 P = 105 /\ P < 2 ^ 105) \/
                (Zdigits2 P = 106 /\ 2 ^ 105 <= P)).
  { destruct (Z.lt_ge_cases P (2 ^ 105)).
    - left. split; [|assumption]. apply Zdigits2_unique; lia.
    - right. split; [|assumption]. apply Zdigits2_unique; lia. }
  destruct Hdp as [[Hd HP2]|[Hd HP2]];
    destruct (bra_normal false P (e + -46) loc_Exact)
      as (m2 & e2 & -> & Hn2 & Hr); try lia;
    rewrite Hd in Hr; exists m2, e2; (split; [reflexivity|]).
  - replace (105 - 53) with 52 in Hr by lia.
    destruct Hc as [[Hc1 Hc2]|Hc].
    + (* the quotient was 1 *)
      assert (HPe : P = m100 * 2 ^ 52) by (unfold P; rewrite Hc1; lia).
      rewrite HPe, Z.div_mul, Z.mod_mul in Hr by lia.
      destruct Hr as [[H1 H2]|[Hne _]]; [right; lia | exfalso; apply Hne; auto].
    + assert (H52 : 2 ^ 52 <= m100).
      { rewrite H100. change (2 ^ 52) with (16 * 2 ^ 48).
        change (2 ^ 48) with 281474976710656. lia. }
      destruct Hr as [[H1 H2]|[_ [[H1 H2]|(H1 & H2 & H3)]]]; try (left; lia);
        try (destruct (Z.eq_dec e2 (-46)); [right|left]; lia).
  - replace (106 - 53) with 53 in Hr by lia.
    destruct Hc as [[Hc1 Hc2]|Hc].
    + exfalso. unfold P in HP2. rewrite Hc1, H100 in HP2.
      change (2 ^ 105) with (2 ^ 52 * (32 * 2 ^ 48)) in HP2.
      change (2 ^ 48) with 281474976710656 in HP2. lia.
    + assert (Hm1 : e = -53 -> P / 2 ^ 53 + 1 <= m100).
      { intros _. assert (P / 2 ^ 53 < m100); [|lia].
        apply Z.div_lt_upper_bound; [lia|]. unfold P.
        assert (0 < m100) by (rewrite H100; lia). nia. }
      assert (H53 : m100 < 2 ^ 53).
      { rewrite H100. change (2 ^ 53) with (32 * 2 ^ 48).
        change (2 ^ 48) with 281474976710656. lia. }
      assert (H52 : 2 ^ 52 <= m100).
      { rewrite H100. change (2 ^ 52) with (16 * 2 ^ 48).
        change (2 ^ 48) with 281474976710656. lia. }
      destruct (Z.eq_dec e (-53)) as [He|He].
      * specialize (Hm1 He).
        destruct Hr as [[H1 H2]|[_ [[H1 H2]|(H1 & H2 & H3)]]];
          try (right; lia); try lia.
      * destruct Hr as [[H1 H2]|[_ [[H1 H2]|(H1 & H2 & H3)]]];
          try (left; lia);
          try (destruct (Z.eq_dec e2 (-46)); [right|left]; lia).
Qed.

Lemma bounded_by_hundred : forall v m e,
  Prim2SF v = S754_finite false m e ->
  (e < -46 \/ (e = -46 /\ Zpos m <= m100)) ->
  (0 <=? v)%float = true /\ (v <=? 100)%float = true.
Proof.
  intros v m e Hv Hb. rewrite !leb_spec, Hv, SF_hundred.
  change (Prim2SF 0) with (S754_zero false).
  unfold SFleb, SFcompare. split; [reflexivity|].
  destruct Hb as [Hb|[-> Hb]].
  - apply Z.compare_lt_iff in Hb. now rewrite Hb.
  - cbn [Z.compare Pos.compare]. rewrite Pos.compare_cont_spec. cbn [Pos.switch_Eq].
    unfold m100 in Hb.
    destruct (Pos.compare_spec m 7036874417766400); try reflexivity. lia.
Qed.

Lemma float_of_len_SF : forall n, 0 < Z.of_nat n < 2 ^ 53 ->
  exists m,
    Prim2SF (float_of_len n)
    = S754_finite false m (Zdigits2 (Z.of_nat n) - 53) /\
    Zpos m = Z.of_nat n * 2 ^ (53 - Zdigits2 (Z.of_nat n)) /\ normal m.
Proof.
  intros n Hn. unfold float_of_len. rewrite of_uint63_spec.
  rewrite Uint63.of_Z_spec.
  rewrite Z.mod_small.
  - now apply normalize_small.
  - change Uint63.wB with (2 ^ 63). 
    assert (2 ^ 53 < 2 ^ 63) by reflexivity. lia.
Qed.

Lemma Zdigits2_small : forall z, 0 < z < 2 ^ 53 -> 1 <= Zdigits2 z <= 53.
Proof.
  intros z Hz. pose proof (Zdigits2_bounds z ltac:(lia)) as [B1 B2].
  pose proof (Zdigits2_pos z ltac:(lia)). split; [lia|].
  destruct (Z.le_gt_cases (Zdigits2 z) 53); [assumption|].
  assert (2 ^ 53 <= 2 ^ (Zdigits2 z - 1)) by (apply Z.pow_le_mono_r; lia). lia.
Qed.

(** Twice a length, computed in floats, is the float of twice the length. *)
Lemma double_len : forall n,
  0 < Z.of_nat n -> Z.of_nat (n + n) < 2 ^ 53 ->
  (2 * float_of_len n)%float = float_of_len (n + n).
Proof.
  intros n Hn Hnn. apply Prim2SF_inj.
  destruct (float_of_len_SF n ltac:(lia)) as (m & Hm & Hv & Hnm).
  destruct (float_of_len_SF (n + n) ltac:(lia)) as (m' & Hm' & Hv' & Hnm').
  pose proof (Zdigits2_small (Z.of_nat n) ltac:(lia)) as Hd.
  rewrite (mul2_normal _ _ _ Hm Hnm) by lia.
  rewrite Hm'. rewrite Nat2Z.inj_add in *.
  replace (Z.of_nat n + Z.of_nat n) with (2 * Z.of_nat n) in * by lia.
  pose proof (Zdigits2_small (2 * Z.of_nat n) ltac:(lia)) as Hd2.
  rewrite Zdigits2_double in * by lia.
  f_equal; [|lia].
  assert (Zpos m = Zpos m'); [|congruence].
  rewrite Hv, Hv'.
  replace (53 - Zdigits2 (Z.of_nat n)) with (Z.succ (53 - (Zdigits2 (Z.of_nat n) + 1))) by lia.
  rewrite Z.pow_succ_r by lia. lia.
Qed.

Lemma calculate_ratio_same : forall n,
  Z.of_nat (n + n) < 2 ^ 53 ->
  calculate_ratio n (n + n) = 1%float.
Proof.
  intros n Hn. unfold calculate_ratio.
  destruct (Nat.eqb (n + n) 0) eqn:E; [reflexivity|].
  apply Nat.eqb_neq in E.
  rewrite double_len by lia.
  destruct (float_of_len_SF (n + n) ltac:(lia)) as (m & Hm & _).
  eapply div_self; eauto.
Qed.

Lemma zero_div : forall y m e,
  Prim2SF y = S754_finite false m e -> (0 / y)%float = 0%float.
Proof.
  intros y m e H. apply Prim2SF_inj. rewrite div_spec, H. reflexivity.
Qed.

(** The ratio of [matches] to [length] lies between 0 and 100 percent
    when the matches count each element at most once. *)
Lemma calculate_ratio_bounds : forall matches length,
  (matches + matches <= length)%nat -> Z.of_nat length < 2 ^ 53 ->
  (0 <=? calculate_ratio matches length * 100)%float = true /\
  (calculate_ratio matches length * 100 <=? 100)%float = true.
Proof.
  intros M T HMT HT. unfold calculate_ratio.
  destruct (Nat.eqb T 0) eqn:ET; [split; reflexivity|].
  apply Nat.eqb_neq in ET.
  destruct (float_of_len_SF T ltac:(lia)) as (mT & HmT & HvT & HnT).
  pose proof (Zdigits2_small (Z.of_nat T) ltac:(lia)) as HdT.
  destruct (Nat.eq_dec M 0) as [->|HM0].
  - change (2 * float_of_len 0)%float with 0%float.
    rewrite (zero_div _ _ _ HmT). split; reflexivity.
  - destruct (Nat.eq_dec (M + M) T) as [<-|Hne].
    + rewrite double_len by lia. rewrite (div_self _ _ _ _ HmT).
      split; reflexivity.
    + destruct (float_of_len_SF M ltac:(lia)) as (mM & HmM & HvM & HnM).
      pose proof (Zdigits2_small (Z.of_nat M) ltac:(lia)) as HdM.
      pose proof (mul2_normal _ _ _ HmM HnM ltac:(lia)) as Hx.
      assert (Hlt : 2 * Z.of_nat M < Z.of_nat T) by lia.
      pose proof (Zdigits2_mono (2 * Z.of_nat M) (Z.of_nat T) ltac:(lia) ltac:(lia)) as Hmono.
      rewrite Zdigits2_double in Hmono by lia.
      destruct (SFdiv_le_one mM (Zdigits2 (Z.of_nat M) - 53 + 1)
                  mT (Zdigits2 (Z.of_nat T) - 53)) as (mq & eq & Hq & Hnq & Hcq);
        try assumption; try lia.
      { destruct (Z.eq_dec (Zdigits2 (Z.of_nat M) + 1) (Zdigits2 (Z.of_nat T))) as [Hde|Hde];
          [right|left; lia].
        split; [lia|]. rewrite HvM, HvT, <- Hde.
        replace (53 - Zdigits2 (Z.of_nat M)) with (Z.succ (53 - (Zdigits2 (Z.of_nat M) + 1))) by lia.
        rewrite Z.pow_succ_r by lia.
        assert (0 < 2 ^ (53 - (Zdigits2 (Z.of_nat M) + 1))) by (apply Z.pow_pos_nonneg; lia).
        nia. }
      destruct (SFmul100_le mq eq Hnq Hcq) as (m2 & e2 & Hr & Hb).
      apply (bounded_by_hundred _ m2 e2); [|assumption].
      rewrite mul_spec, div_spec, Hx, HmT, SF_hundred.
      unfold SF64mul, SF64div. rewrite Hq. exact Hr.
Qed.

End Rounding.

End FloatFacts.

(* ================================================================= *)
(** ** Strings and keys *)

Lemma pystr_eqb_eq : forall s t, pystr_eqb s t = true <-> s = t.
Proof.
  induction s as [|c s IH]; destruct t as [|d t]; simpl; split;
    try discriminate; try reflexivity; intro H.
  - apply andb_true_iff in H. destruct H as [H1 H2].
    apply N.eqb_eq in H1. apply IH in H2. congruence.
  - inversion H; subst. apply andb_true_iff. split.
    + apply N.eqb_refl.
    + now apply IH.
Qed.

Lemma pystr_eqb_refl : forall s, pystr_eqb s s = true.
Proof. intro s. now apply pystr_eqb_eq. Qed.

Lemma pystr_eqb_neq : forall s t, pystr_eqb s t = false <-> s <> t.
Proof.
  intros s t. split; intro H.
  - intro E. apply pystr_eqb_eq in E. congruence.
  - destruct (pystr_eqb s t) eqn:E; [|reflexivity].
    apply pystr_eqb_eq in E. contradiction.
Qed.

Lemma insert_key_perm : forall k l, Permutation (insert_key k l) (k :: l).
Proof.
  induction l as [|k' l IH]; simpl; [reflexivity|].
  destruct (pystr_leb k k'); [reflexivity|].
  rewrite IH. apply perm_swap.
Qed.

Lemma sort_keys_perm : forall l, Permutation (sort_keys l) l.
Proof.
  induction l as [|k l IH]; simpl; [reflexivity|].
  rewrite insert_key_perm. now constructor.
Qed.

Lemma join_keys_NoDup : forall A B, NoDup (join_keys A B).
Proof.
  intros A B. unfold join_keys.
  eapply Permutation_NoDup; [symmetry; apply sort_keys_perm|].
  apply NoDup_nodup.
Qed.

Lemma join_keys_In : forall A B k,
  In k (join_keys A B) <-> In k (keys A) \/ In k (keys B).
Proof.
  intros A B k. unfold join_keys.
  rewrite <- in_app_iff, <- (nodup_In pystr_eq_dec (keys A ++ keys B)).
  split; apply Permutation_in; [|symmetry]; apply sort_keys_perm.
Qed.

Lemma rows_with_In : forall k t r,
  In r (rows_with k t) <-> In r t /\ Clave r = k.
Proof.
  intros k t r. unfold rows_with. rewrite filter_In, pystr_eqb_eq. tauto.
Qed.

Lemma rows_with_nil : forall k t,
  rows_with k t = [] <-> ~ In k (keys t).
Proof.
  intros k t. unfold keys. split.
  - intros H Hin. apply in_map_iff in Hin. destruct Hin as (r & Hr & Hin).
    assert (In r (rows_with k t)) by (apply rows_with_In; auto).
    rewrite H in *. contradiction.
  - intros H. destruct (rows_with k t) as [|r l] eqn:E; [reflexivity|].
    exfalso. apply H. assert (Hr : In r (rows_with k t)) by (rewrite E; now left).
    apply rows_with_In in Hr. destruct Hr as [Hr Hk].
    apply in_map_iff. eauto.
Qed.

Lemma rows_with_unique : forall k t,
  NoDup (keys t) -> length (rows_with k t) <= 1.
Proof.
  intros k t. induction t as [|r t IH]; intro Hnd; [simpl; lia|].
  inversion Hnd as [|? ? Hnotin Hnd']; subst.
  change (rows_with k (r :: t))
    with (if pystr_eqb (Clave r) k then r :: rows_with k t else rows_with k t).
  destruct (pystr_eqb (Clave r) k) eqn:E.
  - apply pystr_eqb_eq in E. subst k.
    apply rows_with_nil in Hnotin. rewrite Hnotin. simpl. lia.
  - now apply IH.
Qed.

(* ================================================================= *)
(** ** The outer merge: which rows it has, and how many *)

Lemma filter_flat_map : forall (X Y : Type) (p : Y -> bool) (g : X -> list Y) l,
  filter p (flat_map g l) = flat_map (fun x => filter p (g x)) l.
Proof.
  induction l as [|x l IH]; simpl; [reflexivity|].
  now rewrite filter_app, IH.
Qed.

Lemma flat_map_length_sum : forall (X Y : Type) (g : X -> list Y) l,
  length (flat_map g l) = list_sum (map (fun x => length (g x)) l).
Proof.
  induction l as [|x l IH]; simpl; [reflexivity|].
  now rewrite length_app, IH.
Qed.

Lemma list_sum_map_add : forall (X : Type) (f g : X -> nat) l,
  list_sum (map f l) + list_sum (map g l)
  = list_sum (map (fun x => f x + g x) l).
Proof.
  induction l as [|x l IH]; simpl; [reflexivity|]. lia.
Qed.

Lemma with_indicator_all : forall x y l,
  Forall (fun r => merge_indicator r = y) l ->
  with_indicator x l = if indicator_eqb y x then l else [].
Proof.
  intros x y l H. unfold with_indicator.
  induction H as [|r l Hr Hl IH]; simpl.
  - now destruct (indicator_eqb y x).
  - rewrite Hr, IH. now destruct (indicator_eqb y x).
Qed.

Lemma Forall_indicator_map : forall (c : CanonicalRecord -> MergedRow) y l,
  (forall r, merge_indicator (c r) = y) ->
  Forall (fun r => merge_indicator r = y) (map c l).
Proof.
  intros c y l H. apply Forall_forall. intros r Hr.
  apply in_map_iff in Hr. destruct Hr as (x & <- & _). apply H.
Qed.

Lemma Forall_indicator_both : forall la lb,
  Forall (fun r => merge_indicator r = both)
         (flat_map (fun x => map (Both x) lb) la).
Proof.
  intros la lb. apply Forall_forall. intros r Hr.
  apply in_flat_map in Hr. destruct Hr as (x & _ & Hr).
  apply in_map_iff in Hr. destruct Hr as (y & <- & _). reflexivity.
Qed.

Lemma length_cross : forall la lb : CanonicalTable,
  length (flat_map (fun x => map (Both x) lb) la) = length la * length lb.
Proof.
  induction la as [|x la IH]; intros lb; simpl; [reflexivity|].
  now rewrite length_app, length_map, IH.
Qed.

(** The rows of one key, counted by side. *)
Lemma group_counts : forall A B k,
  let la := rows_with k A in
  let lb := rows_with k B in
  let g := join_group A B k in
  length (with_indicator both g)
    = (match la, lb with [], _ | _, [] => 0 | _, _ => length la * length lb end)
  /\ length (with_indicator left_only g)
    = (match lb with [] => length la | _ => 0 end)
  /\ length (with_indicator right_only g)
    = (match la with [] => length lb | _ => 0 end).
Proof.
  intros A B k la lb g. subst la lb g. unfold join_group.
  destruct (rows_with k A) as [|ra la]; destruct (rows_with k B) as [|rb lb].
  - simpl. auto.
  - rewrite !(with_indicator_all _ right_only)
      by (apply Forall_indicator_map; reflexivity).
    simpl. rewrite length_map. auto.
  - rewrite !(with_indicator_all _ left_only)
      by (apply Forall_indicator_map; reflexivity).
    simpl. rewrite length_map. auto.
  - rewrite !(with_indicator_all _ both) by apply Forall_indicator_both.
    cbn [indicator_eqb]. rewrite length_cross. simpl. auto.
Qed.

Lemma count_key_once : forall (k : pystr) ks,
  NoDup ks -> In k ks ->
  list_sum (map (fun k' => if pystr_eqb k k' then 1 else 0) ks) = 1.
Proof.
  intros k ks Hnd. induction Hnd as [|k' ks Hnotin Hnd IH]; intro Hin; simpl.
  - contradiction.
  - destruct (pystr_eqb k k') eqn:E.
    + apply pystr_eqb_eq in E. subst k'.
      assert (H0 : list_sum (map (fun k' => if pystr_eqb k k' then 1 else 0) ks) = 0).
      { clear IH Hin Hnd. induction ks as [|x ks IH]; simpl; [reflexivity|].
        destruct (pystr_eqb k x) eqn:E.
        - apply pystr_eqb_eq in E. subst x. exfalso. apply Hnotin. now left.
        - apply IH. intro H. apply Hnotin. now right. }
      lia.
    + apply pystr_eqb_neq in E. destruct Hin as [Hin|Hin]; [congruence|].
      rewrite (IH Hin). lia.
Qed.

(** Over distinct keys that cover a table, the groups add up to it. *)
Lemma rows_with_sum : forall t ks,
  NoDup ks -> (forall k, In k (keys t) -> In k ks) ->
  list_sum (map (fun k => length (rows_with k t)) ks) = length t.
Proof.
  induction t as [|r t IH]; intros ks Hnd Hcov; simpl.
  - induction ks as [|k ks IHk]; simpl; [reflexivity|].
    inversion Hnd; subst. now rewrite IHk.
  - transitivity
      (list_sum (map (fun k => (if pystr_eqb (Clave r) k then 1 else 0)
                               + length (rows_with k t)) ks)).
    + f_equal. apply map_ext. intro k. unfold rows_with. simpl.
      destruct (pystr_eqb (Clave r) k); reflexivity.
    + rewrite <- list_sum_map_add.
      rewrite (count_key_once (Clave r) ks Hnd) by (apply Hcov; now left).
      rewrite (IH ks Hnd) by (intros k Hk; apply Hcov; now right).
      reflexivity.
Qed.

Lemma merged_count : forall x A B,
  length (with_indicator x (merge_outer A B))
  = list_sum (map (fun k => length (with_indicator x (join_group A B k)))
                  (join_keys A B)).
Proof.
  intros x A B. unfold merge_outer, with_indicator.
  now rewrite filter_flat_map, flat_map_length_sum.
Qed.

(** With no repeated key on the right, every left row lands in exactly
    one [both] or [left_only] row. *)
Lemma merged_left_total : forall A B,
  NoDup (keys B) ->
  length (with_indicator both (merge_outer A B))
  + length (with_indicator left_only (merge_outer A B)) = length A.
Proof.
  intros A B HB. rewrite !merged_count, list_sum_map_add.
  rewrite <- (rows_with_sum A (join_keys A B) (join_keys_NoDup A B))
    by (intros k Hk; apply join_keys_In; now left).
  f_equal. apply map_ext. intro k.
  destruct (group_counts A B k) as (Hb & Hl & _). rewrite Hb, Hl.
  pose proof (rows_with_unique k B HB) as Hu.
  destruct (rows_with k A) as [|ra la]; destruct (rows_with k B) as [|rb [|rb' lb]];
    simpl in *; lia.
Qed.

Lemma merged_right_total : forall A B,
  NoDup (keys A) ->
  length (with_indicator both (merge_outer A B))
  + length (with_indicator right_only (merge_outer A B)) = length B.
Proof.
  intros A B HA. rewrite !merged_count, list_sum_map_add.
  rewrite <- (rows_with_sum B (join_keys A B) (join_keys_NoDup A B))
    by (intros k Hk; apply join_keys_In; now right).
  f_equal. apply map_ext. intro k.
  destruct (group_counts A B k) as (Hb & _ & Hr). rewrite Hb, Hr.
  pose proof (rows_with_unique k A HA) as Hu.
  destruct (rows_with k A) as [|ra [|ra' la]]; destruct (rows_with k B) as [|rb lb];
    simpl in *; lia.
Qed.

Lemma group_key : forall A B k row,
  In row (join_group A B k) -> merged_Clave row = k.
Proof.
  intros A B k row. unfold join_group.
  destruct (rows_with k A) as [|ra la] eqn:EA;
    destruct (rows_with k B) as [|rb lb] eqn:EB; intro H.
  - contradiction.
  - apply in_map_iff in H. destruct H as (x & <- & Hx).
    rewrite <- EB in Hx. now apply rows_with_In in Hx.
  - apply in_map_iff in H. destruct H as (x & <- & Hx).
    rewrite <- EA in Hx. now apply rows_with_In in Hx.
  - apply in_flat_map in H. destruct H as (x & Hx & H).
    apply in_map_iff in H. destruct H as (y & <- & Hy).
    rewrite <- EA in Hx. now apply rows_with_In in Hx.
Qed.

Lemma merged_keys_iff : forall x A B k,
  In k (map merged_Clave (with_indicator x (merge_outer A B)))
  <-> In k (join_keys A B) /\ with_indicator x (join_group A B k) <> [].
Proof.
  intros x A B k. unfold merge_outer, with_indicator.
  rewrite filter_flat_map, in_map_iff. split.
  - intros (row & Hk & Hin). apply in_flat_map in Hin.
    destruct Hin as (k' & Hk' & Hin).
    assert (k' = k).
    { apply filter_In in Hin. destruct Hin as [Hin _].
      apply group_key in Hin. congruence. }
    subst k'. split; [assumption|]. intro E. rewrite E in Hin. contradiction.
  - intros [Hk Hne].
    destruct (filter (fun r => indicator_eqb (merge_indicator r) x)
                     (join_group A B k)) as [|row l] eqn:E; [contradiction|].
    assert (Hrow : In row (filter (fun r => indicator_eqb (merge_indicator r) x)
                                  (join_group A B k))) by (rewrite E; now left).
    exists row. split.
    + apply filter_In in Hrow. destruct Hrow as [Hrow _].
      now apply group_key in Hrow.
    + apply in_flat_map. eauto.
Qed.

Lemma length_nonzero : forall (X : Type) (l : list X), l <> [] <-> length l <> 0.
Proof. intros X [|x l]; simpl; split; intro H; congruence. Qed.

(** Which keys each partition of [merged] holds. *)
Lemma merged_keys_both : forall A B k,
  In k (map merged_Clave (with_indicator both (merge_outer A B)))
  <-> In k (keys A) /\ In k (keys B).
Proof.
  intros A B k. rewrite merged_keys_iff, join_keys_In, length_nonzero.
  destruct (group_counts A B k) as (-> & _ & _).
  pose proof (rows_with_nil k A) as HA. pose proof (rows_with_nil k B) as HB.
  destruct (in_dec pystr_eq_dec k (keys A)) as [Ha|Ha];
    destruct (in_dec pystr_eq_dec k (keys B)) as [Hb|Hb];
    destruct (rows_with k A) as [|ra la]; destruct (rows_with k B) as [|rb lb];
    simpl; intuition (try congruence; try lia).
Qed.

Lemma merged_keys_left : forall A B k,
  In k (map merged_Clave (with_indicator left_only (merge_outer A B)))
  <-> In k (keys A) /\ ~ In k (keys B).
Proof.
  intros A B k. rewrite merged_keys_iff, join_keys_In, length_nonzero.
  destruct (group_counts A B k) as (_ & -> & _).
  pose proof (rows_with_nil k A) as HA. pose proof (rows_with_nil k B) as HB.
  destruct (in_dec pystr_eq_dec k (keys A)) as [Ha|Ha];
    destruct (in_dec pystr_eq_dec k (keys B)) as [Hb|Hb];
    destruct (rows_with k A) as [|ra la]; destruct (rows_with k B) as [|rb lb];
    simpl; intuition (try congruence; try lia).
Qed.

Lemma merged_keys_right : forall A B k,
  In k (map merged_Clave (with_indicator right_only (merge_outer A B)))
  <-> ~ In k (keys A) /\ In k (keys B).
Proof.
  intros A B k. rewrite merged_keys_iff, join_keys_In, length_nonzero.
  destruct (group_counts A B k) as (_ & _ & ->).
  pose proof (rows_with_nil k A) as HA. pose proof (rows_with_nil k B) as HB.
  destruct (in_dec pystr_eq_dec k (keys A)) as [Ha|Ha];
    destruct (in_dec pystr_eq_dec k (keys B)) as [Hb|Hb];
    destruct (rows_with k A) as [|ra la]; destruct (rows_with k B) as [|rb lb];
    simpl; intuition (try congruence; try lia).
Qed.

(* ================================================================= *)
(** ** The key order is canonical *)

Lemma pystr_leb_total : forall s t, pystr_leb s t = true \/ pystr_leb t s = true.
Proof.
  induction s as [|c s IH]; destruct t as [|d t]; simpl; auto.
  destruct (N.ltb_spec c d), (N.ltb_spec d c); auto; lia.
Qed.

Lemma pystr_leb_antisym : forall s t,
  pystr_leb s t = true -> pystr_leb t s = true -> s = t.
Proof.
  induction s as [|c s IH]; destruct t as [|d t]; simpl; try discriminate; auto.
  destruct (N.ltb_spec c d), (N.ltb_spec d c); try discriminate; try lia.
  intros H1 H2. f_equal; [lia | now apply IH].
Qed.

Lemma pystr_leb_trans : forall s t u,
  pystr_leb s t = true -> pystr_leb t u = true -> pystr_leb s u = true.
Proof.
  induction s as [|c s IH]; destruct t as [|d t]; destruct u as [|e u];
    simpl; try discriminate; auto.
  destruct (N.ltb_spec c d), (N.ltb_spec d c), (N.ltb_spec d e),
    (N.ltb_spec e d), (N.ltb_spec c e), (N.ltb_spec e c);
    try discriminate; try lia; auto.
  apply IH.
Qed.

Fixpoint sorted_keys (l : list pystr) : Prop :=
  match l with
  | [] => True
  | k :: l' => (forall x, In x l' -> pystr_leb k x = true) /\ sorted_keys l'
  end.

Lemma insert_key_sorted : forall k l,
  sorted_keys l -> sorted_keys (insert_key k l).
Proof.
  induction l as [|k' l IH]; simpl; intro Hs.
  - split; [contradiction | exact I].
  - destruct Hs as [Hk' Hs]. destruct (pystr_leb k k') eqn:E; simpl.
    + split; [|split; assumption].
      intros x [<-|Hx]; [assumption|].
      eapply pystr_leb_trans; eauto.
    + split; [|now apply IH].
      intros x Hx. apply (Permutation_in _ (insert_key_perm k l)) in Hx.
      destruct Hx as [<-|Hx]; [|now apply Hk'].
      destruct (pystr_leb_total k k'); congruence.
Qed.

Lemma sort_keys_sorted : forall l, sorted_keys (sort_keys l).
Proof.
  induction l as [|k l IH]; simpl; [exact I | now apply insert_key_sorted].
Qed.

Lemma sorted_keys_unique : forall l l',
  sorted_keys l -> sorted_keys l' -> NoDup l -> NoDup l' ->
  (forall x, In x l <-> In x l') -> l = l'.
Proof.
  induction l as [|k l IH]; intros [|k' l'] Hs Hs' Hn Hn' Hin.
  - reflexivity.
  - exfalso. apply (Hin k'). now left.
  - exfalso. apply (Hin k). now left.
  - destruct Hs as [Hk Hs]. destruct Hs' as [Hk' Hs'].
    inversion Hn as [|? ? Hnk Hnl]; subst.
    inversion Hn' as [|? ? Hnk' Hnl']; subst.
    assert (k = k').
    { apply pystr_leb_antisym.
      - destruct (proj2 (Hin k') (or_introl eq_refl)) as [<-|H];
          [destruct (pystr_leb_total k k); assumption | now apply Hk].
      - destruct (proj1 (Hin k) (or_introl eq_refl)) as [<-|H];
          [destruct (pystr_leb_total k' k'); assumption | now apply Hk']. }
    subst k'. f_equal. apply IH; auto.
    intro x. split; intro Hx.
    + destruct (proj1 (Hin x) (or_intror Hx)) as [<-|H]; [contradiction|assumption].
    + destruct (proj2 (Hin x) (or_intror Hx)) as [<-|H]; [contradiction|assumption].
Qed.

(** Both orders of the arguments lay the groups out in the same order. *)
Lemma join_keys_sym : forall A B, join_keys A B = join_keys B A.
Proof.
  intros A B. apply sorted_keys_unique.
  - apply sort_keys_sorted.
  - apply sort_keys_sorted.
  - apply join_keys_NoDup.
  - apply join_keys_NoDup.
  - intro x. rewrite !join_keys_In. tauto.
Qed.

(* ================================================================= *)
(** ** [reconcile] returns, and what it returns *)

Lemma mapM_ok : forall (X Y : Type) (f : X -> result Y) (g : X -> Y) l,
  (forall x, In x l -> f x = Ok (g x)) -> mapM f l = Ok (map g l).
Proof.
  induction l as [|x l IH]; intro H; simpl; [reflexivity|].
  rewrite (H x (or_introl eq_refl)), IH; [reflexivity|].
  intros y Hy. apply H. now right.
Qed.

Theorem similarity_returns : forall lower s1 s2,
  exists v, calculate_text_similarity lower s1 s2 = Some v.
Proof.
  intros lower s1 s2. unfold calculate_text_similarity.
  destruct (is_empty s1 || is_empty s2); [eauto|].
  destruct (DifflibFacts.ratio_returns (lower s1) (lower s2)) as [r ->]. eauto.
Qed.

(** The value of the guarded quotient of line 163. *)
Definition pct_value (dif precio_a : float) : float :=
  if (precio_a =? 0)%float then fzero
  else (dif / precio_a * fhundred)%float.

Lemma diferencia_pct_value : forall dif precio_a,
  diferencia_pct dif precio_a = Ok (pct_value dif precio_a).
Proof.
  intros dif pa. unfold diferencia_pct, pct_value, py_truediv.
  destruct (pa =? 0)%float; reflexivity.
Qed.

Definition similarity_value (lower : pystr -> pystr) (s1 s2 : pystr) : float :=
  match calculate_text_similarity lower s1 s2 with
  | Some v => v
  | None => fzero
  end.

Definition match_value (lower : pystr -> pystr) (ra rb : CanonicalRecord)
  : MatchRecord :=
  let dif := round2 (Precio rb - Precio ra)%float in
  mkMatch (Clave ra) (Descripcion ra) (Descripcion rb) (Precio ra) (Precio rb)
          dif (pct_value dif (Precio ra))
          (similarity_value lower (Descripcion ra) (Descripcion rb)).

Lemma match_record_value : forall lower ra rb,
  match_record lower ra rb = Ok (match_value lower ra rb).
Proof.
  intros lower ra rb. unfold match_record, match_value, similarity_value.
  rewrite diferencia_pct_value. simpl.
  destruct (similarity_returns lower (Descripcion ra) (Descripcion rb)) as [v ->].
  reflexivity.
Qed.

Definition common_value (lower : pystr -> pystr) (r : MergedRow) : MatchRecord :=
  match r with
  | Both ra rb => match_value lower ra rb
  | LeftOnly ra => match_value lower ra ra
  | RightOnly rb => match_value lower rb rb
  end.

Definition reconcile_value (lower : pystr -> pystr) (A B : CanonicalTable)
  : ComparisonResult :=
  let merged := merge_outer A B in
  let common := map (common_value lower) (with_indicator both merged) in
  let only_a := map only_a_row (with_indicator left_only merged) in
  let only_b := map only_b_row (with_indicator right_only merged) in
  mkResult (length A) (length B) (length common) (length only_a)
           (length only_b) common only_a only_b.

(** The reconciliation never raises. *)
Theorem reconcile_returns : forall lower A B,
  reconcile lower A B = Ok (reconcile_value lower A B).
Proof.
  intros lower A B. unfold reconcile, reconcile_value.
  rewrite (mapM_ok _ _ (common_row lower) (common_value lower)); [reflexivity|].
  intros r Hr. unfold with_indicator in Hr. apply filter_In in Hr.
  destruct Hr as [_ Hr]. destruct r; try discriminate.
  apply match_record_value.
Qed.

Lemma common_value_key : forall lower r,
  match_Clave (common_value lower r) = merged_Clave r.
Proof. intros lower [ra|rb|ra rb]; reflexivity. Qed.

(* ================================================================= *)
(** ** Totals, key partition, swap symmetry *)

(** Two tables that share the key [X]; the second one holds it twice. *)
Definition dup_A : CanonicalTable :=
  [mkRecord (lit "X") (lit "Brake Pad") 100].
Definition dup_B : CanonicalTable :=
  [mkRecord (lit "X") (lit "Brake Pad Set") 110;
   mkRecord (lit "X") (lit "Brake Pad Kit") 120].

(** C1, as stated, fails on a repeated key: the outer merge pairs the one
    row of [dup_A] with each of the two rows of [dup_B], so there are two
    matches for a table of one row. *)
Lemma reconcile_totals_duplicate_key :
  exists r,
    reconcile ascii_lower dup_A dup_B = Ok r /\
    total_a r = 1 /\ length (common_df r) = 2 /\ length (only_a_df r) = 0 /\
    total_a r <> length (common_df r) + length (only_a_df r).
Proof.
  eexists. split; [vm_compute; reflexivity|].
  vm_compute. repeat split. discriminate.
Qed.

(** C1 (amended): for every pair of canonical tables in which no key
    occurs twice within a table, the reconciliation returns and its totals
    satisfy [total_a = |matches| + |only_a|] and
    [total_b = |matches| + |only_b|]. *)
Theorem reconcile_totals_unique_keys : forall lower A B,
  NoDup (keys A) -> NoDup (keys B) ->
  exists r,
    reconcile lower A B = Ok r /\
    total_a r = length A /\ total_b r = length B /\
    common_count r = length (common_df r) /\
    only_a_count r = length (only_a_df r) /\
    only_b_count r = length (only_b_df r) /\
    total_a r = length (common_df r) + length (only_a_df r) /\
    total_b r = length (common_df r) + length (only_b_df r).
Proof.
  intros lower A B HA HB. exists (reconcile_value lower A B).
  split; [apply reconcile_returns|].
  unfold reconcile_value. cbn [total_a total_b common_count only_a_count
    only_b_count common_df only_a_df only_b_df].
  rewrite !length_map.
  rewrite (merged_left_total A B HB), (merged_right_total A B HA).
  repeat split; reflexivity.
Qed.

Lemma reconcile_totals_unique_keys_witness :
  exists r,
    reconcile ascii_lower dup_A (tl dup_B) = Ok r /\
    total_a r = length dup_A /\ total_b r = length (tl dup_B) /\
    common_count r = length (common_df r) /\
    only_a_count r = length (only_a_df r) /\
    only_b_count r = length (only_b_df r) /\
    total_a r = length (common_df r) + length (only_a_df r) /\
    total_b r = length (common_df r) + length (only_b_df r).
Proof.
  apply (reconcile_totals_unique_keys ascii_lower dup_A (tl dup_B)).
  - repeat constructor. simpl. tauto.
  - repeat constructor. simpl. tauto.
Defined.

(** C2: for every pair of canonical tables the keys of the matches are
    the keys present in both tables, the keys of [only_a] those present
    only in the first and the keys of [only_b] those present only in the
    second (exact equality of strings); hence the three key sets are
    pairwise disjoint and their union is the union of the input keys. *)
Theorem reconcile_key_partition : forall lower A B,
  exists r,
    reconcile lower A B = Ok r /\
    let mk := map match_Clave (common_df r) in
    let ak := keys (only_a_df r) in
    let bk := keys (only_b_df r) in
    (forall k, In k mk <-> In k (keys A) /\ In k (keys B)) /\
    (forall k, In k ak <-> In k (keys A) /\ ~ In k (keys B)) /\
    (forall k, In k bk <-> ~ In k (keys A) /\ In k (keys B)) /\
    (forall k, In k mk \/ In k ak \/ In k bk <-> In k (keys A) \/ In k (keys B)) /\
    (forall k, ~ (In k mk /\ In k ak)) /\
    (forall k, ~ (In k mk /\ In k bk)) /\
    (forall k, ~ (In k ak /\ In k bk)).
Proof.
  intros lower A B. exists (reconcile_value lower A B).
  split; [apply reconcile_returns|].
  unfold reconcile_value. cbn [common_df only_a_df only_b_df]. cbv zeta.
  assert (Em : forall l, map match_Clave (map (common_value lower) l)
                         = map merged_Clave l).
  { intro l. rewrite map_map. apply map_ext. apply common_value_key. }
  assert (Ea : forall l, keys (map only_a_row l) = map merged_Clave l).
  { intro l. unfold keys. rewrite map_map. reflexivity. }
  assert (Eb : forall l, keys (map only_b_row l) = map merged_Clave l).
  { intro l. unfold keys. rewrite map_map. reflexivity. }
  rewrite Em, Ea, Eb.
  pose proof (merged_keys_both A B) as Hm.
  pose proof (merged_keys_left A B) as Ha.
  pose proof (merged_keys_right A B) as Hb.
  split; [exact Hm|]. split; [exact Ha|]. split; [exact Hb|].
  split; [|split; [|split]]; intro k; rewrite ?Hm, ?Ha, ?Hb; try tauto.
  destruct (in_dec pystr_eq_dec k (keys A));
    destruct (in_dec pystr_eq_dec k (keys B)); tauto.
Qed.

Lemma record_eta : forall r, mkRecord (Clave r) (Descripcion r) (Precio r) = r.
Proof. now destruct r. Qed.

Lemma only_b_right : forall l, map only_b_row (map RightOnly l) = l.
Proof.
  induction l as [|r l IH]; simpl; [reflexivity|].
  rewrite IH. unfold only_b_row. simpl. now rewrite record_eta.
Qed.

Lemma only_a_left : forall l, map only_a_row (map LeftOnly l) = l.
Proof.
  induction l as [|r l IH]; simpl; [reflexivity|].
  rewrite IH. unfold only_a_row. simpl. now rewrite record_eta.
Qed.

(** The right-only rows of a group are the left-only rows of the group
    with the tables swapped. *)
Lemma only_rows_swap_group : forall A B k,
  map only_b_row (with_indicator right_only (join_group A B k))
  = map only_a_row (with_indicator left_only (join_group B A k)).
Proof.
  intros A B k. unfold join_group.
  destruct (rows_with k A) as [|ra la]; destruct (rows_with k B) as [|rb lb].
  - reflexivity.
  - rewrite (with_indicator_all _ right_only)
      by (apply Forall_indicator_map; reflexivity).
    rewrite (with_indicator_all _ left_only)
      by (apply Forall_indicator_map; reflexivity).
    cbn [indicator_eqb]. now rewrite only_b_right, only_a_left.
  - rewrite (with_indicator_all _ left_only)
      by (apply Forall_indicator_map; reflexivity).
    rewrite (with_indicator_all _ right_only)
      by (apply Forall_indicator_map; reflexivity).
    reflexivity.
  - rewrite !(with_indicator_all _ both) by apply Forall_indicator_both.
    reflexivity.
Qed.

Lemma map_flat_map : forall (X Y Z : Type) (f : Y -> Z) (g : X -> list Y) l,
  map f (flat_map g l) = flat_map (fun x => map f (g x)) l.
Proof.
  induction l as [|x l IH]; simpl; [reflexivity|].
  now rewrite map_app, IH.
Qed.

Lemma only_rows_swap : forall A B,
  map only_b_row (with_indicator right_only (merge_outer A B))
  = map only_a_row (with_indicator left_only (merge_outer B A)).
Proof.
  intros A B. unfold merge_outer, with_indicator.
  rewrite !filter_flat_map, !map_flat_map, (join_keys_sym B A).
  apply flat_map_ext. intro k. apply only_rows_swap_group.
Qed.

(** C8: swapping the two tables swaps the two exclusive sequences:
    [only_a] of [reconcile(B, A)] is [only_b] of [reconcile(A, B)], record
    for record and in the same order, and [only_b] of [reconcile(B, A)] is
    [only_a] of [reconcile(A, B)]. *)
Theorem reconcile_swap : forall lower A B,
  exists r r',
    reconcile lower A B = Ok r /\
    reconcile lower B A = Ok r' /\
    only_a_df r' = only_b_df r /\
    only_b_df r' = only_a_df r.
Proof.
  intros lower A B.
  exists (reconcile_value lower A B), (reconcile_value lower B A).
  repeat split; try apply reconcile_returns.
  - unfold reconcile_value. cbn [only_a_df only_b_df].
    symmetry. apply only_rows_swap.
  - unfold reconcile_value. cbn [only_a_df only_b_df].
    apply only_rows_swap.
Qed.

(* ================================================================= *)
(** ** [clean_price] *)

Lemma float_of_cleaned_raises : forall s e,
  float_of_cleaned s = Raise e -> e = ValueError.
Proof.
  intros s e. unfold float_of_cleaned.
  destruct (match s with
            | [] => (false, s)
            | c :: r => if char_eqb c MINUS then (true, r) else (false, s)
            end) as [neg body].
  destruct (span_digits body) as [ip rest].
  destruct rest as [|c fp].
  - destruct ip; intro H; inversion H; reflexivity.
  - destruct (char_eqb c DOT && forallb is_digit fp
              && negb (Nat.eqb (length ip + length fp) 0));
      intro H; inversion H; reflexivity.
Qed.

(** What [clean_price] returns on a string: the parsed value of what the
    substitution leaves, or [0.0]. *)
Definition parsed_or_zero (s : pystr) : float :=
  match float_of_cleaned (re_sub_non_numeric s) with
  | Ok f => f
  | Raise _ => fzero
  end.

Lemma clean_price_str : forall float_repr s,
  clean_price float_repr (CStr s) = Ok (parsed_or_zero s).
Proof.
  intros float_repr s. unfold clean_price, parsed_or_zero.
  destruct s as [|c s]; [reflexivity|].
  cbn [pd_isna eq_empty_str orb is_int_or_float py_str].
  destruct (float_of_cleaned (re_sub_non_numeric (c :: s))) as [f|e] eqn:E.
  - reflexivity.
  - apply float_of_cleaned_raises in E. subst e. reflexivity.
Qed.

Lemma clean_price_float : forall float_repr x,
  clean_price float_repr (CFloat x) = Ok (if is_nan x then fzero else x).
Proof.
  intros float_repr x. unfold clean_price. cbn [pd_isna eq_empty_str].
  destruct (is_nan x); reflexivity.
Qed.

Lemma float_of_int_raises : forall z e,
  float_of_int z = Raise e -> e = OverflowError.
Proof.
  intros z e. unfold float_of_int.
  destruct (binary_normalize prec emax z 0 false); intro H; inversion H;
    reflexivity.
Qed.

(** A placeholder for [repr] on floats, for running the model on inputs
    that print no float. *)
Definition repr_unused : float -> pystr := fun _ => [].

(** C4 (defect): on an integer too large for a binary64, such as
    [2**1024], [float(val)] on line 25 raises [OverflowError], which is
    outside the [try] and so reaches the caller; the same number written
    as text takes the string path and comes back as [inf]. *)
Theorem clean_price_int_overflow :
  clean_price repr_unused (CInt (2 ^ 1024)) = Raise OverflowError /\
  clean_price repr_unused (CStr (str_of_int (2 ^ 1024))) = Ok infinity.
Proof. split; vm_compute; reflexivity. Qed.

(** On a single cell, [clean_price] returns a float except on an integer
    that [float()] cannot represent, where it raises [OverflowError]: a
    missing value (None or NaN) and the empty string give 0.0, a bool, an
    int or a float is passed through [float()], a string has every
    character other than a digit, a point or a minus sign removed and the
    rest parsed, with 0.0 when the parse fails. In particular
    ["$1,234.56"] gives 1234.56, ["abc"] gives 0.0, the number 1500 gives
    1500.0 and a missing value gives 0.0. *)
Lemma clean_price_on_cells : forall float_repr,
  (forall val,
     (exists f, clean_price float_repr val = Ok f) \/
     (exists z, val = CInt z /\ float_of_int z = Raise OverflowError /\
                clean_price float_repr val = Raise OverflowError)) /\
  clean_price float_repr CNone = Ok 0%float /\
  (forall b, clean_price float_repr (CBool b)
             = Ok (if b then 1%float else 0%float)) /\
  (forall z, clean_price float_repr (CInt z) = float_of_int z) /\
  (forall x, clean_price float_repr (CFloat x)
             = Ok (if is_nan x then 0%float else x)) /\
  (forall s, clean_price float_repr (CStr s) = Ok (parsed_or_zero s)) /\
  clean_price float_repr (CStr (lit "$1,234.56")) = Ok 1234.56%float /\
  clean_price float_repr (CStr (lit "abc")) = Ok 0%float /\
  clean_price float_repr (CInt 1500) = Ok 1500%float /\
  clean_price float_repr (CFloat nan) = Ok 0%float.
Proof.
  intro float_repr.
  assert (Hint : forall z, clean_price float_repr (CInt z) = float_of_int z)
    by reflexivity.
  split; [|repeat split; try reflexivity;
           auto using clean_price_str, clean_price_float].
  - intros [| b | z | x | s].
    + left. eexists. reflexivity.
    + left. eexists. reflexivity.
    + rewrite Hint. destruct (float_of_int z) as [f|e] eqn:E.
      * left. eauto.
      * right. exists z. apply float_of_int_raises in E as E'. subst e. auto.
    + left. rewrite clean_price_float. eauto.
    + left. rewrite clean_price_str. eauto.
Qed.

(* ================================================================= *)
(** ** The store: what a computation leaves untouched *)

Lemma length_update : forall st r d, length (update st r d) = length st.
Proof.
  induction st as [|x st IH]; intros [|r] d; simpl; auto.
Qed.

Lemma deref_update_same : forall st r d,
  r < length st -> deref (update st r d) r = d.
Proof.
  unfold deref. induction st as [|x st IH]; intros [|r] d H; simpl in *;
    try lia; auto.
  apply IH. lia.
Qed.



Lemma deref_app_new : forall st d, deref (st ++ [d]) (length st) = d.
Proof.
  intros st d. unfold deref. rewrite app_nth2 by lia.
  now rewrite Nat.sub_diag.
Qed.

Lemma update_app_new : forall st d d',
  update (st ++ [d]) (length st) d' = st ++ [d'].
Proof.
  induction st as [|x st IH]; intros d d'; simpl; [reflexivity|].
  now rewrite IH.
Qed.










(* ================================================================= *)
(** ** [normalize_columns], step by step *)

(** Lines 74-77: the defaults for a missing description or price. *)
Definition fill_defaults (d : DataFrame) : DataFrame :=
  let d' := if negb (in_columns DESCRIPCION d)
            then add_column DESCRIPCION (CStr []) d else d in
  if negb (in_columns PRECIO d')
  then add_column PRECIO (CFloat fzero) d' else d'.

Ltac store_simpl :=
  cbv beta iota; repeat (rewrite update_app_new || rewrite deref_app_new).

Lemma normalize_columns_eq : forall float_repr na_kept df st,
  df < length st ->
  normalize_columns float_repr na_kept df st =
  let d0 := set_labels (strip_label float_repr) (deref st df) in
  let st1 := update st df d0 in
  if negb (in_values CLAVE (build_col_map d0)) then (Ok (df, false), st1)
  else
    let d3 := fill_defaults (rename (build_col_map d0) d0) in
    match coerce_clave float_repr na_kept d3 with
    | Raise e => (Raise e, st1 ++ [d3])
    | Ok d4 =>
        match coerce_descripcion float_repr na_kept d4 with
        | Raise e => (Raise e, st1 ++ [d4])
        | Ok d5 =>
            match coerce_precio float_repr d5 with
            | Raise e => (Raise e, st1 ++ [d5])
            | Ok d6 =>
                (Ok (S (length st), true),
                 st1 ++ [d6; select [CLAVE; DESCRIPCION; PRECIO] d6])
            end
        end
    end.
Proof.
  intros float_repr na_kept df st Hdf. cbv zeta.
  cbv [normalize_columns bind modify load alloc ret modify_result].
  rewrite deref_update_same by assumption.
  remember (set_labels (strip_label float_repr) (deref st df)) as d0.
  remember (update st df d0) as st1.
  destruct (negb (in_values CLAVE (build_col_map d0))); [reflexivity|].
  unfold fill_defaults.
  assert (Hlen : forall d, length (st1 ++ [d]) = S (length st)).
  { intro d. subst st1. rewrite length_app, length_update. simpl. lia. }
  assert (Hlen2 : forall d d', st1 ++ [d; d'] = (st1 ++ [d]) ++ [d']).
  { intros d d'. now rewrite <- app_assoc. }
  store_simpl.
  destruct (negb (in_columns DESCRIPCION (rename (build_col_map d0) d0)));
    store_simpl;
    match goal with
    | |- context [negb (in_columns PRECIO ?d)] =>
        destruct (negb (in_columns PRECIO d))
    end;
    store_simpl;
    match goal with
    | |- context [coerce_clave float_repr na_kept ?d] =>
        destruct (coerce_clave float_repr na_kept d) as [d4|]; [|reflexivity]
    end;
    store_simpl;
    (destruct (coerce_descripcion float_repr na_kept d4) as [d5|]; [|reflexivity]);
    store_simpl;
    (destruct (coerce_precio float_repr d5) as [d6|]; [|reflexivity]);
    store_simpl; rewrite Hlen, Hlen2; reflexivity.
Qed.

(** A table without a key column, and one with padded headers. *)
Definition frame_no_key : DataFrame :=
  mkDF [(CStr (lit " Articulo "), [CStr (lit "a1")]);
        (CStr (lit "Precio"), [CInt 10])] 1.

Definition frame_codigo : DataFrame :=
  mkDF [(CStr (lit " codigo "), [CInt 12; CStr (lit " a1 "); CStr (lit "  ")]);
        (CStr (lit "Costo"), [CStr (lit "$1,234.56"); CNone; CInt 3]);
        (CStr (lit "Notas"), [CNone; CNone; CNone])] 3.

(** On [frame_no_key] the call fails and the caller's header [" Articulo "]
    has become ["Articulo"]. *)
Example normalize_no_key_run :
  normalize_columns repr_unused true 0 [frame_no_key]
  = (Ok (0, false),
     [mkDF [(CStr (lit "Articulo"), [CStr (lit "a1")]);
            (CStr (lit "Precio"), [CInt 10])] 1]).
Proof. vm_compute. reflexivity. Qed.

(* ================================================================= *)
(** ** Labels and columns through the steps *)

Lemma label_is_true : forall n l, label_is n l = true <-> l = CStr n.
Proof.
  intros n [| | | |s]; simpl; split; try discriminate; intro H.
  - apply pystr_eqb_eq in H. now subst.
  - inversion H. apply pystr_eqb_refl.
Qed.

Lemma label_is_other : forall n n' l,
  n <> n' -> label_is n l = true -> label_is n' l = false.
Proof.
  intros n n' l Hne H. apply label_is_true in H. subst l. simpl.
  now apply pystr_eqb_neq.
Qed.

Lemma in_columns_true : forall n d,
  in_columns n d = true <-> In (CStr n) (columns d).
Proof.
  intros n d. unfold in_columns. rewrite existsb_exists. split.
  - intros (l & Hl & H). apply label_is_true in H. now subst.
  - intro H. exists (CStr n). split; [assumption|]. now apply label_is_true.
Qed.

Lemma first_match_In : forall cands d c,
  first_match cands d = Some c -> In c cands /\ in_columns c d = true.
Proof.
  induction cands as [|x cands IH]; simpl; intros d c H; [discriminate|].
  destruct (in_columns x d) eqn:E.
  - inversion H; subst. auto.
  - destruct (IH d c H). auto.
Qed.

Lemma first_match_head : forall x cands d c,
  first_match (x :: cands) d = Some c -> in_columns x d = true -> c = x.
Proof.
  intros x cands d c H Hx. simpl in H. rewrite Hx in H. now inversion H.
Qed.

(** The labels the three lists accept do not overlap. *)
Lemma spellings_disjoint : forall c,
  (In c clave_cols -> ~ In c desc_cols /\ ~ In c price_cols) /\
  (In c desc_cols -> ~ In c price_cols).
Proof.
  intro c. split; intro H.
  - simpl in H. decompose [or] H; try contradiction; subst c;
      split; simpl; intro H'; decompose [or] H'; try discriminate; auto.
  - simpl in H. decompose [or] H; try contradiction; subst c;
      simpl; intro H'; decompose [or] H'; try discriminate; auto.
Qed.

(** A frame has a key column exactly when some header is a key spelling. *)
Lemma key_resolved_iff : forall d,
  in_values CLAVE (build_col_map d) = true
  <-> exists c, first_match clave_cols d = Some c.
Proof.
  intro d. unfold build_col_map, map_entry, in_values.
  destruct (first_match clave_cols d) as [c|];
    destruct (first_match desc_cols d) as [c'|];
    destruct (first_match price_cols d) as [c''|]; simpl;
    split; intro H; eauto; try discriminate;
    destruct H as [x H]; discriminate.
Qed.

Lemma filter_map_fst : forall (f : cell -> cell) (p : cell -> bool)
                              (l : list (cell * Series)),
  filter (fun c => p (fst c)) (map (fun c => (f (fst c), snd c)) l)
  = map (fun c => (f (fst c), snd c)) (filter (fun c => p (f (fst c))) l).
Proof.
  induction l as [|x l IH]; simpl; [reflexivity|].
  destruct (p (f (fst x))); simpl; now rewrite IH.
Qed.

Lemma cols_named_set_labels : forall f n d,
  cols_named n (set_labels f d)
  = map snd (filter (fun c => label_is n (f (fst c))) (df_cols d)).
Proof.
  intros f n d. unfold cols_named, set_labels. cbn [df_cols].
  rewrite filter_map_fst, map_map. reflexivity.
Qed.

(** Renaming sends to ['Clave'] exactly the columns whose header is the
    key spelling that was found. *)
Lemma cols_named_clave_rename : forall d c,
  first_match clave_cols d = Some c ->
  cols_named CLAVE (rename (build_col_map d) d) = cols_named c d.
Proof.
  intros d c Hc. unfold rename. rewrite cols_named_set_labels.
  unfold cols_named. f_equal. apply filter_ext_in. intros [l s] Hin.
  cbn [fst].
  destruct (first_match_In _ _ _ Hc) as [Hcin Hcd].
  destruct l as [| | | |x]; try reflexivity.
  unfold build_col_map, map_entry. rewrite Hc. cbn [rename_label app dict_get].
  destruct (pystr_eqb c x) eqn:E.
  - apply pystr_eqb_eq in E. subst x. simpl.
    now rewrite (pystr_eqb_refl c).
  - assert (Hx : label_is c (CStr x) = false).
    { simpl. apply pystr_eqb_neq. apply pystr_eqb_neq in E. congruence. }
    rewrite Hx.
    assert (Hclave : pystr_eqb x CLAVE = false).
    { apply pystr_eqb_neq. intro Hx'. subst x.
      assert (Hin' : in_columns CLAVE d = true).
      { apply in_columns_true. unfold columns. apply in_map_iff.
        exists (CStr CLAVE, s). auto. }
      apply (first_match_head _ _ _ _ Hc) in Hin'. subst c.
      rewrite pystr_eqb_refl in E. discriminate. }
    destruct (first_match desc_cols d) as [c'|];
      destruct (first_match price_cols d) as [c''|];
      cbn [app dict_get]; repeat match goal with
      | |- context [pystr_eqb ?a x] => destruct (pystr_eqb a x)
      end; cbn [label_is]; try assumption; reflexivity.
Qed.

Lemma cols_named_add_other : forall n n' v d,
  n <> n' -> cols_named n (add_column n' v d) = cols_named n d.
Proof.
  intros n n' v d Hne. unfold cols_named, add_column. cbn [df_cols].
  rewrite filter_app, map_app. cbn [filter fst label_is].
  assert (E : pystr_eqb n' n = false) by (apply pystr_eqb_neq; congruence).
  rewrite E. simpl. apply app_nil_r.
Qed.

Lemma cols_named_map_named : forall n n' f d,
  cols_named n (map_named n' f d)
  = if pystr_eqb n n' then map f (cols_named n d) else cols_named n d.
Proof.
  intros n n' f d. unfold cols_named, map_named. cbn [df_cols].
  induction (df_cols d) as [|[l s] cols IH]; simpl.
  - now destruct (pystr_eqb n n').
  - destruct (label_is n' l) eqn:E'; destruct (label_is n l) eqn:E; simpl;
      rewrite ?E; simpl; rewrite IH;
      destruct (pystr_eqb n n') eqn:En; simpl; try reflexivity;
      try (apply pystr_eqb_neq in En;
           rewrite (label_is_other _ _ _ En E) in E'; discriminate);
      try (apply pystr_eqb_eq in En; subst n'; congruence).
Qed.

Lemma filter_label_twice : forall n n' (l : list (cell * Series)),
  filter (fun c => label_is n (fst c)) (filter (fun c => label_is n' (fst c)) l)
  = if pystr_eqb n n' then filter (fun c => label_is n (fst c)) l else [].
Proof.
  intros n n' l. induction l as [|[x s] l IH]; simpl.
  - now destruct (pystr_eqb n n').
  - destruct (label_is n' x) eqn:E'; simpl; rewrite IH;
      destruct (pystr_eqb n n') eqn:En; destruct (label_is n x) eqn:E;
      try reflexivity;
      try (apply pystr_eqb_neq in En;
           rewrite (label_is_other _ _ _ En E) in E'; discriminate);
      try (apply pystr_eqb_eq in En; subst n'; congruence).
Qed.

Lemma cols_named_select : forall n d,
  In n [CLAVE; DESCRIPCION; PRECIO] ->
  cols_named n (select [CLAVE; DESCRIPCION; PRECIO] d) = cols_named n d.
Proof.
  intros n d Hn. unfold cols_named, select. cbn [df_cols flat_map].
  rewrite !filter_app, !filter_label_twice. cbn [filter].
  simpl in Hn. decompose [or] Hn; try contradiction; subst n;
    cbn; rewrite ?app_nil_r; reflexivity.
Qed.

Lemma mapM_length : forall (X Y : Type) (f : X -> result Y) l l',
  mapM f l = Ok l' -> length l' = length l.
Proof.
  induction l as [|x l IH]; simpl; intros l' H.
  - inversion H. reflexivity.
  - destruct (f x); [|discriminate].
    destruct (mapM f l) as [ys|]; [|discriminate].
    inversion H. simpl. f_equal. now apply IH.
Qed.

Lemma wf_set_labels : forall f d, wf_frame d -> wf_frame (set_labels f d).
Proof.
  intros f d H. unfold wf_frame, set_labels in *. cbn [df_cols df_len].
  apply Forall_map. eapply Forall_impl; [|exact H]. auto.
Qed.

Lemma wf_add_column : forall n v d, wf_frame d -> wf_frame (add_column n v d).
Proof.
  intros n v d H. unfold wf_frame, add_column in *. cbn [df_cols df_len].
  apply Forall_app. split; [assumption|].
  constructor; [|constructor]. apply repeat_length.
Qed.

Lemma wf_map_named : forall n f d,
  wf_frame d ->
  (forall s, In s (cols_named n d) -> length (f s) = length s) ->
  wf_frame (map_named n f d).
Proof.
  intros n f d H Hf. unfold wf_frame, map_named, cols_named in *.
  cbn [df_cols df_len]. apply Forall_map. apply Forall_forall.
  intros [l s] Hin. cbn [fst snd].
  assert (Hs : length s = df_len d)
    by (rewrite Forall_forall in H; apply (H (l, s) Hin)).
  destruct (label_is n l) eqn:E; cbn [snd]; [|assumption].
  rewrite Hf; [assumption|]. apply in_map_iff. exists (l, s). split; auto.
  apply filter_In. auto.
Qed.

Lemma wf_select : forall names d, wf_frame d -> wf_frame (select names d).
Proof.
  intros names d H. unfold wf_frame, select in *. cbn [df_cols df_len].
  apply Forall_forall. intros c Hc. apply in_flat_map in Hc.
  destruct Hc as (n & _ & Hc). apply filter_In in Hc. destruct Hc as [Hc _].
  rewrite Forall_forall in H. now apply H.
Qed.

Lemma wf_fill_defaults : forall d, wf_frame d -> wf_frame (fill_defaults d).
Proof.
  intros d H. unfold fill_defaults.
  destruct (negb (in_columns DESCRIPCION d));
    match goal with
    | |- context [negb (in_columns PRECIO ?x)] =>
        destruct (negb (in_columns PRECIO x))
    end; auto using wf_add_column.
Qed.

Lemma df_len_fill_defaults : forall d, df_len (fill_defaults d) = df_len d.
Proof.
  intro d. unfold fill_defaults.
  destruct (negb (in_columns DESCRIPCION d));
    match goal with
    | |- context [negb (in_columns PRECIO ?x)] =>
        destruct (negb (in_columns PRECIO x))
    end; reflexivity.
Qed.

Lemma cols_named_clave_fill : forall d,
  cols_named CLAVE (fill_defaults d) = cols_named CLAVE d.
Proof.
  intro d. unfold fill_defaults.
  destruct (negb (in_columns DESCRIPCION d));
    match goal with
    | |- context [negb (in_columns PRECIO ?x)] =>
        destruct (negb (in_columns PRECIO x))
    end; rewrite ?cols_named_add_other by discriminate; reflexivity.
Qed.

Section CoerceFacts.

Variable float_repr : float -> pystr.
Variable na_kept : bool.

Lemma coerce_clave_ok : forall d d',
  coerce_clave float_repr na_kept d = Ok d' ->
  exists s, cols_named CLAVE d = [s] /\ d' = map_named CLAVE (map (clave_cell float_repr na_kept)) d.
Proof.
  intros d d'. unfold coerce_clave.
  destruct (cols_named CLAVE d) as [|s [|s' l]]; intro H; try discriminate.
  inversion H. eauto.
Qed.

Lemma coerce_descripcion_ok : forall d d',
  coerce_descripcion float_repr na_kept d = Ok d' ->
  d' = map_named DESCRIPCION (map (descripcion_cell float_repr na_kept)) d.
Proof.
  intros d d'. unfold coerce_descripcion.
  destruct (cols_named DESCRIPCION d); intro H; inversion H. reflexivity.
Qed.

Lemma coerce_precio_ok : forall d d',
  coerce_precio float_repr d = Ok d' ->
  d' = d \/
  exists s fs,
    cols_named PRECIO d = [s] /\ mapM (clean_price float_repr) s = Ok fs /\
    d' = map_named PRECIO (fun _ => map (fun f => CFloat (round2 f)) fs) d.
Proof.
  intros d d'. unfold coerce_precio.
  destruct (cols_named PRECIO d) as [|s [|s' l]]; intro H; try discriminate.
  - destruct (mapM (clean_price float_repr) s) as [fs|] eqn:E;
      [|discriminate].
    inversion H. right. eauto.
  - destruct (Nat.eqb (df_len d) 0); inversion H. now left.
Qed.

(** The three coercions keep the rows and touch no column labelled
    ['Clave'] but the key's own. *)
Lemma coerce_descripcion_keeps : forall d d',
  coerce_descripcion float_repr na_kept d = Ok d' ->
  df_len d' = df_len d /\ (wf_frame d -> wf_frame d') /\
  cols_named CLAVE d' = cols_named CLAVE d.
Proof.
  intros d d' H. apply coerce_descripcion_ok in H. subst d'.
  repeat split.
  - intro Hwf. apply wf_map_named; [assumption|].
    intros s _. apply length_map.
  - now rewrite cols_named_map_named.
Qed.

Lemma coerce_precio_keeps : forall d d',
  coerce_precio float_repr d = Ok d' ->
  df_len d' = df_len d /\ (wf_frame d -> wf_frame d') /\
  cols_named CLAVE d' = cols_named CLAVE d.
Proof.
  intros d d' H. apply coerce_precio_ok in H.
  destruct H as [->|(s & fs & Hs & Hfs & ->)]; [auto|].
  repeat split.
  - intro Hwf. apply wf_map_named; [assumption|].
    intros s' Hs'. rewrite Hs in Hs'. destruct Hs' as [<-|[]].
    rewrite length_map. eapply mapM_length; eauto.
  - now rewrite cols_named_map_named.
Qed.

Lemma coerce_clave_keeps : forall d d',
  coerce_clave float_repr na_kept d = Ok d' ->
  df_len d' = df_len d /\ (wf_frame d -> wf_frame d') /\
  exists s, cols_named CLAVE d = [s] /\ cols_named CLAVE d' = [map (clave_cell float_repr na_kept) s].
Proof.
  intros d d' H. apply coerce_clave_ok in H. destruct H as (s & Hs & ->).
  repeat split.
  - intro Hwf. apply wf_map_named; [assumption|].
    intros s' _. apply length_map.
  - exists s. split; [assumption|].
    rewrite cols_named_map_named, Hs. reflexivity.
Qed.

End CoerceFacts.

Lemma deref_app_second : forall (st : store) d d',
  deref (st ++ [d; d']) (S (length st)) = d'.
Proof.
  intros st d d'. unfold deref. rewrite app_nth2 by lia.
  replace (S (length st) - length st) with 1 by lia. reflexivity.
Qed.

(** A successful call: the steps that ran and the frame it returned. *)
Lemma normalize_columns_success : forall float_repr na_kept df st out st',
  df < length st ->
  normalize_columns float_repr na_kept df st = (Ok (out, true), st') ->
  let d0 := set_labels (strip_label float_repr) (deref st df) in
  exists c d4 d5 d6,
    first_match clave_cols d0 = Some c /\
    coerce_clave float_repr na_kept (fill_defaults (rename (build_col_map d0) d0)) = Ok d4 /\
    coerce_descripcion float_repr na_kept d4 = Ok d5 /\
    coerce_precio float_repr d5 = Ok d6 /\
    deref st' out = select [CLAVE; DESCRIPCION; PRECIO] d6.
Proof.
  intros float_repr na_kept df st out st' Hdf H d0.
  rewrite normalize_columns_eq in H by assumption. cbv zeta in H. fold d0 in H.
  destruct (negb (in_values CLAVE (build_col_map d0))) eqn:Hk;
    [inversion H|].
  apply negb_false_iff, key_resolved_iff in Hk. destruct Hk as [c Hc].
  destruct (coerce_clave float_repr na_kept _) as [d4|] eqn:E4; [|discriminate].
  destruct (coerce_descripcion float_repr na_kept d4) as [d5|] eqn:E5; [|discriminate].
  destruct (coerce_precio float_repr d5) as [d6|] eqn:E6; [|discriminate].
  inversion H; subst out st'. exists c, d4, d5, d6.
  repeat split; auto.
  replace (length st) with (length (update st df d0))
    by apply length_update.
  apply deref_app_second.
Qed.

(** A run on [frame_codigo]: the lowercase header [codigo] is taken as
    the key, the missing description is filled with empty strings, and the
    third row keeps its empty key. *)
Example normalize_codigo_run :
  let '(res, st') := normalize_columns repr_unused true 0 [frame_codigo] in
  res = Ok (2, true) /\
  deref st' 2
  = mkDF [(CStr CLAVE, [CStr (lit "12"); CStr (lit "a1"); CStr []]);
          (CStr DESCRIPCION, [CStr []; CStr []; CStr []]);
          (CStr PRECIO, [CFloat 1234.56; CFloat 0; CFloat 3])] 3.
Proof. vm_compute. split; reflexivity. Qed.

(** [normalize_columns] returns [ok = false] exactly when no stripped
    header is one of the key spellings. *)
Lemma normalize_fails_iff : forall float_repr na_kept df st,
  df < length st ->
  let d0 := set_labels (strip_label float_repr) (deref st df) in
  (exists out, fst (normalize_columns float_repr na_kept df st) = Ok (out, false))
  <-> (forall c, In c clave_cols -> ~ In (CStr c) (columns d0)).
Proof.
  intros float_repr na_kept df st Hdf d0.
  rewrite normalize_columns_eq by assumption. cbv zeta. fold d0.
  destruct (negb (in_values CLAVE (build_col_map d0))) eqn:Hk.
  - apply negb_true_iff in Hk. split; [|simpl; eauto].
    intros _ c Hc Hin.
    assert (Hex : exists c', first_match clave_cols d0 = Some c').
    { clear Hk. apply in_columns_true in Hin.
      induction clave_cols as [|x l IH]; [contradiction|]. simpl.
      destruct (in_columns x d0) eqn:E; [eauto|].
      destruct Hc as [->|Hc]; [congruence|]. now apply IH. }
    apply key_resolved_iff in Hex. congruence.
  - apply negb_false_iff, key_resolved_iff in Hk. destruct Hk as [c Hc].
    apply first_match_In in Hc. destruct Hc as [Hc1 Hc2].
    apply in_columns_true in Hc2. split.
    + intros [out H]. exfalso.
      destruct (coerce_clave float_repr na_kept _) as [d4|]; [|discriminate].
      destruct (coerce_descripcion float_repr na_kept d4) as [d5|]; [|discriminate].
      destruct (coerce_precio float_repr d5) as [d6|]; discriminate.
    + intro H. exfalso. now apply (H c).
Qed.

(** A raw table that spells the description header both with and without
    the accent. *)
Definition frame_two_descriptions : DataFrame :=
  mkDF [(CStr CLAVE, [CStr (lit "X1")]);
        (CStr DESCRIPCION_ACENTO, [CStr (lit "Brake Pad")]);
        (CStr DESCRIPCION, [CStr (lit "Balata")]);
        (CStr PRECIO, [CInt 100])] 1.

(** C7 (defect): on [frame_two_descriptions] both description headers end
    up labelled ['Descripcion'], so the frame returned with [ok = true]
    has four columns instead of the three canonical fields. *)
Theorem normalize_two_descriptions_four_columns : forall float_repr na_kept,
  let '(res, st') := normalize_columns float_repr na_kept 0 [frame_two_descriptions] in
  res = Ok (2, true) /\
  deref st' 2
  = mkDF [(CStr CLAVE, [CStr (lit "X1")]);
          (CStr DESCRIPCION, [CStr (lit "Brake Pad")]);
          (CStr DESCRIPCION, [CStr (lit "Balata")]);
          (CStr PRECIO, [CFloat 100])] 1 /\
  columns (deref st' 2)
  = [CStr CLAVE; CStr DESCRIPCION; CStr DESCRIPCION; CStr PRECIO].
Proof. intros float_repr [|]; vm_compute; repeat split. Qed.

(* ================================================================= *)
(** ** [calculate_text_similarity]: the order of the arguments *)

(** C6, as stated, fails: the matcher looks for the longest block that
    starts earliest in its first argument, so ["tide"] against ["diet"]
    matches one character (ratio 0.25) and ["diet"] against ["tide"] two
    (ratio 0.5). *)
Lemma similarity_tide_diet :
  calculate_text_similarity ascii_lower (lit "tide") (lit "diet") = Some 25%float /\
  calculate_text_similarity ascii_lower (lit "diet") (lit "tide") = Some 50%float.
Proof. split; vm_compute; reflexivity. Qed.

Lemma similarity_empty_l : forall lower x,
  calculate_text_similarity lower [] x = Some 0%float.
Proof. reflexivity. Qed.

Lemma similarity_empty_r : forall lower x,
  calculate_text_similarity lower x [] = Some 0%float.
Proof.
  intros lower x. unfold calculate_text_similarity.
  now rewrite orb_true_r.
Qed.

(** C6 (amended): [similarity(a, b) = similarity(b, a)] whenever one of
    the two strings is empty or both have the same lower-cased form; for
    other pairs the two values can differ. *)
Theorem similarity_symmetric_cases : forall lower a b,
  a = [] \/ b = [] \/ lower a = lower b ->
  calculate_text_similarity lower a b = calculate_text_similarity lower b a.
Proof.
  intros lower a b [->|[->|H]].
  - now rewrite similarity_empty_l, similarity_empty_r.
  - now rewrite similarity_empty_l, similarity_empty_r.
  - unfold calculate_text_similarity.
    rewrite (orb_comm (is_empty b)), H. reflexivity.
Qed.

Lemma similarity_symmetric_cases_witness :
  calculate_text_similarity ascii_lower (lit "Oil Filter") (lit "OIL FILTER")
  = calculate_text_similarity ascii_lower (lit "OIL FILTER") (lit "Oil Filter").
Proof.
  apply (similarity_symmetric_cases ascii_lower (lit "Oil Filter")
           (lit "OIL FILTER")).
  right. right. vm_compute. reflexivity.
Defined.

(* ================================================================= *)
(** ** [calculate_text_similarity]: extremes and range *)

Lemma similarity_same : forall lower s,
  s <> [] ->
  (Z.of_nat (length (lower s) + length (lower s)) < 2 ^ 53)%Z ->
  calculate_text_similarity lower s s = Some 100%float.
Proof.
  intros lower s Hs Hlen. unfold calculate_text_similarity.
  destruct s as [|c s]; [congruence|]. cbn [is_empty orb].
  unfold Difflib.ratio.
  destruct (DifflibFacts.matched_same (lower (c :: s))) as (bls & -> & ->).
  rewrite FloatFacts.calculate_ratio_same by assumption. reflexivity.
Qed.

Lemma similarity_in_range : forall lower a b,
  (Z.of_nat (length (lower a) + length (lower b)) < 2 ^ 53)%Z ->
  exists v,
    calculate_text_similarity lower a b = Some v /\
    (0 <=? v)%float = true /\ (v <=? 100)%float = true.
Proof.
  intros lower a b Hlen. unfold calculate_text_similarity.
  destruct (is_empty a || is_empty b).
  - exists fzero. repeat split.
  - unfold Difflib.ratio.
    destruct (DifflibFacts.get_matching_blocks_returns (lower a) (lower b))
      as [bls Hb].
    rewrite Hb. destruct (DifflibFacts.matched_le _ _ _ Hb) as [Ha Hb'].
    eexists. split; [reflexivity|].
    apply FloatFacts.calculate_ratio_bounds; [lia | assumption].
Qed.

(** C5: for strings whose lower-cased forms are shorter than [2^52]
    characters (lengths a binary64 holds exactly; no Python string comes
    near), [similarity(s, s)] is exactly 100.0 for every non-empty [s],
    [similarity("", x)] and [similarity(x, "")] are exactly 0.0, and the
    similarity of any two strings is a float between 0 and 100. *)
Theorem similarity_extremes_and_range : forall lower s x a b,
  s <> [] ->
  (Z.of_nat (length (lower s) + length (lower s)) < 2 ^ 53)%Z ->
  (Z.of_nat (length (lower a) + length (lower b)) < 2 ^ 53)%Z ->
  calculate_text_similarity lower s s = Some 100%float /\
  calculate_text_similarity lower [] x = Some 0%float /\
  calculate_text_similarity lower x [] = Some 0%float /\
  exists v,
    calculate_text_similarity lower a b = Some v /\
    (0 <=? v)%float = true /\ (v <=? 100)%float = true.
Proof.
  intros lower s x a b Hs Hss Hab.
  split; [now apply similarity_same|].
  split; [apply similarity_empty_l|].
  split; [apply similarity_empty_r|].
  now apply similarity_in_range.
Qed.

Lemma similarity_extremes_and_range_witness :
  calculate_text_similarity ascii_lower (lit "Oil") (lit "Oil") = Some 100%float /\
  calculate_text_similarity ascii_lower [] (lit "Filter") = Some 0%float /\
  calculate_text_similarity ascii_lower (lit "Filter") [] = Some 0%float /\
  exists v,
    calculate_text_similarity ascii_lower (lit "Brake Pad") (lit "Brake Pad Set")
    = Some v /\
    (0 <=? v)%float = true /\ (v <=? 100)%float = true.
Proof.
  apply (similarity_extremes_and_range ascii_lower (lit "Oil") (lit "Filter")
           (lit "Brake Pad") (lit "Brake Pad Set")).
  - discriminate.
  - vm_compute. reflexivity.
  - vm_compute. reflexivity.
Defined.

(* ================================================================= *)
(** * Further properties of the analysis block *)

(** ** Order of the output *)

Lemma pystr_leb_refl : forall s, pystr_leb s s = true.
Proof. intro s. destruct (pystr_leb_total s s); assumption. Qed.

Lemma sorted_keys_app_const : forall k l1 l2,
  (forall x, In x l1 -> x = k) ->
  (forall x, In x l2 -> pystr_leb k x = true) ->
  sorted_keys l2 -> sorted_keys (l1 ++ l2).
Proof.
  induction l1 as [|y l1 IH]; intros l2 H1 H2 Hs; simpl; [assumption|].
  split.
  - intros x Hx. rewrite (H1 y (or_introl eq_refl)).
    apply in_app_or in Hx. destruct Hx as [Hx|Hx].
    + rewrite (H1 x (or_intror Hx)). apply pystr_leb_refl.
    + now apply H2.
  - apply IH; auto. intros x Hx. apply H1. now right.
Qed.

Lemma sorted_groups : forall (X : Type) (key : X -> pystr)
                             (g : pystr -> list X) ks,
  sorted_keys ks ->
  (forall k x, In x (g k) -> key x = k) ->
  sorted_keys (map key (flat_map g ks)).
Proof.
  induction ks as [|k ks IH]; intros Hs Hg; simpl; [exact I|].
  destruct Hs as [Hk Hs]. rewrite map_app.
  apply sorted_keys_app_const with (k := k).
  - intros x Hx. apply in_map_iff in Hx. destruct Hx as (y & <- & Hy).
    now apply Hg.
  - intros x Hx. apply in_map_iff in Hx. destruct Hx as (y & <- & Hy).
    apply in_flat_map in Hy. destruct Hy as (k' & Hk' & Hy).
    rewrite (Hg k' y Hy). now apply Hk.
  - now apply IH.
Qed.

Lemma merged_sorted : forall x A B,
  sorted_keys (map merged_Clave (with_indicator x (merge_outer A B))).
Proof.
  intros x A B. unfold with_indicator, merge_outer. rewrite filter_flat_map.
  apply sorted_groups.
  - apply sort_keys_sorted.
  - intros k row Hrow. apply filter_In in Hrow. destruct Hrow as [Hrow _].
    now apply group_key in Hrow.
Qed.

(** X1: the three output sequences are in ascending key order (the order
    of Python's string comparison), whatever the order of the rows in the
    two tables: the outer merge sorts its keys. *)
Theorem reconcile_output_sorted : forall lower A B,
  exists r,
    reconcile lower A B = Ok r /\
    sorted_keys (map match_Clave (common_df r)) /\
    sorted_keys (keys (only_a_df r)) /\
    sorted_keys (keys (only_b_df r)).
Proof.
  intros lower A B. exists (reconcile_value lower A B).
  split; [apply reconcile_returns|].
  unfold reconcile_value, keys. cbn [common_df only_a_df only_b_df].
  rewrite !map_map. split; [|split].
  - erewrite map_ext; [apply (merged_sorted both)|].
    intro row. apply common_value_key.
  - exact (merged_sorted left_only A B).
  - exact (merged_sorted right_only A B).
Qed.

(** ** The matches are all the pairs of rows with equal keys *)

Lemma join_group_both : forall A B k ra rb,
  In (Both ra rb) (join_group A B k)
  <-> In ra (rows_with k A) /\ In rb (rows_with k B).
Proof.
  intros A B k ra rb. unfold join_group.
  destruct (rows_with k A) as [|a la]; destruct (rows_with k B) as [|b lb].
  - simpl. tauto.
  - split; [|intros [[] _]]. intro H. apply in_map_iff in H.
    destruct H as (? & H & _). discriminate.
  - split; [|intros [_ []]]. intro H. apply in_map_iff in H.
    destruct H as (? & H & _). discriminate.
  - rewrite in_flat_map. split.
    + intros (x & Hx & H). apply in_map_iff in H.
      destruct H as (y & Hy & H). inversion Hy; subst. auto.
    + intros [H1 H2]. exists ra. split; [exact H1|]. now apply in_map.
Qed.

(** X2: a record is among the matches exactly when it is built from a
    row of A and a row of B with equal keys; every such pair is there,
    also when a key is repeated. *)
Theorem reconcile_matches_all_pairs : forall lower A B,
  exists r,
    reconcile lower A B = Ok r /\
    forall m,
      In m (common_df r) <->
      exists ra rb,
        In ra A /\ In rb B /\ Clave ra = Clave rb /\
        match_record lower ra rb = Ok m.
Proof.
  intros lower A B. exists (reconcile_value lower A B).
  split; [apply reconcile_returns|].
  intro m. unfold reconcile_value. cbn [common_df]. rewrite in_map_iff. split.
  - intros (row & <- & Hrow). unfold with_indicator in Hrow.
    apply filter_In in Hrow. destruct Hrow as [Hrow Hind].
    destruct row as [ra|rb|ra rb]; try discriminate.
    unfold merge_outer in Hrow. apply in_flat_map in Hrow.
    destruct Hrow as (k & Hk & Hrow). apply join_group_both in Hrow.
    destruct Hrow as [Ha Hb]. apply rows_with_In in Ha, Hb.
    destruct Ha as [Ha Ka], Hb as [Hb Kb].
    exists ra, rb. split; [exact Ha|]. split; [exact Hb|].
    split; [congruence|]. apply match_record_value.
  - intros (ra & rb & Ha & Hb & Hk & Hm). rewrite match_record_value in Hm.
    inversion Hm; subst m. exists (Both ra rb). split; [reflexivity|].
    apply filter_In. split; [|reflexivity].
    apply in_flat_map. exists (Clave ra). split.
    + apply join_keys_In. left. now apply in_map.
    + apply join_group_both. split; apply rows_with_In; auto.
Qed.

(** ** How many matches *)

Lemma weighted_key_once : forall (f : pystr -> nat) k ks,
  NoDup ks -> In k ks ->
  list_sum (map (fun k' => (if pystr_eqb k k' then 1 else 0) * f k') ks) = f k.
Proof.
  intros f k ks Hnd. induction Hnd as [|x l Hx Hnd IH]; intro Hin; [destruct Hin|].
  simpl. destruct Hin as [->|Hin].
  - rewrite pystr_eqb_refl.
    assert (Hz : list_sum (map (fun k' => (if pystr_eqb k k' then 1 else 0) * f k') l) = 0).
    { clear IH Hnd. induction l as [|y l IHl]; [reflexivity|].
      simpl.
      assert (Hy : pystr_eqb k y = false).
      { apply pystr_eqb_neq. intros ->. apply Hx. now left. }
      rewrite Hy, IHl; [reflexivity|]. intro H. apply Hx. now right. }
    rewrite Hz. lia.
  - assert (Hk : pystr_eqb k x = false).
    { apply pystr_eqb_neq. intros ->. contradiction. }
    rewrite Hk, (IH Hin). lia.
Qed.

Lemma rows_with_weighted : forall (f : pystr -> nat) t ks,
  NoDup ks -> (forall k, In k (keys t) -> In k ks) ->
  list_sum (map (fun k => length (rows_with k t) * f k) ks)
  = list_sum (map (fun r => f (Clave r)) t).
Proof.
  induction t as [|r t IH]; intros ks Hnd Hcov.
  - simpl. clear. induction ks as [|k ks IHk]; [reflexivity|].
    simpl. now rewrite IHk.
  - simpl.
    transitivity
      (list_sum (map (fun k => (if pystr_eqb (Clave r) k then 1 else 0) * f k
                               + length (rows_with k t) * f k) ks)).
    + f_equal. apply map_ext. intro k. unfold rows_with. simpl.
      destruct (pystr_eqb (Clave r) k); simpl; lia.
    + rewrite <- list_sum_map_add.
      rewrite (weighted_key_once f (Clave r) ks Hnd) by (apply Hcov; now left).
      rewrite (IH ks Hnd) by (intros k Hk; apply Hcov; now right).
      reflexivity.
Qed.

(** X3: the number of matches is, summed over the rows of A, the number
    of rows of B that carry the same key: a key held by [m] rows of A and
    [n] rows of B gives [m * n] matches. *)
Theorem reconcile_match_count : forall lower A B,
  exists r,
    reconcile lower A B = Ok r /\
    common_count r = length (common_df r) /\
    common_count r
    = list_sum (map (fun ra => length (rows_with (Clave ra) B)) A).
Proof.
  intros lower A B. exists (reconcile_value lower A B).
  split; [apply reconcile_returns|]. split; [reflexivity|].
  unfold reconcile_value. cbn [common_count]. rewrite length_map, merged_count.
  rewrite <- (rows_with_weighted (fun k => length (rows_with k B)) A
                                 (join_keys A B)).
  - f_equal. apply map_ext. intro k.
    pose proof (group_counts A B k) as H. cbv zeta in H.
    destruct H as (H & _ & _). rewrite H.
    destruct (rows_with k A), (rows_with k B); simpl; lia.
  - apply join_keys_NoDup.
  - intros k Hk. apply join_keys_In. now left.
Qed.

(** ** The rows of the two exclusive partitions *)

(** [k] is the key of some row of [t]. *)
Definition has_key (t : CanonicalTable) (k : pystr) : bool :=
  existsb (fun r => pystr_eqb (Clave r) k) t.

Lemma has_key_In : forall t k, has_key t k = true <-> In k (keys t).
Proof.
  intros t k. unfold has_key, keys. rewrite existsb_exists, in_map_iff.
  split; intros (r & H1 & H2).
  - exists r. split; [now apply pystr_eqb_eq|exact H1].
  - exists r. split; [exact H2|now apply pystr_eqb_eq].
Qed.

Lemma has_key_rows : forall t k, has_key t k = false <-> rows_with k t = [].
Proof.
  intros t k. rewrite rows_with_nil, <- has_key_In.
  destruct (has_key t k); split; congruence.
Qed.

Lemma group_only_a : forall A B k,
  map only_a_row (with_indicator left_only (join_group A B k))
  = if has_key B k then [] else rows_with k A.
Proof.
  intros A B k. unfold join_group.
  destruct (rows_with k B) as [|rb lb] eqn:Eb.
  - apply has_key_rows in Eb. rewrite Eb.
    destruct (rows_with k A) as [|ra la]; [reflexivity|].
    rewrite (with_indicator_all _ left_only)
      by (apply Forall_indicator_map; reflexivity).
    cbn [indicator_eqb]. apply only_a_left.
  - assert (Hb : has_key B k = true).
    { destruct (has_key B k) eqn:E; [reflexivity|].
      apply has_key_rows in E. congruence. }
    rewrite Hb. destruct (rows_with k A) as [|ra la].
    + rewrite (with_indicator_all _ right_only)
        by (apply Forall_indicator_map; reflexivity).
      reflexivity.
    + rewrite (with_indicator_all _ both) by apply Forall_indicator_both.
      reflexivity.
Qed.

Lemma rows_with_absent : forall A B k,
  rows_with k (filter (fun r => negb (has_key B (Clave r))) A)
  = if has_key B k then [] else rows_with k A.
Proof.
  intros A B k. unfold rows_with.
  induction A as [|r A IH]; simpl; [now destruct (has_key B k)|].
  destruct (pystr_eqb (Clave r) k) eqn:E.
  - apply pystr_eqb_eq in E. rewrite E.
    destruct (has_key B k) eqn:Hk; simpl.
    + rewrite IH. reflexivity.
    + rewrite <- E at 1. rewrite pystr_eqb_refl, IH. reflexivity.
  - destruct (has_key B (Clave r)); simpl; [exact IH|].
    rewrite E. exact IH.
Qed.

Lemma filter_split_perm : forall (X : Type) (p : X -> bool) l,
  Permutation (filter p l ++ filter (fun x => negb (p x)) l) l.
Proof.
  induction l as [|x l IH]; simpl; [constructor|].
  destruct (p x); simpl.
  - now constructor.
  - apply Permutation_sym, Permutation_cons_app, Permutation_sym, IH.
Qed.

Lemma rows_with_other : forall k k' t,
  k' <> k ->
  rows_with k' (filter (fun r => negb (pystr_eqb (Clave r) k)) t)
  = rows_with k' t.
Proof.
  intros k k' t Hne. unfold rows_with.
  induction t as [|r t IH]; simpl; [reflexivity|].
  destruct (pystr_eqb (Clave r) k) eqn:E; simpl.
  - apply pystr_eqb_eq in E.
    assert (E' : pystr_eqb (Clave r) k' = false)
      by (apply pystr_eqb_neq; congruence).
    rewrite E'. exact IH.
  - destruct (pystr_eqb (Clave r) k'); [f_equal|]; exact IH.
Qed.

(** Grouping a table by a duplicate-free list of keys that covers it
    rearranges its rows and loses none. *)
Lemma bucket_perm : forall ks t,
  NoDup ks -> (forall r, In r t -> In (Clave r) ks) ->
  Permutation (flat_map (fun k => rows_with k t) ks) t.
Proof.
  induction ks as [|k ks IH]; intros t Hnd Hcov.
  - destruct t as [|r t]; [constructor|]. destruct (Hcov r (or_introl eq_refl)).
  - inversion Hnd as [|? ? Hk Hnd']; subst. cbn [flat_map].
    set (t' := filter (fun r => negb (pystr_eqb (Clave r) k)) t).
    apply Permutation_trans with (rows_with k t ++ t');
      [|apply filter_split_perm].
    apply Permutation_app_head.
    replace (flat_map (fun k0 => rows_with k0 t) ks)
      with (flat_map (fun k0 => rows_with k0 t') ks).
    + apply IH; [exact Hnd'|]. intros r Hr. apply filter_In in Hr.
      destruct Hr as [Hr Hne]. destruct (Hcov r Hr) as [Heq|Hin]; [|exact Hin].
      subst k. rewrite pystr_eqb_refl in Hne. discriminate.
    + clear IH Hnd Hnd' Hcov. induction ks as [|k' ks IHk]; [reflexivity|].
      cbn [flat_map]. rewrite IHk by (intro H; apply Hk; now right).
      f_equal. apply rows_with_other. intros ->. apply Hk. now left.
Qed.

Lemma only_a_rows : forall A B,
  Permutation (map only_a_row (with_indicator left_only (merge_outer A B)))
              (filter (fun ra => negb (has_key B (Clave ra))) A).
Proof.
  intros A B. unfold with_indicator, merge_outer.
  rewrite filter_flat_map, map_flat_map.
  rewrite (flat_map_ext _
             (fun k => rows_with k (filter (fun r => negb (has_key B (Clave r))) A))).
  - apply bucket_perm; [apply join_keys_NoDup|].
    intros r Hr. apply filter_In in Hr. destruct Hr as [Hr _].
    apply join_keys_In. left. now apply in_map.
  - intro k. rewrite rows_with_absent. apply group_only_a.
Qed.

(** X4: [only_a] holds exactly the rows of A whose key is the key of no row
    of B, each as often as A holds it (repeated keys are kept), and
    [only_b] the rows of B whose key is the key of no row of A. *)
Theorem reconcile_exclusive_rows : forall lower A B,
  exists r,
    reconcile lower A B = Ok r /\
    Permutation (only_a_df r)
                (filter (fun ra => negb (has_key B (Clave ra))) A) /\
    Permutation (only_b_df r)
                (filter (fun rb => negb (has_key A (Clave rb))) B).
Proof.
  intros lower A B. exists (reconcile_value lower A B).
  split; [apply reconcile_returns|].
  unfold reconcile_value. cbn [only_a_df only_b_df]. split.
  - apply only_a_rows.
  - rewrite only_rows_swap. apply only_a_rows.
Qed.

Lemma no_keys_nil : forall (X : Type) (key : X -> pystr) l,
  (forall k, ~ In k (map key l)) -> l = [].
Proof.
  intros X key [|x l] H; [reflexivity|]. destruct (H (key x)). now left.
Qed.

(** X5: compared with a table that has no row, a table B has no match and
    all its rows on its own side, in either argument position. *)
Theorem reconcile_empty_table : forall lower B,
  exists r r',
    reconcile lower [] B = Ok r /\
    reconcile lower B [] = Ok r' /\
    common_df r = [] /\ only_a_df r = [] /\ Permutation (only_b_df r) B /\
    common_df r' = [] /\ only_b_df r' = [] /\ Permutation (only_a_df r') B.
Proof.
  intros lower B.
  exists (reconcile_value lower [] B), (reconcile_value lower B []).
  split; [apply reconcile_returns|]. split; [apply reconcile_returns|].
  assert (Hall : filter (fun rb : CanonicalRecord => negb (has_key [] (Clave rb))) B = B).
  { induction B as [|rb B IH]; simpl; [reflexivity|]. f_equal. exact IH. }
  unfold reconcile_value. cbn [common_df only_a_df only_b_df].
  assert (Hb : forall A A', A = [] \/ A' = [] ->
            with_indicator both (merge_outer A A') = []).
  { intros A A' HA. apply (no_keys_nil _ merged_Clave). intros k Hk.
    apply merged_keys_both in Hk. destruct Hk as [H1 H2].
    destruct HA as [-> | ->]; [destruct H1|destruct H2]. }
  rewrite !Hb by auto.
  assert (Hl : with_indicator left_only (merge_outer [] B) = []).
  { apply (no_keys_nil _ merged_Clave). intros k Hk.
    apply merged_keys_left in Hk. destruct Hk as [[] _]. }
  assert (Hr : with_indicator right_only (merge_outer B []) = []).
  { apply (no_keys_nil _ merged_Clave). intros k Hk.
    apply merged_keys_right in Hk. destruct Hk as [_ []]. }
  rewrite Hl, Hr. repeat (split; [reflexivity|]).
  split.
  - rewrite only_rows_swap.
    eapply Permutation_trans; [apply only_a_rows|]. now rewrite Hall.
  - split; [reflexivity|]. split; [reflexivity|].
    eapply Permutation_trans; [apply only_a_rows|]. now rewrite Hall.
Qed.

(** X6: the fourth KPI card, [only_a_count + only_b_count], shows 0 exactly
    when the two tables have the same set of keys. *)
Theorem diferencias_zero_iff_same_keys : forall lower A B,
  exists r,
    reconcile lower A B = Ok r /\
    (diferencias r = 0 <-> forall k, In k (keys A) <-> In k (keys B)).
Proof.
  intros lower A B. exists (reconcile_value lower A B).
  split; [apply reconcile_returns|].
  unfold diferencias, reconcile_value. cbn [only_a_count only_b_count].
  rewrite !length_map. split.
  - intros H k.
    assert (Hl : with_indicator left_only (merge_outer A B) = [])
      by (apply length_zero_iff_nil; lia).
    assert (Hr : with_indicator right_only (merge_outer A B) = [])
      by (apply length_zero_iff_nil; lia).
    pose proof (merged_keys_left A B k) as Kl.
    pose proof (merged_keys_right A B k) as Kr.
    rewrite Hl in Kl. rewrite Hr in Kr. simpl in Kl, Kr.
    destruct (in_dec pystr_eq_dec k (keys A));
      destruct (in_dec pystr_eq_dec k (keys B)); tauto.
  - intro H.
    assert (Hl : with_indicator left_only (merge_outer A B) = []).
    { apply (no_keys_nil _ merged_Clave). intros k Hk.
      apply merged_keys_left in Hk. apply (proj2 Hk), H, (proj1 Hk). }
    assert (Hr : with_indicator right_only (merge_outer A B) = []).
    { apply (no_keys_nil _ merged_Clave). intros k Hk.
      apply merged_keys_right in Hk. apply (proj1 Hk), H, (proj2 Hk). }
    rewrite Hl, Hr. reflexivity.
Qed.

(* ================================================================= *)
(** * The exported workbook *)

Lemma empty_map : forall (X Y : Type) (f : X -> Y) l, empty (map f l) = empty l.
Proof. intros X Y f [|x l]; reflexivity. Qed.

Lemma empty_no_keys : forall (X : Type) (key : X -> pystr) l (b : bool),
  (b = true <-> exists k, In k (map key l)) -> empty l = negb b.
Proof.
  intros X key [|x l] b H; destruct b; try reflexivity; exfalso.
  - destruct (proj1 H eq_refl) as [k []].
  - assert (Hb : false = true) by (apply H; exists (key x); now left).
    discriminate.
Qed.

Lemma both_empty : forall A B,
  empty (with_indicator both (merge_outer A B))
  = negb (existsb (has_key B) (keys A)).
Proof.
  intros A B. apply (empty_no_keys _ merged_Clave).
  rewrite existsb_exists. split.
  - intros (k & Hk & Hb). exists k. apply merged_keys_both.
    split; [exact Hk|now apply has_key_In].
  - intros (k & Hk). apply merged_keys_both in Hk. exists k.
    split; [tauto|apply has_key_In; tauto].
Qed.

Lemma negb_has_key : forall t k, negb (has_key t k) = true <-> ~ In k (keys t).
Proof.
  intros t k. rewrite <- has_key_In. destruct (has_key t k); simpl; split;
    congruence.
Qed.

Lemma left_empty : forall A B,
  empty (with_indicator left_only (merge_outer A B))
  = negb (existsb (fun k => negb (has_key B k)) (keys A)).
Proof.
  intros A B. apply (empty_no_keys _ merged_Clave).
  rewrite existsb_exists. split.
  - intros (k & Hk & Hb). exists k. apply merged_keys_left.
    split; [exact Hk|now apply negb_has_key].
  - intros (k & Hk). apply merged_keys_left in Hk. exists k.
    split; [tauto|apply negb_has_key; tauto].
Qed.

Lemma right_empty : forall A B,
  empty (with_indicator right_only (merge_outer A B))
  = negb (existsb (fun k => negb (has_key A k)) (keys B)).
Proof.
  intros A B. apply (empty_no_keys _ merged_Clave).
  rewrite existsb_exists. split.
  - intros (k & Hk & Hb). exists k. apply merged_keys_right.
    split; [now apply negb_has_key|exact Hk].
  - intros (k & Hk). apply merged_keys_right in Hk. exists k.
    split; [tauto|apply negb_has_key; tauto].
Qed.

(** X7: the workbook exported for a reconciliation starts with the sheet
    ['Resumen']; then come, in this order, ['Coincidencias'] when some key
    of A is a key of B, ['Solo en A'] when some key of A is not a key of
    B, and ['Solo en B'] when some key of B is not a key of A. A partition
    without rows gets no sheet. *)
Theorem export_sheet_names : forall lower A B,
  exists r,
    reconcile lower A B = Ok r /\
    map fst (convert_df_to_excel r)
    = [lit "Resumen"]
      ++ (if existsb (has_key B) (keys A) then [lit "Coincidencias"] else [])
      ++ (if existsb (fun k => negb (has_key B k)) (keys A)
          then [lit "Solo en A"] else [])
      ++ (if existsb (fun k => negb (has_key A k)) (keys B)
          then [lit "Solo en B"] else []).
Proof.
  intros lower A B. exists (reconcile_value lower A B).
  split; [apply reconcile_returns|].
  unfold convert_df_to_excel, reconcile_value, to_excel.
  cbn [common_df only_a_df only_b_df].
  rewrite !empty_map, both_empty, left_empty, right_empty, !negb_involutive.
  destruct (existsb (has_key B) (keys A));
    destruct (existsb (fun k => negb (has_key B k)) (keys A));
    destruct (existsb (fun k => negb (has_key A k)) (keys B)); reflexivity.
Qed.

(** The number of rows written to the sheet called [name]; 0 when the
    workbook has no such sheet. *)
Fixpoint sheet_rows (name : pystr) (w : Workbook) : nat :=
  match w with
  | [] => 0
  | (n, s) :: w' =>
      if pystr_eqb n name then
        match s with
        | SummarySheet _ valor => length valor
        | MatchSheet rows => length rows
        | RecordSheet rows => length rows
        end
      else sheet_rows name w'
  end.

Lemma export_summary : forall ta tb (c : list MatchRecord)
                              (a b : list CanonicalRecord),
  let w := convert_df_to_excel
             (mkResult ta tb (length c) (length a) (length b) c a b) in
  hd_error w
  = Some (lit "Resumen",
          SummarySheet summary_metrica
            [ta; tb; sheet_rows (lit "Coincidencias") w;
             sheet_rows (lit "Solo en A") w; sheet_rows (lit "Solo en B") w]).
Proof. intros ta tb [|m c] [|ra a] [|rb b]; reflexivity. Qed.

(** X8: the first sheet of the workbook exported for a reconciliation is
    the five-row summary, and its values are the row counts of the two
    tables followed by the numbers of rows of the three data sheets, 0
    standing for a sheet that was left out. *)
Theorem export_summary_consistent : forall lower A B,
  exists r,
    reconcile lower A B = Ok r /\
    let w := convert_df_to_excel r in
    hd_error w
    = Some (lit "Resumen",
            SummarySheet summary_metrica
              [length A; length B; sheet_rows (lit "Coincidencias") w;
               sheet_rows (lit "Solo en A") w; sheet_rows (lit "Solo en B") w])
    /\ length summary_metrica = 5.
Proof.
  intros lower A B. exists (reconcile_value lower A B).
  split; [apply reconcile_returns|]. split; [|reflexivity].
  unfold reconcile_value. apply export_summary.
Qed.

(* ================================================================= *)
(** * The style of a difference cell *)

Lemma SFcompare_refl_finite : forall s m e,
  SFcompare (S754_finite s m e) (S754_finite s m e) = Some Eq.
Proof.
  intros s m e. simpl. rewrite Z.compare_refl, Pos.compare_cont_refl.
  now destruct s.
Qed.

(** A float is zero, positive, negative or NaN, and only one of these. *)
Lemma float_sign_cases : forall f : float,
  ((f =? 0) = true /\ (0 <? f) = false /\ (f <? 0) = false
   /\ is_nan f = false)%float \/
  ((f =? 0) = false /\ (0 <? f) = true /\ (f <? 0) = false
   /\ is_nan f = false)%float \/
  ((f =? 0) = false /\ (0 <? f) = false /\ (f <? 0) = true
   /\ is_nan f = false)%float \/
  ((f =? 0) = false /\ (0 <? f) = false /\ (f <? 0) = false
   /\ is_nan f = true)%float.
Proof.
  intro f. unfold is_nan. rewrite !eqb_spec, !ltb_spec.
  change (Prim2SF 0) with (S754_zero false).
  unfold SFeqb, SFltb.
  destruct (Prim2SF f) as [s|s| |s m e].
  - left. now destruct s.
  - destruct s; [right; right; left|right; left]; repeat split.
  - right. right. right. repeat split.
  - rewrite SFcompare_refl_finite.
    destruct s; [right; right; left|right; left]; repeat split.
Qed.

(** X9: a float cell of the difference column gets no style exactly when it
    equals 0, the red style exactly when it is greater than 0, and the
    green style exactly when it is less than 0 or NaN; a cell that is not
    a number gets no style. *)
Theorem highlight_diff_cases : forall f : float,
  (highlight_diff (CFloat f) = [] <-> (f =? 0)%float = true) /\
  (highlight_diff (CFloat f) = lit "color: red; font-weight: bold"
   <-> (0 <? f)%float = true) /\
  (highlight_diff (CFloat f) = lit "color: green; font-weight: bold"
   <-> (f <? 0)%float = true \/ is_nan f = true) /\
  highlight_diff CNone = [] /\
  forall s, highlight_diff (CStr s) = [].
Proof.
  intro f. unfold highlight_diff.
  cbn [is_int_or_float ne_zero gt_zero andb].
  destruct (float_sign_cases f) as [H|[H|[H|H]]];
    destruct H as (-> & -> & -> & ->); cbn [negb];
    repeat split; try discriminate; try reflexivity;
    try (intros [H|H]; discriminate); auto.
Qed.

(* ================================================================= *)
(** * Validation of the two files *)




(* ================================================================= *)
(** * Further properties of [clean_price] *)

(** X11: only the digits, decimal points and minus signs of a string, and
    their order, decide its price: two strings that [re.sub] cleans to the
    same text get the same value. *)
Theorem clean_price_same_cleaned_text : forall float_repr s t,
  re_sub_non_numeric s = re_sub_non_numeric t ->
  clean_price float_repr (CStr s) = clean_price float_repr (CStr t).
Proof.
  intros float_repr s t H. rewrite !clean_price_str.
  unfold parsed_or_zero. now rewrite H.
Qed.

Lemma clean_price_same_cleaned_text_witness :
  clean_price repr_unused (CStr (lit "$1,234.56"))
  = clean_price repr_unused (CStr (lit "1234.56 MXN")).
Proof.
  apply (clean_price_same_cleaned_text repr_unused
           (lit "$1,234.56") (lit "1234.56 MXN")).
  reflexivity.
Defined.

(** The characters of a string that are not digits. *)
Definition non_digits (s : pystr) : pystr :=
  filter (fun c => negb (is_digit c)) s.

Lemma non_digits_app : forall s t,
  non_digits (s ++ t) = non_digits s ++ non_digits t.
Proof. intros s t. apply filter_app. Qed.

Lemma non_digits_all_digits : forall s,
  forallb is_digit s = true -> non_digits s = [].
Proof.
  induction s as [|c s IH]; simpl; [reflexivity|].
  destruct (is_digit c); simpl; [exact IH|discriminate].
Qed.

Lemma span_digits_spec : forall s ip rest,
  span_digits s = (ip, rest) ->
  s = ip ++ rest /\ forallb is_digit ip = true /\
  match rest with
  | [] => True
  | c :: _ => is_digit c = false
  end.
Proof.
  induction s as [|c s IH]; simpl; intros ip rest H.
  - inversion H. auto.
  - destruct (is_digit c) eqn:E.
    + destruct (span_digits s) as [ds r]. inversion H; subst.
      destruct (IH ds rest eq_refl) as (-> & Hd & Hr).
      simpl. rewrite E. auto.
    + inversion H; subst. simpl. rewrite E. auto.
Qed.

(** The text [float] is given, without its leading minus sign. *)
Definition unsigned_part (s : pystr) : pystr :=
  match s with
  | c :: r => if char_eqb c MINUS then r else s
  | [] => s
  end.

(** [float] accepts a cleaned text only if, after the sign, at most one
    character is not a digit, and that one is the decimal point. *)
Lemma float_of_cleaned_ok : forall s f,
  float_of_cleaned s = Ok f ->
  non_digits (unsigned_part s) = [] \/ non_digits (unsigned_part s) = [DOT].
Proof.
  intros s f. unfold float_of_cleaned.
  assert (E : (match s with
               | c :: r => if char_eqb c MINUS then (true, r) else (false, s)
               | [] => (false, s)
               end)
              = (match s with
                 | c :: r => char_eqb c MINUS
                 | [] => false
                 end, unsigned_part s)).
  { destruct s as [|c r]; [reflexivity|]. simpl. now destruct (char_eqb c MINUS). }
  rewrite E. clear E.
  destruct (span_digits (unsigned_part s)) as [ip rest] eqn:Hs.
  destruct (span_digits_spec _ _ _ Hs) as (Hb & Hd & Hr). rewrite Hb.
  rewrite non_digits_app, (non_digits_all_digits _ Hd). cbn [app].
  destruct rest as [|c fp]; [auto|].
  destruct (char_eqb c DOT) eqn:Ec; [|discriminate].
  destruct (forallb is_digit fp) eqn:Ef; [|discriminate].
  intros _. right. apply N.eqb_eq in Ec. subst c. simpl.
  now rewrite (non_digits_all_digits _ Ef).
Qed.

Lemma count_dot_cleaned : forall s,
  count_occ N.eq_dec (re_sub_non_numeric s) DOT = count_occ N.eq_dec s DOT.
Proof.
  induction s as [|c s IH]; [reflexivity|].
  unfold re_sub_non_numeric in *. cbn [filter].
  destruct (N.eq_dec c DOT) as [->|Hne].
  - cbn [is_digit]. simpl. now rewrite IH.
  - destruct (is_digit c || char_eqb c DOT || char_eqb c MINUS).
    + rewrite !count_occ_cons_neq by assumption. exact IH.
    + rewrite count_occ_cons_neq by assumption. exact IH.
Qed.

Lemma count_dot_non_digits : forall s,
  count_occ N.eq_dec (non_digits s) DOT = count_occ N.eq_dec s DOT.
Proof.
  induction s as [|c s IH]; [reflexivity|].
  unfold non_digits in *. cbn [filter].
  destruct (N.eq_dec c DOT) as [->|Hne].
  - simpl. now rewrite IH.
  - destruct (negb (is_digit c)).
    + rewrite !count_occ_cons_neq by assumption. exact IH.
    + rewrite count_occ_cons_neq by assumption. exact IH.
Qed.

Lemma count_dot_unsigned : forall s,
  count_occ N.eq_dec (unsigned_part s) DOT = count_occ N.eq_dec s DOT.
Proof.
  intros [|c r]; [reflexivity|]. simpl.
  destruct (char_eqb c MINUS) eqn:E; [|reflexivity].
  apply N.eqb_eq in E. subst c.
  destruct (N.eq_dec MINUS DOT); [discriminate|reflexivity].
Qed.

Lemma minus_in_unsigned : forall c r,
  In MINUS r -> In MINUS (non_digits (unsigned_part (c :: r))).
Proof.
  intros c r H. unfold non_digits. apply filter_In. split; [|reflexivity].
  simpl. destruct (char_eqb c MINUS); [exact H|now right].
Qed.

(** X12: a string with two or more decimal points, or with a minus sign
    after the first character of its cleaned text (a range such as
    [10-20], a date, a trailing minus), is priced 0.0: [float] rejects the
    cleaned text and the handler of line 35 answers. *)
Theorem clean_price_rejected_text : forall float_repr s,
  2 <= count_occ N.eq_dec s DOT \/
  (exists c r, re_sub_non_numeric s = c :: r /\ In MINUS r) ->
  clean_price float_repr (CStr s) = Ok fzero.
Proof.
  intros float_repr s H. rewrite clean_price_str. unfold parsed_or_zero.
  destruct (float_of_cleaned (re_sub_non_numeric s)) as [f|e] eqn:E;
    [|reflexivity].
  exfalso. apply float_of_cleaned_ok in E.
  destruct H as [H|(c & r & Hc & Hm)].
  - rewrite <- count_dot_cleaned, <- count_dot_unsigned,
      <- count_dot_non_digits in H.
    destruct E as [E|E]; rewrite E in H; simpl in H; lia.
  - rewrite Hc in E. apply (minus_in_unsigned c) in Hm.
    destruct E as [E|E]; rewrite E in Hm; simpl in Hm;
      decompose [or] Hm; try discriminate; contradiction.
Qed.

Lemma clean_price_rejected_text_witness :
  clean_price repr_unused (CStr (lit "1.234.567")) = Ok fzero /\
  clean_price repr_unused (CStr (lit "$10-20")) = Ok fzero.
Proof.
  split.
  - apply (clean_price_rejected_text repr_unused (lit "1.234.567")).
    left. vm_compute. lia.
  - apply (clean_price_rejected_text repr_unused (lit "$10-20")).
    right. exists 49%N, (lit "0-20"). split; [reflexivity|].
    vm_compute. tauto.
Defined.

(* ================================================================= *)
(** * Further properties of [calculate_text_similarity] *)

Module DisjointFacts.
Import Difflib.

Section Disjoint.

Variables a b : pystr.

(** No element of [a] occurs in [b]. *)
Hypothesis Hdis : forall c, In c a -> ~ In c b.

Lemma indices_absent : forall c l i, ~ In c l -> indices_from i c l = [].
Proof.
  induction l as [|x l IH]; intros i H; simpl; [reflexivity|].
  destruct (char_eqb x c) eqn:E.
  - apply N.eqb_eq in E. destruct H. now left.
  - apply IH. intro Hin. apply H. now right.
Qed.

Lemma b2j_absent : forall i, i < length a -> b2j_get b (at_a a i) = [].
Proof.
  intros i Hi. unfold b2j_get. destruct (popular b (at_a a i)); [reflexivity|].
  apply indices_absent, Hdis. unfold at_a. now apply nth_In.
Qed.

Lemma flm_rows_disjoint : forall n alo blo bhi bst,
  alo + n <= length a ->
  fold_left (flm_row a b blo bhi) (seq alo n) (j2len_empty, bst)
  = (j2len_empty, bst).
Proof.
  induction n as [|n IH]; intros alo blo bhi bst H; [reflexivity|].
  cbn [seq fold_left]. unfold flm_row at 2.
  rewrite b2j_absent by lia. cbn [flm_inner fst snd].
  apply IH. lia.
Qed.

Lemma flm_main_disjoint : forall alo ahi blo bhi,
  ahi <= length a -> flm_main a b alo ahi blo bhi = (alo, blo, 0).
Proof.
  intros alo ahi blo bhi H. unfold flm_main.
  destruct (Nat.le_gt_cases alo ahi) as [Hle|Hgt].
  - rewrite flm_rows_disjoint by lia. reflexivity.
  - replace (ahi - alo) with 0 by lia. reflexivity.
Qed.

Lemma extend_disjoint : forall junk alo ahi blo bhi,
  ahi <= length a -> bhi <= length b ->
  extend a b junk alo ahi blo bhi (alo, blo, 0) = (alo, blo, 0).
Proof.
  intros junk alo ahi blo bhi Ha Hb. unfold extend.
  assert (El : extend_left a b junk alo blo alo blo 0 = (alo, blo, 0)).
  { destruct alo as [|i]; destruct blo as [|j]; cbn [extend_left];
      try reflexivity.
    rewrite Nat.ltb_irrefl. reflexivity. }
  rewrite El. f_equal.
  destruct (ahi - (alo + 0)) as [|n]; [reflexivity|]. cbn [extend_right].
  destruct (alo + 0 <? ahi) eqn:E1; [|reflexivity].
  destruct (blo + 0 <? bhi) eqn:E2; [|reflexivity].
  apply Nat.ltb_lt in E1, E2.
  assert (Hne : char_eqb (at_a a (alo + 0)) (at_b b (blo + 0)) = false).
  { apply N.eqb_neq. intro Heq.
    apply (Hdis (at_a a (alo + 0))).
    - unfold at_a. apply nth_In. lia.
    - rewrite Heq. unfold at_b. apply nth_In. lia. }
  rewrite Hne, andb_false_r. reflexivity.
Qed.

Lemma find_longest_match_disjoint : forall alo ahi blo bhi,
  ahi <= length a -> bhi <= length b ->
  find_longest_match a b alo ahi blo bhi = (alo, blo, 0).
Proof.
  intros alo ahi blo bhi Ha Hb. unfold find_longest_match.
  rewrite flm_main_disjoint by assumption.
  now rewrite !extend_disjoint.
Qed.

Lemma blocks_disjoint :
  get_matching_blocks a b = Some [(length a, length b, 0)].
Proof.
  unfold get_matching_blocks.
  replace (2 * length a + 2) with (S (2 * length a + 1)) by lia.
  cbn [blocks_loop]. unfold step.
  rewrite find_longest_match_disjoint by lia. cbn [Nat.eqb].
  destruct (2 * length a + 1); reflexivity.
Qed.

End Disjoint.

Lemma calculate_ratio_zero : forall n,
  (0 < Z.of_nat n < 2 ^ 53)%Z -> calculate_ratio 0 n = 0%float.
Proof.
  intros n Hn. unfold calculate_ratio.
  destruct (Nat.eqb n 0) eqn:E; [apply Nat.eqb_eq in E; lia|].
  destruct (FloatFacts.float_of_len_SF n Hn) as (m & Hm & _).
  change (2 * float_of_len 0)%float with 0%float.
  apply (FloatFacts.zero_div _ _ _ Hm).
Qed.

End DisjointFacts.

(** X13: two descriptions whose lower-cased forms share no character have
    similarity exactly 0.0 (for strings short enough that their lengths
    are exact floats). *)
Theorem similarity_no_common_character : forall lower a b,
  a <> [] -> b <> [] -> lower a <> [] ->
  (forall c, In c (lower a) -> ~ In c (lower b)) ->
  (Z.of_nat (length (lower a) + length (lower b)) < 2 ^ 53)%Z ->
  calculate_text_similarity lower a b = Some 0%float.
Proof.
  intros lower a b Ha Hb Hla Hdis Hlen. unfold calculate_text_similarity.
  destruct a as [|x a]; [congruence|]. destruct b as [|y b]; [congruence|].
  cbn [is_empty orb]. unfold Difflib.ratio.
  rewrite (DisjointFacts.blocks_disjoint _ _ Hdis).
  cbn [Difflib.sum_sizes fold_right Difflib.size snd Nat.add].
  rewrite DisjointFacts.calculate_ratio_zero; [reflexivity|].
  destruct (lower (x :: a)); [congruence|]. simpl length in *. lia.
Qed.

Lemma similarity_no_common_character_witness :
  calculate_text_similarity ascii_lower (lit "Oil") (lit "BRAKE") = Some 0%float.
Proof.
  apply (similarity_no_common_character ascii_lower (lit "Oil") (lit "BRAKE")).
  - discriminate.
  - discriminate.
  - discriminate.
  - intros c Hc Hc'. vm_compute in Hc, Hc'.
    decompose [or] Hc; try contradiction; subst c;
      decompose [or] Hc'; try discriminate; contradiction.
  - vm_compute. reflexivity.
Defined.

(** X14: two non-empty descriptions that differ only in letter case --
    their lower-cased forms are equal -- have similarity exactly 100.0
    (for strings short enough that their lengths are exact floats). *)
Theorem similarity_ignores_case : forall lower a b,
  a <> [] -> b <> [] -> lower a = lower b ->
  (Z.of_nat (length (lower a) + length (lower b)) < 2 ^ 53)%Z ->
  calculate_text_similarity lower a b = Some 100%float.
Proof.
  intros lower a b Ha Hb Hab Hlen. unfold calculate_text_similarity.
  destruct a as [|x a]; [congruence|]. destruct b as [|y b]; [congruence|].
  cbn [is_empty orb]. rewrite Hab in *. unfold Difflib.ratio.
  destruct (DifflibFacts.matched_same (lower (y :: b))) as (bls & -> & ->).
  rewrite FloatFacts.calculate_ratio_same by assumption. reflexivity.
Qed.

Lemma similarity_ignores_case_witness :
  calculate_text_similarity ascii_lower (lit "Oil Filter") (lit "OIL FILTER")
  = Some 100%float.
Proof.
  apply (similarity_ignores_case ascii_lower (lit "Oil Filter") (lit "OIL FILTER")).
  - discriminate.
  - discriminate.
  - reflexivity.
  - vm_compute. reflexivity.
Defined.

(* ================================================================= *)
(** * Further properties of [normalize_columns] *)

(** ** What renaming does to each label *)

Lemma first_match_None : forall cands d c,
  first_match cands d = None -> In c cands -> in_columns c d = false.
Proof.
  induction cands as [|x cands IH]; simpl; intros d c H Hc; [destruct Hc|].
  destruct (in_columns x d) eqn:E; [discriminate|].
  destruct Hc as [->|Hc]; [exact E|now apply IH].
Qed.

(** One entry of [col_map] applied to the label [x]; [k] is what the rest
    of the dict gives. *)
Definition pick (o : option pystr) (target x k : pystr) : pystr :=
  match o with
  | Some c => if pystr_eqb c x then target else k
  | None => k
  end.

Lemma rename_label_build : forall d x,
  rename_label (build_col_map d) (CStr x)
  = CStr (pick (first_match clave_cols d) CLAVE x
            (pick (first_match desc_cols d) DESCRIPCION x
               (pick (first_match price_cols d) PRECIO x x))).
Proof.
  intros d x. unfold build_col_map, map_entry, pick.
  destruct (first_match clave_cols d) as [c|];
    destruct (first_match desc_cols d) as [cd|];
    destruct (first_match price_cols d) as [cp|];
    cbn [app rename_label dict_get];
    repeat match goal with
           | |- context [pystr_eqb ?a x] => destruct (pystr_eqb a x)
           end; reflexivity.
Qed.

Lemma pick_other : forall o target k cands d c,
  o = first_match cands d -> ~ In c cands ->
  pick o target c k = k.
Proof.
  intros o target k cands d c -> Hc. unfold pick.
  destruct (first_match cands d) as [c'|] eqn:E; [|reflexivity].
  destruct (pystr_eqb c' c) eqn:E'; [|reflexivity].
  apply pystr_eqb_eq in E'. subst c'.
  destruct (first_match_In _ _ _ E). contradiction.
Qed.

Lemma in_columns_label : forall d l s x,
  In (l, s) (df_cols d) -> l = CStr x -> in_columns x d = true.
Proof.
  intros d l s x Hin ->. apply in_columns_true. unfold columns.
  apply in_map_iff. exists (CStr x, s). auto.
Qed.

(** Renaming sends to ['Precio'] exactly the columns whose header is the
    price spelling that was found. *)
Lemma cols_named_precio_rename : forall d cp,
  first_match price_cols d = Some cp ->
  cols_named PRECIO (rename (build_col_map d) d) = cols_named cp d.
Proof.
  intros d cp Hc. unfold rename. rewrite cols_named_set_labels.
  unfold cols_named. f_equal. apply filter_ext_in. intros [l s] Hin.
  cbn [fst]. destruct (first_match_In _ _ _ Hc) as [Hcin Hcd].
  destruct l as [| | | |x]; try reflexivity.
  rewrite rename_label_build, Hc. cbn [label_is].
  destruct (pystr_eqb x cp) eqn:E.
  - apply pystr_eqb_eq in E. subst x.
    rewrite (pick_other _ CLAVE _ clave_cols d cp), (pick_other _ DESCRIPCION _ desc_cols d cp);
      try reflexivity.
    + unfold pick. rewrite pystr_eqb_refl. reflexivity.
    + intro H. now apply (proj2 (spellings_disjoint cp)) in H.
    + intro H. now apply (proj1 (spellings_disjoint cp)) in H.
  - assert (E' : pystr_eqb cp x = false).
    { apply pystr_eqb_neq. apply pystr_eqb_neq in E. congruence. }
    assert (Hx : pystr_eqb x PRECIO = false).
    { apply pystr_eqb_neq. intros ->.
      pose proof (in_columns_label d _ _ PRECIO Hin eq_refl) as Hp.
      apply (first_match_head _ _ _ _ Hc) in Hp. subst cp.
      rewrite pystr_eqb_refl in E. discriminate. }
    unfold pick. rewrite E'.
    destruct (first_match clave_cols d) as [c|];
      destruct (first_match desc_cols d) as [cd|];
      repeat match goal with
             | |- context [pystr_eqb ?a x] => destruct (pystr_eqb a x)
             end; try exact Hx; reflexivity.
Qed.

Lemma cols_named_precio_rename_none : forall d,
  first_match price_cols d = None ->
  cols_named PRECIO (rename (build_col_map d) d) = [].
Proof.
  intros d Hc. unfold rename. rewrite cols_named_set_labels.
  replace (filter (fun c => label_is PRECIO (rename_label (build_col_map d) (fst c)))
                  (df_cols d)) with (@nil (cell * Series)); [reflexivity|].
  symmetry. rewrite <- (filter_ext_in (fun _ => false)).
  - clear. induction (df_cols d) as [|y l IH]; [reflexivity|exact IH].
  - intros [l s] Hin. cbn [fst]. destruct l as [| | | |x]; try reflexivity.
    rewrite rename_label_build, Hc. cbn [label_is]. symmetry.
    assert (Hx : pystr_eqb x PRECIO = false).
    { apply pystr_eqb_neq. intros ->.
      pose proof (in_columns_label d _ _ PRECIO Hin eq_refl) as Hp.
      rewrite (first_match_None price_cols d PRECIO Hc) in Hp;
        [discriminate|now left]. }
    unfold pick.
    destruct (first_match clave_cols d) as [c|];
      destruct (first_match desc_cols d) as [cd|];
      repeat match goal with
             | |- context [pystr_eqb ?a x] => destruct (pystr_eqb a x)
             end; try exact Hx; reflexivity.
Qed.

(** Renaming sends to ['Descripcion'] the columns whose header is the
    description spelling that was found; a header already spelled
    ['Descripcion'] stays, so the accented and the plain spelling must not
    both be there. *)
Lemma cols_named_descripcion_rename : forall d cd,
  first_match desc_cols d = Some cd ->
  ~ (in_columns DESCRIPCION_ACENTO d = true /\ in_columns DESCRIPCION d = true) ->
  cols_named DESCRIPCION (rename (build_col_map d) d) = cols_named cd d.
Proof.
  intros d cd Hc Hnb. unfold rename. rewrite cols_named_set_labels.
  unfold cols_named. f_equal. apply filter_ext_in. intros [l s] Hin.
  cbn [fst]. destruct (first_match_In _ _ _ Hc) as [Hcin Hcd].
  destruct l as [| | | |x]; try reflexivity.
  rewrite rename_label_build, Hc. cbn [label_is].
  destruct (pystr_eqb x cd) eqn:E.
  - apply pystr_eqb_eq in E. subst x.
    rewrite (pick_other _ CLAVE _ clave_cols d cd); try reflexivity.
    + unfold pick. rewrite pystr_eqb_refl. reflexivity.
    + intro H. now apply (proj1 (spellings_disjoint cd)) in H.
  - assert (E' : pystr_eqb cd x = false).
    { apply pystr_eqb_neq. apply pystr_eqb_neq in E. congruence. }
    assert (Hx : pystr_eqb x DESCRIPCION = false).
    { apply pystr_eqb_neq. intros ->.
      pose proof (in_columns_label d _ _ DESCRIPCION Hin eq_refl) as Hp.
      change desc_cols
        with (DESCRIPCION_ACENTO :: DESCRIPCION
              :: [lit "descripcion"; lit "Nombre"; lit "nombre"]) in Hc.
      cbn [first_match] in Hc.
      destruct (in_columns DESCRIPCION_ACENTO d) eqn:Ea; [tauto|].
      rewrite Hp in Hc. inversion Hc; subst cd.
      rewrite pystr_eqb_refl in E. discriminate. }
    unfold pick at 2. rewrite E'.
    unfold pick.
    destruct (first_match clave_cols d) as [c|];
      destruct (first_match price_cols d) as [cp|];
      repeat match goal with
             | |- context [pystr_eqb ?a x] => destruct (pystr_eqb a x)
             end; try exact Hx; reflexivity.
Qed.

Lemma cols_named_descripcion_rename_none : forall d,
  first_match desc_cols d = None ->
  cols_named DESCRIPCION (rename (build_col_map d) d) = [].
Proof.
  intros d Hc. unfold rename. rewrite cols_named_set_labels.
  replace (filter (fun c => label_is DESCRIPCION
                              (rename_label (build_col_map d) (fst c)))
                  (df_cols d)) with (@nil (cell * Series)); [reflexivity|].
  symmetry. rewrite <- (filter_ext_in (fun _ => false)).
  - clear. induction (df_cols d) as [|y l IH]; [reflexivity|exact IH].
  - intros [l s] Hin. cbn [fst]. destruct l as [| | | |x]; try reflexivity.
    rewrite rename_label_build, Hc. cbn [label_is]. symmetry.
    assert (Hx : pystr_eqb x DESCRIPCION = false).
    { apply pystr_eqb_neq. intros ->.
      pose proof (in_columns_label d _ _ DESCRIPCION Hin eq_refl) as Hp.
      rewrite (first_match_None desc_cols d DESCRIPCION Hc) in Hp;
        [discriminate|right; now left]. }
    unfold pick.
    destruct (first_match clave_cols d) as [c|];
      destruct (first_match price_cols d) as [cp|];
      repeat match goal with
             | |- context [pystr_eqb ?a x] => destruct (pystr_eqb a x)
             end; try exact Hx; reflexivity.
Qed.

(** ** One column per label *)

Lemma in_columns_cols_named : forall n d,
  in_columns n d = negb (empty (cols_named n d)).
Proof.
  intros n d. unfold in_columns, cols_named, columns.
  induction (df_cols d) as [|[l s] cols IH]; [reflexivity|].
  cbn [map existsb filter fst]. destruct (label_is n l); [reflexivity|exact IH].
Qed.

Lemma cols_named_absent : forall n d,
  in_columns n d = false -> cols_named n d = [].
Proof.
  intros n d H. rewrite in_columns_cols_named in H.
  destruct (cols_named n d); [reflexivity|discriminate].
Qed.

(** With pairwise distinct labels, a label that is there names one
    column. *)
Lemma cols_named_unique : forall n d,
  NoDup (columns d) -> in_columns n d = true ->
  exists s, cols_named n d = [s] /\ In (CStr n, s) (df_cols d).
Proof.
  intros n d. unfold columns, in_columns, cols_named, columns.
  induction (df_cols d) as [|[l s] cols IH]; intros Hnd H; [discriminate|].
  cbn [map fst existsb filter] in *. inversion Hnd as [|? ? Hl Hnd']; subst.
  destruct (label_is n l) eqn:E.
  - apply label_is_true in E. subst l. exists s. split; [|now left].
    cbn [map snd]. f_equal.
    assert (Hf : forallb (fun c => negb (label_is n (fst c))) cols = true).
    { apply forallb_forall. intros [l' s'] Hin. cbn [fst].
      destruct (label_is n l') eqn:E'; [|reflexivity].
      apply label_is_true in E'. subst l'. destruct Hl.
      apply in_map_iff. exists (CStr n, s'). auto. }
    clear -Hf. induction cols as [|c cols IHc]; [reflexivity|].
    cbn [forallb filter] in *. apply andb_true_iff in Hf. destruct Hf as [H1 H2].
    destruct (label_is n (fst c)); [discriminate|]. now apply IHc.
  - destruct (IH Hnd' H) as (s' & Hs & Hin). exists s'. split; [exact Hs|].
    now right.
Qed.

Lemma cols_named_add_same : forall n v d,
  cols_named n (add_column n v d) = cols_named n d ++ [repeat v (df_len d)].
Proof.
  intros n v d. unfold cols_named, add_column. cbn [df_cols].
  rewrite filter_app, map_app. cbn [filter fst label_is].
  now rewrite pystr_eqb_refl.
Qed.

Lemma in_columns_add_other : forall n n' v d,
  n <> n' -> in_columns n (add_column n' v d) = in_columns n d.
Proof.
  intros n n' v d H.
  now rewrite !in_columns_cols_named, cols_named_add_other.
Qed.

(** Lines 74-77 on the two optional columns. *)
Lemma cols_named_fill : forall d,
  cols_named DESCRIPCION (fill_defaults d)
  = (if in_columns DESCRIPCION d then cols_named DESCRIPCION d
     else [repeat (CStr []) (df_len d)]) /\
  cols_named PRECIO (fill_defaults d)
  = (if in_columns PRECIO d then cols_named PRECIO d
     else [repeat (CFloat fzero) (df_len d)]).
Proof.
  intro d. unfold fill_defaults.
  destruct (in_columns DESCRIPCION d) eqn:Ed; cbn [negb].
  - destruct (in_columns PRECIO d) eqn:Ep; cbn [negb].
    + auto.
    + rewrite cols_named_add_other by discriminate.
      rewrite cols_named_add_same, (cols_named_absent _ _ Ep). auto.
  - rewrite in_columns_add_other by discriminate.
    destruct (in_columns PRECIO d) eqn:Ep; cbn [negb].
    + rewrite cols_named_add_same, (cols_named_absent _ _ Ed).
      rewrite cols_named_add_other by discriminate. auto.
    + rewrite cols_named_add_other by discriminate.
      rewrite !cols_named_add_same, (cols_named_absent _ _ Ed).
      rewrite cols_named_add_other by discriminate.
      rewrite (cols_named_absent _ _ Ep). auto.
Qed.

Lemma filter_label_single : forall n d s,
  cols_named n d = [s] ->
  filter (fun c => label_is n (fst c)) (df_cols d) = [(CStr n, s)].
Proof.
  intros n d s. unfold cols_named.
  pose proof (fun c => proj1 (filter_In (fun c => label_is n (fst c)) c (df_cols d)))
    as Hin.
  destruct (filter (fun c => label_is n (fst c)) (df_cols d)) as [|[l s'] r];
    [discriminate|].
  destruct r; [|discriminate]. cbn [map snd]. intro H. inversion H; subst.
  destruct (Hin (l, s) (or_introl eq_refl)) as [_ Hl]. cbn [fst] in Hl.
  apply label_is_true in Hl. now subst.
Qed.

(** Line 84 on a frame that has one column for each of the three names. *)
Lemma select_singletons : forall d a b c,
  cols_named CLAVE d = [a] -> cols_named DESCRIPCION d = [b] ->
  cols_named PRECIO d = [c] ->
  select [CLAVE; DESCRIPCION; PRECIO] d
  = mkDF [(CStr CLAVE, a); (CStr DESCRIPCION, b); (CStr PRECIO, c)] (df_len d).
Proof.
  intros d a b c Ha Hb Hc. unfold select. cbn [flat_map].
  now rewrite (filter_label_single _ _ _ Ha), (filter_label_single _ _ _ Hb),
    (filter_label_single _ _ _ Hc).
Qed.

(** ** [str.strip] strips once and for all *)

Lemma lstrip_no_lead : forall s,
  match lstrip s with
  | c :: _ => is_space c = false
  | [] => True
  end.
Proof.
  induction s as [|c s IH]; simpl; [exact I|].
  destruct (is_space c) eqn:E; [exact IH|exact E].
Qed.

Lemma lstrip_fixed : forall s,
  match s with
  | c :: _ => is_space c = false
  | [] => True
  end -> lstrip s = s.
Proof. intros [|c s] H; simpl; [reflexivity|]. now rewrite H. Qed.

Lemma lstrip_idempotent : forall s, lstrip (lstrip s) = lstrip s.
Proof. intro s. apply lstrip_fixed, lstrip_no_lead. Qed.

Lemma lstrip_snoc : forall s c,
  is_space c = false -> lstrip (s ++ [c]) = lstrip s ++ [c].
Proof.
  induction s as [|x s IH]; intros c H; simpl.
  - now rewrite H.
  - destruct (is_space x); [now apply IH|reflexivity].
Qed.

Lemma rstrip_cons : forall c s,
  is_space c = false -> rstrip (c :: s) = c :: rstrip s.
Proof.
  intros c s H. unfold rstrip. cbn [rev].
  rewrite lstrip_snoc by assumption. rewrite rev_app_distr. reflexivity.
Qed.

Lemma rstrip_idempotent : forall s, rstrip (rstrip s) = rstrip s.
Proof.
  intro s. unfold rstrip. now rewrite rev_involutive, lstrip_idempotent.
Qed.

Lemma strip_idempotent : forall s, strip (strip s) = strip s.
Proof.
  intro s. unfold strip. rewrite (lstrip_fixed (rstrip (lstrip s))).
  - apply rstrip_idempotent.
  - pose proof (lstrip_no_lead s) as H.
    destruct (lstrip s) as [|c t]; [exact I|].
    now rewrite rstrip_cons.
Qed.

(** ** The frame a normalization returns *)

(** The column a field is read from: the one under the first spelling
    found, or a column of defaults. *)
Definition resolved (cands : list pystr) (default : cell) (d : DataFrame)
  : Series :=
  match first_match cands d with
  | Some c => hd [] (cols_named c d)
  | None => repeat default (df_len d)
  end.

Section NormalizeResult.

Variable float_repr : float -> pystr.
Variable na_kept : bool.

(** The frame once its headers are stripped: they are pairwise distinct,
    the accented and the plain spelling of the description are not both
    among them, and one of them is a key spelling. *)
Variable d0 : DataFrame.
Hypothesis Hnd : NoDup (columns d0).
Hypothesis Hdesc :
  ~ (In (CStr DESCRIPCION_ACENTO) (columns d0)
     /\ In (CStr DESCRIPCION) (columns d0)).
Variable c : pystr.
Hypothesis Hc : first_match clave_cols d0 = Some c.

Let d3 := fill_defaults (rename (build_col_map d0) d0).

Lemma resolved_found : forall cands default x,
  first_match cands d0 = Some x ->
  cols_named x d0 = [resolved cands default d0].
Proof.
  intros cands default x H. unfold resolved. rewrite H.
  destruct (first_match_In _ _ _ H) as [_ Hx].
  destruct (cols_named_unique x d0 Hnd Hx) as (s & -> & _). reflexivity.
Qed.

Lemma d3_len : df_len d3 = df_len d0.
Proof. unfold d3. now rewrite df_len_fill_defaults. Qed.

Lemma d3_clave : cols_named CLAVE d3 = [resolved clave_cols CNone d0].
Proof.
  unfold d3. rewrite cols_named_clave_fill, (cols_named_clave_rename _ _ Hc).
  now apply resolved_found.
Qed.

Lemma d3_descripcion :
  cols_named DESCRIPCION d3 = [resolved desc_cols (CStr []) d0].
Proof.
  unfold d3. rewrite (proj1 (cols_named_fill _)), in_columns_cols_named.
  destruct (first_match desc_cols d0) as [cd|] eqn:E.
  - rewrite (cols_named_descripcion_rename _ _ E)
      by (rewrite !in_columns_true; exact Hdesc).
    now rewrite (resolved_found _ (CStr []) _ E).
  - rewrite (cols_named_descripcion_rename_none _ E). cbn [empty negb].
    unfold resolved. now rewrite E.
Qed.

Lemma d3_precio :
  cols_named PRECIO d3 = [resolved price_cols (CFloat fzero) d0].
Proof.
  unfold d3. rewrite (proj2 (cols_named_fill _)), in_columns_cols_named.
  destruct (first_match price_cols d0) as [cp|] eqn:E.
  - rewrite (cols_named_precio_rename _ _ E).
    now rewrite (resolved_found _ (CFloat fzero) _ E).
  - rewrite (cols_named_precio_rename_none _ E). cbn [empty negb].
    unfold resolved. now rewrite E.
Qed.

(** The three columns of the returned frame. *)
Definition claves : Series :=
  map (clave_cell float_repr na_kept) (resolved clave_cols CNone d0).
Definition descripciones : Series :=
  map (descripcion_cell float_repr na_kept) (resolved desc_cols (CStr []) d0).
Definition precios (fs : list float) : Series :=
  map (fun f => CFloat (round2 f)) fs.

Lemma normalize_columns_spec : forall df st,
  df < length st ->
  set_labels (strip_label float_repr) (deref st df) = d0 ->
  match mapM (clean_price float_repr) (resolved price_cols (CFloat fzero) d0) with
  | Ok fs =>
      exists d6,
        normalize_columns float_repr na_kept df st
        = (Ok (S (length st), true),
           update st df d0
           ++ [d6; mkDF [(CStr CLAVE, claves); (CStr DESCRIPCION, descripciones);
                         (CStr PRECIO, precios fs)] (df_len d0)])
  | Raise e =>
      exists d5,
        normalize_columns float_repr na_kept df st = (Raise e, update st df d0 ++ [d5])
  end.
Proof.
  intros df st Hdf Hd0. rewrite normalize_columns_eq by assumption.
  cbv zeta. rewrite Hd0. fold d3.
  assert (Hk : in_values CLAVE (build_col_map d0) = true)
    by (apply key_resolved_iff; eauto).
  rewrite Hk. cbn [negb].
  unfold coerce_clave. rewrite d3_clave.
  set (d4 := map_named CLAVE _ d3).
  assert (H4d : cols_named DESCRIPCION d4 = [resolved desc_cols (CStr []) d0])
    by (unfold d4; rewrite cols_named_map_named; exact d3_descripcion).
  assert (H4p : cols_named PRECIO d4 = [resolved price_cols (CFloat fzero) d0])
    by (unfold d4; rewrite cols_named_map_named; exact d3_precio).
  assert (H4k : cols_named CLAVE d4 = [claves])
    by (unfold d4; rewrite cols_named_map_named, d3_clave; reflexivity).
  unfold coerce_descripcion. rewrite H4d.
  set (d5 := map_named DESCRIPCION _ d4).
  assert (H5p : cols_named PRECIO d5 = [resolved price_cols (CFloat fzero) d0])
    by (unfold d5; rewrite cols_named_map_named; exact H4p).
  assert (H5k : cols_named CLAVE d5 = [claves])
    by (unfold d5; rewrite cols_named_map_named; exact H4k).
  assert (H5d : cols_named DESCRIPCION d5 = [descripciones])
    by (unfold d5; rewrite cols_named_map_named, H4d; reflexivity).
  unfold coerce_precio. rewrite H5p.
  destruct (mapM (clean_price float_repr)
              (resolved price_cols (CFloat fzero) d0)) as [fs|e];
    [|now exists d5].
  set (d6 := map_named PRECIO _ d5). exists d6.
  rewrite (select_singletons d6 claves descripciones (precios fs)).
  - change (df_len d6) with (df_len d3). rewrite d3_len. reflexivity.
  - unfold d6. rewrite cols_named_map_named. exact H5k.
  - unfold d6. rewrite cols_named_map_named. exact H5d.
  - unfold d6. rewrite cols_named_map_named, H5p. reflexivity.
Qed.

End NormalizeResult.

Lemma clean_price_raises : forall float_repr v e,
  clean_price float_repr v = Raise e -> e = OverflowError.
Proof.
  intros float_repr v e H. destruct v as [|b|z|f|s].
  - discriminate.
  - destruct b; discriminate.
  - unfold clean_price in H. cbn in H. now apply float_of_int_raises in H.
  - rewrite clean_price_float in H. discriminate.
  - rewrite clean_price_str in H. discriminate.
Qed.

Lemma mapM_raises : forall (X Y : Type) (f : X -> result Y) l e,
  mapM f l = Raise e -> exists x, In x l /\ f x = Raise e.
Proof.
  induction l as [|x l IH]; simpl; intros e H; [discriminate|].
  destruct (f x) as [y|e'] eqn:E.
  - destruct (mapM f l) as [ys|e'']; [discriminate|].
    inversion H; subst. destruct (IH e eq_refl) as (x' & Hin & Hx).
    exists x'. auto.
  - inversion H; subst. exists x. auto.
Qed.

(** What lines 80 and 81 make of one cell. A cell that is not missing
    becomes its stripped text, or its text; a missing one becomes the text
    of its value on pandas 2, and on pandas 3 stays missing as a key and
    becomes the empty string as a description. *)
Lemma coerced_cells : forall float_repr na_kept v,
  clave_cell float_repr na_kept v
  = (if na_kept && pd_isna v then CFloat nan
     else CStr (strip (py_str float_repr v))) /\
  descripcion_cell float_repr na_kept v
  = (if na_kept && pd_isna v then CStr []
     else CStr (py_str float_repr v)).
Proof.
  intros float_repr na_kept v. unfold clave_cell, descripcion_cell, astype_str.
  destruct (na_kept && pd_isna v); split; reflexivity.
Qed.

(** X15: for a raw table whose stripped headers are pairwise distinct,
    include a key spelling and do not include both ['Descripción'] and
    ['Descripcion'], normalization returns [ok = True] with a frame of
    exactly the columns ['Clave'], ['Descripcion'], ['Precio']: each
    cell under the first key spelling found after
    [.astype(str).str.strip()], each cell under the first description
    spelling found after [.astype(str).fillna("")] (or empty strings),
    and [clean_price] rounded to two decimals of each cell under the
    first price spelling found (or 0.0). A cell that is not missing
    becomes its stripped text as a key and its text as a description; a
    missing one becomes, on pandas 3, a missing key and an empty
    description, and on pandas 2 the text of its value. The one exception
    is a price cell on which [clean_price] raises: then normalization
    raises that [OverflowError]. *)
Theorem normalize_columns_result : forall float_repr na_kept df st c,
  df < length st ->
  let d0 := set_labels (strip_label float_repr) (deref st df) in
  NoDup (columns d0) ->
  ~ (In (CStr DESCRIPCION_ACENTO) (columns d0)
     /\ In (CStr DESCRIPCION) (columns d0)) ->
  first_match clave_cols d0 = Some c ->
  let '(res, st') := normalize_columns float_repr na_kept df st in
  match mapM (clean_price float_repr)
             (resolved price_cols (CFloat fzero) d0) with
  | Ok fs =>
      exists out,
        res = Ok (out, true) /\
        deref st' out
        = mkDF [(CStr CLAVE,
                 map (fun v => if na_kept && pd_isna v then CFloat nan
                               else CStr (strip (py_str float_repr v)))
                     (resolved clave_cols CNone d0));
                (CStr DESCRIPCION,
                 map (fun v => if na_kept && pd_isna v then CStr []
                               else CStr (py_str float_repr v))
                     (resolved desc_cols (CStr []) d0));
                (CStr PRECIO, map (fun f => CFloat (round2 f)) fs)]
               (df_len (deref st df))
  | Raise e => res = Raise e /\ e = OverflowError
  end.
Proof.
  intros float_repr na_kept df st c Hdf d0 Hnd Hdesc Hc.
  pose proof (normalize_columns_spec float_repr na_kept d0 Hnd Hdesc c Hc df st Hdf
                eq_refl) as H.
  destruct (mapM (clean_price float_repr)
              (resolved price_cols (CFloat fzero) d0)) as [fs|e] eqn:E.
  - destruct H as [d6 ->]. exists (S (length st)). split; [reflexivity|].
    rewrite <- (length_update st df d0) at 1. rewrite deref_app_second.
    unfold claves, descripciones, precios. do 2 f_equal.
    + f_equal. apply map_ext. intro v. apply coerced_cells.
    + f_equal. f_equal. apply map_ext. intro v. apply coerced_cells.
  - destruct H as [d5 ->]. split; [reflexivity|].
    apply mapM_raises in E. destruct E as (x & _ & Hx).
    now apply clean_price_raises in Hx.
Qed.

Lemma normalize_columns_result_witness :
  let d0 := set_labels (strip_label repr_unused) (deref [frame_codigo] 0) in
  let '(res, st') := normalize_columns repr_unused true 0 [frame_codigo] in
  match mapM (clean_price repr_unused)
             (resolved price_cols (CFloat fzero) d0) with
  | Ok fs =>
      exists out,
        res = Ok (out, true) /\
        deref st' out
        = mkDF [(CStr CLAVE,
                 map (fun v => if true && pd_isna v then CFloat nan
                               else CStr (strip (py_str repr_unused v)))
                     (resolved clave_cols CNone d0));
                (CStr DESCRIPCION,
                 map (fun v => if true && pd_isna v then CStr []
                               else CStr (py_str repr_unused v))
                     (resolved desc_cols (CStr []) d0));
                (CStr PRECIO, map (fun f => CFloat (round2 f)) fs)]
               (df_len (deref [frame_codigo] 0))
  | Raise e => res = Raise e /\ e = OverflowError
  end.
Proof.
  apply (normalize_columns_result repr_unused true 0 [frame_codigo] (lit "codigo")).
  - simpl. lia.
  - vm_compute. repeat constructor; simpl; intro H; decompose [or] H;
      try discriminate; contradiction.
  - intros [H _]. vm_compute in H. decompose [or] H; try discriminate;
      contradiction.
  - reflexivity.
Defined.

(** A raw table with a missing key cell and a missing description. *)
Definition frame_missing_cells : DataFrame :=
  mkDF [(CStr (lit "Clave"), [CStr (lit " X1 "); CNone]);
        (CStr (lit "Nombre"), [CFloat nan; CStr (lit "Oil")]);
        (CStr (lit "Precio"), [CInt 10; CStr (lit "$2.50")])] 2.

(** On [frame_missing_cells] pandas 3 leaves the missing key missing and
    writes an empty description; pandas 2 writes ['None'] and ['nan']. *)
Example normalize_missing_cells_run :
  deref (snd (normalize_columns repr_unused true 0 [frame_missing_cells])) 2
  = mkDF [(CStr CLAVE, [CStr (lit "X1"); CFloat nan]);
          (CStr DESCRIPCION, [CStr []; CStr (lit "Oil")]);
          (CStr PRECIO, [CFloat 10; CFloat 2.5])] 2 /\
  deref (snd (normalize_columns repr_unused false 0 [frame_missing_cells])) 2
  = mkDF [(CStr CLAVE, [CStr (lit "X1"); CStr (lit "None")]);
          (CStr DESCRIPCION, [CStr (lit "nan"); CStr (lit "Oil")]);
          (CStr PRECIO, [CFloat 10; CFloat 2.5])] 2.
Proof. split; vm_compute; reflexivity. Qed.

(** ** From the returned frame to the rows the analysis reads *)

Fixpoint table_of (ks ds : list pystr) (ps : list float) : CanonicalTable :=
  match ks, ds, ps with
  | k :: ks', d :: ds', p :: ps' => mkRecord k d p :: table_of ks' ds' ps'
  | _, _, _ => []
  end.

Lemma zip_rows_typed : forall ks ds ps,
  length ks = length ds -> length ds = length ps ->
  zip_rows (map CStr ks) (map CStr ds) (map CFloat ps)
  = Some (table_of ks ds ps).
Proof.
  induction ks as [|k ks IH]; intros [|d ds] [|p ps] H1 H2;
    try discriminate; [reflexivity|].
  cbn [map zip_rows canonical_row table_of].
  rewrite IH by (simpl in *; lia). reflexivity.
Qed.

Lemma table_of_keys : forall ks ds ps,
  length ks = length ds -> length ds = length ps ->
  keys (table_of ks ds ps) = ks.
Proof.
  induction ks as [|k ks IH]; intros [|d ds] [|p ps] H1 H2;
    try discriminate; [reflexivity|].
  cbn [table_of keys map Clave]. f_equal. apply IH; simpl in *; lia.
Qed.

Lemma resolved_length : forall cands default d,
  wf_frame d -> NoDup (columns d) ->
  length (resolved cands default d) = df_len d.
Proof.
  intros cands default d Hwf Hnd. unfold resolved.
  destruct (first_match cands d) as [x|] eqn:E; [|apply repeat_length].
  destruct (first_match_In _ _ _ E) as [_ Hx].
  destruct (cols_named_unique x d Hnd Hx) as (s & -> & Hin).
  unfold wf_frame in Hwf. rewrite Forall_forall in Hwf.
  exact (Hwf _ Hin).
Qed.

(** X16: under the same conditions on the headers, and when no key cell
    is missing (or the release is pandas 2, which writes a missing key
    out), the frame of a successful normalization is a canonical table:
    its three columns hold strings, strings and floats, it has one record
    per row of the raw table, in the same order, and every key is the
    stripped [str] of the raw key cell, so no key starts or ends with
    whitespace. *)
Theorem normalize_gives_canonical_table : forall float_repr na_kept df st out st',
  df < length st -> wf_frame (deref st df) ->
  let d0 := set_labels (strip_label float_repr) (deref st df) in
  NoDup (columns d0) ->
  ~ (In (CStr DESCRIPCION_ACENTO) (columns d0)
     /\ In (CStr DESCRIPCION) (columns d0)) ->
  na_kept = false
  \/ Forall (fun v => pd_isna v = false) (resolved clave_cols CNone d0) ->
  normalize_columns float_repr na_kept df st = (Ok (out, true), st') ->
  exists t,
    canonical_rows (deref st' out) = Some t /\
    length t = df_len (deref st df) /\
    keys t = map (fun v => strip (py_str float_repr v))
                 (resolved clave_cols CNone d0) /\
    Forall (fun r => strip (Clave r) = Clave r) t.
Proof.
  intros float_repr na_kept df st out st' Hdf Hwf d0 Hnd Hdesc Hkeys Hn.
  destruct (normalize_columns_success float_repr na_kept df st out st' Hdf Hn)
    as (c & _ & _ & _ & Hc & _).
  fold d0 in Hc.
  pose proof (normalize_columns_spec float_repr na_kept d0 Hnd Hdesc c Hc df st Hdf
                eq_refl) as H.
  assert (Hwf0 : wf_frame d0) by now apply wf_set_labels.
  destruct (mapM (clean_price float_repr)
              (resolved price_cols (CFloat fzero) d0)) as [fs|e] eqn:E;
    destruct H as [d H]; rewrite H in Hn; [|discriminate].
  inversion Hn; subst out st'. clear Hn H.
  match goal with
  | |- context [deref (?s ++ [?x; ?y]) _] =>
      pose proof (deref_app_second s x y) as Hd
  end.
  rewrite length_update in Hd. rewrite Hd. clear Hd.
  unfold canonical_rows. cbn [df_cols label_is].
  rewrite !pystr_eqb_refl. cbn [andb].
  unfold claves, descripciones, precios.
  set (desc_text := fun v => if na_kept && pd_isna v then []
                             else py_str float_repr v).
  assert (Ek : map (clave_cell float_repr na_kept) (resolved clave_cols CNone d0)
               = map CStr (map (fun v => strip (py_str float_repr v))
                               (resolved clave_cols CNone d0))).
  { rewrite map_map. apply map_ext_in. intros v Hv.
    rewrite (proj1 (coerced_cells float_repr na_kept v)).
    destruct Hkeys as [->|Hk]; [reflexivity|].
    rewrite Forall_forall in Hk. rewrite (Hk v Hv), andb_false_r. reflexivity. }
  assert (Ed : map (descripcion_cell float_repr na_kept)
                   (resolved desc_cols (CStr []) d0)
               = map CStr (map desc_text (resolved desc_cols (CStr []) d0))).
  { rewrite map_map. apply map_ext. intro v.
    rewrite (proj2 (coerced_cells float_repr na_kept v)). unfold desc_text.
    now destruct (na_kept && pd_isna v). }
  rewrite Ek, Ed.
  rewrite <- (map_map round2 CFloat).
  pose proof (resolved_length clave_cols CNone d0 Hwf0 Hnd) as Lk.
  pose proof (resolved_length desc_cols (CStr []) d0 Hwf0 Hnd) as Ld.
  pose proof (resolved_length price_cols (CFloat fzero) d0 Hwf0 Hnd) as Lp.
  apply mapM_length in E.
  assert (L1 : length (map (fun v => strip (py_str float_repr v))
                           (resolved clave_cols CNone d0))
               = length (map desc_text (resolved desc_cols (CStr []) d0)))
    by (rewrite !length_map; congruence).
  assert (L2 : length (map desc_text (resolved desc_cols (CStr []) d0))
               = length (map round2 fs))
    by (rewrite !length_map; congruence).
  rewrite (zip_rows_typed _ _ _ L1 L2). eexists. split; [reflexivity|].
  pose proof (table_of_keys _ _ _ L1 L2) as Hk.
  split; [|split].
  - rewrite <- (length_map Clave). fold (keys (table_of
      (map (fun v => strip (py_str float_repr v)) (resolved clave_cols CNone d0))
      (map desc_text (resolved desc_cols (CStr []) d0))
      (map round2 fs))).
    rewrite Hk, length_map, Lk. reflexivity.
  - exact Hk.
  - apply Forall_forall. intros r Hr.
    assert (Hin : In (Clave r) (keys (table_of
      (map (fun v => strip (py_str float_repr v)) (resolved clave_cols CNone d0))
      (map desc_text (resolved desc_cols (CStr []) d0))
      (map round2 fs)))) by (unfold keys; now apply in_map).
    rewrite Hk in Hin. apply in_map_iff in Hin. destruct Hin as (v & <- & _).
    apply strip_idempotent.
Qed.

Lemma normalize_gives_canonical_table_witness :
  let st' := snd (normalize_columns repr_unused true 0 [frame_codigo]) in
  let d0 := set_labels (strip_label repr_unused) (deref [frame_codigo] 0) in
  exists t,
    canonical_rows (deref st' 2) = Some t /\
    length t = df_len (deref [frame_codigo] 0) /\
    keys t = map (fun v => strip (py_str repr_unused v))
                 (resolved clave_cols CNone d0) /\
    Forall (fun r => strip (Clave r) = Clave r) t.
Proof.
  apply (normalize_gives_canonical_table repr_unused true 0 [frame_codigo] 2).
  - simpl. lia.
  - repeat constructor.
  - vm_compute. repeat constructor; simpl; intro H; decompose [or] H;
      try discriminate; contradiction.
  - intros [H _]. vm_compute in H. decompose [or] H; try discriminate;
      contradiction.
  - right. vm_compute. repeat constructor.
  - vm_compute. reflexivity.
Defined.

(** With a missing key cell the frame pandas 3 returns is not a canonical
    table: its key column holds a missing value. *)
Example normalize_missing_key_not_canonical :
  canonical_rows
    (deref (snd (normalize_columns repr_unused true 0 [frame_missing_cells])) 2)
  = None.
Proof. vm_compute. reflexivity. Qed.

(** ** Headers that collide once stripped *)

(** X17: when two or more headers strip to the key spelling that is found
    (['Clave'] and ['Clave '], say), [df['Clave']] is a frame, [.str] does
    not exist on it, and normalization raises [AttributeError] instead of
    returning a flag. *)
Theorem normalize_duplicate_key_header : forall float_repr na_kept df st c,
  df < length st ->
  let d0 := set_labels (strip_label float_repr) (deref st df) in
  first_match clave_cols d0 = Some c ->
  2 <= length (cols_named c d0) ->
  fst (normalize_columns float_repr na_kept df st) = Raise AttributeError.
Proof.
  intros float_repr na_kept df st c Hdf d0 Hc Hlen.
  rewrite normalize_columns_eq by assumption. cbv zeta. fold d0.
  assert (Hk : in_values CLAVE (build_col_map d0) = true)
    by (apply key_resolved_iff; eauto).
  rewrite Hk. cbn [negb]. unfold coerce_clave.
  rewrite cols_named_clave_fill, (cols_named_clave_rename _ _ Hc).
  destruct (cols_named c d0) as [|s1 [|s2 l]]; simpl in Hlen; try lia.
  reflexivity.
Qed.

(** A raw table with the key header twice, once padded. *)
Definition frame_two_keys : DataFrame :=
  mkDF [(CStr (lit "Clave"), [CStr (lit "X1")]);
        (CStr (lit "Clave "), [CStr (lit "X2")]);
        (CStr (lit "Precio"), [CInt 10])] 1.

Lemma normalize_duplicate_key_header_witness :
  fst (normalize_columns repr_unused true 0 [frame_two_keys]) = Raise AttributeError.
Proof.
  apply (normalize_duplicate_key_header repr_unused true 0 [frame_two_keys] CLAVE).
  - simpl. lia.
  - reflexivity.
  - vm_compute. lia.
Defined.

Lemma fill_descripcion_present : forall d,
  cols_named DESCRIPCION (fill_defaults d) <> [].
Proof.
  intro d. rewrite (proj1 (cols_named_fill d)), in_columns_cols_named.
  destruct (cols_named DESCRIPCION d); cbn [empty negb]; discriminate.
Qed.

(** X18: when the key column is there once and two or more headers strip
    to the price spelling that is found, [apply] hands [clean_price] whole
    columns and normalization of a table with at least one row raises
    [ValueError]. *)
Theorem normalize_duplicate_price_header : forall float_repr na_kept df st c cp,
  df < length st ->
  let d0 := set_labels (strip_label float_repr) (deref st df) in
  first_match clave_cols d0 = Some c ->
  length (cols_named c d0) = 1 ->
  first_match price_cols d0 = Some cp ->
  2 <= length (cols_named cp d0) ->
  0 < df_len (deref st df) ->
  fst (normalize_columns float_repr na_kept df st) = Raise ValueError.
Proof.
  intros float_repr na_kept df st c cp Hdf d0 Hc Hone Hp Hlen Hrows.
  rewrite normalize_columns_eq by assumption. cbv zeta. fold d0.
  assert (Hk : in_values CLAVE (build_col_map d0) = true)
    by (apply key_resolved_iff; eauto).
  rewrite Hk. cbn [negb].
  set (d3 := fill_defaults (rename (build_col_map d0) d0)).
  assert (H3k : cols_named CLAVE d3 = cols_named c d0)
    by (unfold d3; now rewrite cols_named_clave_fill,
                              (cols_named_clave_rename _ _ Hc)).
  assert (H3p : cols_named PRECIO d3 = cols_named cp d0).
  { unfold d3. rewrite (proj2 (cols_named_fill _)), in_columns_cols_named.
    rewrite (cols_named_precio_rename _ _ Hp).
    destruct (cols_named cp d0); [simpl in Hlen; lia|reflexivity]. }
  unfold coerce_clave. rewrite H3k.
  destruct (cols_named c d0) as [|s [|s' l]]; try discriminate. clear Hone.
  set (d4 := map_named CLAVE _ d3).
  unfold coerce_descripcion.
  assert (H4d : cols_named DESCRIPCION d4 <> []).
  { unfold d4. rewrite cols_named_map_named. cbn.
    apply fill_descripcion_present. }
  destruct (cols_named DESCRIPCION d4) as [|sd ld] eqn:Ed; [congruence|].
  set (d5 := map_named DESCRIPCION _ d4).
  unfold coerce_precio.
  assert (H5p : cols_named PRECIO d5 = cols_named cp d0).
  { unfold d5, d4. rewrite !cols_named_map_named. cbn. exact H3p. }
  rewrite H5p.
  destruct (cols_named cp d0) as [|p1 [|p2 lp]]; simpl in Hlen; try lia.
  change (df_len d5) with (df_len d3). unfold d3.
  rewrite df_len_fill_defaults.
  change (df_len (rename (build_col_map d0) d0)) with (df_len (deref st df)).
  destruct (df_len (deref st df)); [lia|reflexivity].
Qed.

(** A raw table with the price header twice, once padded. *)
Definition frame_two_prices : DataFrame :=
  mkDF [(CStr (lit "Clave"), [CStr (lit "X1")]);
        (CStr (lit "Precio"), [CInt 10]);
        (CStr (lit " Precio"), [CInt 12])] 1.

Lemma normalize_duplicate_price_header_witness :
  fst (normalize_columns repr_unused true 0 [frame_two_prices]) = Raise ValueError.
Proof.
  apply (normalize_duplicate_price_header repr_unused true 0 [frame_two_prices]
           CLAVE PRECIO).
  - simpl. lia.
  - reflexivity.
  - reflexivity.
  - reflexivity.
  - vm_compute. lia.
  - vm_compute. lia.
Defined.

(* ================================================================= *)
(** * The longest match is found: one description inside the other *)

Module LongestFacts.
Import Difflib.

Section Longest.

Variables a b : pystr.
Variables alo ahi blo bhi : nat.

(** [b] has no popular element (it has fewer than 200), and the window
    lies inside [b]. *)
Hypothesis Hpop : forall c, popular b c = false.
Hypothesis Hbhi : bhi <= length b.

(** The [t] elements of [a] ending at [i] equal the [t] elements of [b]
    ending at [j], all inside the window. *)
Definition run_ends (i j t : nat) : Prop :=
  t <= i + 1 - alo /\ t <= j + 1 - blo /\ j < bhi /\
  forall u, u < t -> at_a a (i - u) = at_b b (j - u).

(** What row [i] needs of the previous row's [j2len]. *)
Definition prev_ok (i : nat) (m : j2len_t) : Prop :=
  forall j t, run_ends i j (S t) -> t <= j2len_prev m j.

(** Row [i] is recorded in [m] and in the best match. *)
Definition row_done (i : nat) (m : j2len_t) (bst : best_t) : Prop :=
  forall j t, run_ends i j (S t) -> S t <= m j /\ S t <= size bst.

Lemma flm_inner_runs : forall js i m new (bst : best_t),
  DifflibFacts.ascending js ->
  prev_ok i m ->
  (forall j t, run_ends i j (S t) ->
     In j js \/ (S t <= new j /\ S t <= size bst)) ->
  row_done i (fst (flm_inner i blo bhi m js new bst))
             (snd (flm_inner i blo bhi m js new bst)) /\
  size bst <= size (snd (flm_inner i blo bhi m js new bst)).
Proof.
  induction js as [|j js IH]; intros i m new bst Hasc Hprev Hinv;
    cbn [flm_inner].
  - cbn [fst snd]. split; [|lia].
    intros j t Hr. destruct (Hinv j t Hr) as [[]|H]. exact H.
  - destruct Hasc as [Hlt Hasc].
    destruct (j <? blo) eqn:Hj.
    + apply Nat.ltb_lt in Hj. apply IH; auto.
      intros j0 t Hr. destruct (Hinv j0 t Hr) as [[<-|H]|H]; auto.
      destruct Hr as (_ & H2 & _). lia.
    + destruct (bhi <=? j) eqn:Hj'.
      * apply Nat.leb_le in Hj'. cbn [fst snd]. split; [|lia].
        intros j0 t Hr. destruct (Hinv j0 t Hr) as [[<-|H]|H]; auto.
        -- destruct Hr as (_ & _ & H3 & _). lia.
        -- apply Hlt in H. destruct Hr as (_ & _ & H3 & _). lia.
      * destruct bst as [[bi bj] bk].
        set (k := j2len_prev m j + 1).
        set (bst' := if bk <? k then (i + 1 - k, j + 1 - k, k) else (bi, bj, bk)).
        assert (Hsz : bk <= size bst' /\ k <= size bst').
        { unfold bst'. destruct (bk <? k) eqn:E; unfold size; cbn [snd].
          - apply Nat.ltb_lt in E. lia.
          - apply Nat.ltb_ge in E. lia. }
        destruct (IH i m (j2len_set new j k) bst' Hasc Hprev) as [H1 H2].
        { intros j0 t Hr.
          destruct (Nat.eq_dec j0 j) as [->|Hne].
          - right. unfold j2len_set. rewrite Nat.eqb_refl.
            pose proof (Hprev j t Hr). unfold k. lia.
          - destruct (Hinv j0 t Hr) as [[Heq|H]|[H H']]; [congruence|auto|].
            right. unfold j2len_set.
            assert (E : Nat.eqb j0 j = false) by now apply Nat.eqb_neq.
            rewrite E. unfold size in *. cbn [snd] in *. lia. }
        split; [exact H1|]. unfold size in *. cbn [snd] in *. lia.
Qed.

Lemma prev_ok_first : forall m, prev_ok alo m.
Proof. intros m j t (H1 & _). lia. Qed.

Lemma prev_ok_next : forall i m (bst : best_t), row_done i m bst -> prev_ok (S i) m.
Proof.
  intros i m bst Hd j t Hr. destruct t as [|t]; [lia|].
  destruct Hr as (H1 & H2 & H3 & H4).
  destruct j as [|j]; [lia|]. cbn [j2len_prev].
  apply (Hd j t). repeat split; try lia.
  intros u Hu. specialize (H4 (S u) ltac:(lia)).
  replace (S i - S u) with (i - u) in H4 by lia.
  replace (S j - S u) with (j - u) in H4 by lia. exact H4.
Qed.

Lemma flm_row_runs : forall i m (bst : best_t),
  prev_ok i m ->
  let st := flm_row a b blo bhi (m, bst) i in
  row_done i (fst st) (snd st) /\ size bst <= size (snd st).
Proof.
  intros i m bst Hprev. unfold flm_row. cbn [fst snd].
  apply flm_inner_runs; auto.
  - unfold b2j_get. rewrite Hpop. apply DifflibFacts.indices_from_ascending.
  - intros j t (H1 & H2 & H3 & H4). left.
    unfold b2j_get. rewrite Hpop. apply DifflibFacts.indices_from_In.
    split; [lia|]. split; [lia|].
    specialize (H4 0 ltac:(lia)). rewrite !Nat.sub_0_r in *.
    unfold at_a, at_b in H4. now symmetry.
Qed.

Lemma flm_rows_runs : forall n s m (bst : best_t),
  prev_ok s m ->
  (forall i j t, alo <= i < s -> run_ends i j t -> t <= size bst) ->
  forall i j t, alo <= i < s + n -> run_ends i j t ->
    t <= size (snd (fold_left (flm_row a b blo bhi) (seq s n) (m, bst))).
Proof.
  induction n as [|n IH]; intros s m bst Hprev Hbest i j t Hi Hr;
    cbn [seq fold_left].
  - cbn [snd]. apply (Hbest i j); [lia|exact Hr].
  - destruct (flm_row_runs s m bst Hprev) as [Hd Hsz].
    destruct (flm_row a b blo bhi (m, bst) s) as [m' bst'] eqn:E.
    rewrite ?E in Hd, Hsz. cbn [fst snd] in Hd, Hsz.
    apply (IH (S s) m' bst') with (i := i) (j := j);
      [apply prev_ok_next with bst'; exact Hd | | lia | exact Hr].
    intros i' j' t' Hi' Hr'.
    destruct (Nat.eq_dec i' s) as [->|Hne].
    + destruct t' as [|t']; [lia|]. now apply (Hd j' t').
    + pose proof (Hbest i' j' t' ltac:(lia) Hr'). lia.
Qed.

Lemma flm_main_runs : forall i j t,
  alo <= i < ahi -> run_ends i j t ->
  t <= size (flm_main a b alo ahi blo bhi).
Proof.
  intros i j t Hi Hr. unfold flm_main.
  apply (flm_rows_runs (ahi - alo) alo j2len_empty (alo, blo, 0)) with i j;
    [apply prev_ok_first | intros; lia | lia | exact Hr].
Qed.

Lemma extend_left_size : forall junk bi bj bk,
  bk <= size (extend_left a b junk alo blo bi bj bk).
Proof.
  induction bi as [|i' IH]; intros bj bk; cbn [extend_left];
    [unfold size; simpl; lia|].
  destruct bj as [|j']; [unfold size; simpl; lia|].
  match goal with |- _ <= size (if ?c then _ else _) => destruct c end;
    [|unfold size; simpl; lia].
  specialize (IH j' (S bk)). lia.
Qed.

Lemma extend_right_size : forall n junk bi bj bk,
  bk <= extend_right a b n junk ahi bhi bi bj bk.
Proof.
  induction n as [|n IH]; intros junk bi bj bk; cbn [extend_right]; [lia|].
  match goal with |- _ <= (if ?c then _ else _) => destruct c end; [|lia].
  specialize (IH junk bi bj (S bk)). lia.
Qed.

Lemma extend_size : forall junk (bst : best_t),
  size bst <= size (extend a b junk alo ahi blo bhi bst).
Proof.
  intros junk [[bi bj] bk]. unfold extend.
  pose proof (extend_left_size junk bi bj bk) as H.
  destruct (extend_left a b junk alo blo bi bj bk) as [[i j] k].
  pose proof (extend_right_size (ahi - (i + k)) junk i j k) as H'.
  unfold size in *. cbn [snd] in *. lia.
Qed.

(** No common run of the window is longer than the match
    [find_longest_match] returns. *)
Lemma find_longest_match_longest : forall i j t,
  alo <= i < ahi -> run_ends i j t ->
  t <= size (find_longest_match a b alo ahi blo bhi).
Proof.
  intros i j t Hi Hr. unfold find_longest_match.
  pose proof (flm_main_runs i j t Hi Hr) as H.
  pose proof (extend_size false (flm_main a b alo ahi blo bhi)) as H1.
  pose proof (extend_size true
                (extend a b false alo ahi blo bhi
                   (flm_main a b alo ahi blo bhi))) as H2.
  lia.
Qed.

End Longest.

Lemma blocks_loop_grows : forall a b fuel q bl r,
  blocks_loop a b fuel q bl = Some r -> sum_sizes bl <= sum_sizes r.
Proof.
  intros a b. induction fuel as [|fuel IH]; intros q bl r H.
  - destruct q; [|discriminate]. inversion H. lia.
  - destruct q as [|w q]; [inversion H; lia|].
    cbn [blocks_loop] in H.
    destruct (step a b w q bl) as [q' bl'] eqn:E.
    apply IH in H. unfold step in E.
    destruct w as [[[wa wb] wc] wd].
    destruct (find_longest_match a b wa wb wc wd) as [[i j] k].
    destruct (Nat.eqb k 0).
    + inversion E; subst. exact H.
    + inversion E; subst. rewrite DifflibFacts.sum_sizes_app in H. lia.
Qed.

(** A block of [k] equal elements, anywhere in both sequences, gives at
    least [k] matched elements when [b] has fewer than 200. *)
Lemma common_block_matched : forall a b i0 j0 k,
  length b < 200 ->
  i0 + k <= length a -> j0 + k <= length b ->
  (forall t, t < k -> at_a a (i0 + t) = at_b b (j0 + t)) ->
  exists bls, get_matching_blocks a b = Some bls /\ k <= sum_sizes bls.
Proof.
  intros a b i0 j0 k Hb Ha Hbk Heq.
  destruct (DifflibFacts.get_matching_blocks_returns a b) as [bls Hbls].
  exists bls. split; [exact Hbls|].
  destruct k as [|k]; [lia|].
  assert (Hpop : forall c, popular b c = false).
  { intro c. unfold popular.
    assert (E : (200 <=? length b) = false) by (apply Nat.leb_gt; lia).
    now rewrite E. }
  assert (Hrun : run_ends a b 0 0 (length b) (i0 + k) (j0 + k) (S k)).
  { unfold run_ends. repeat split; try lia.
    intros u Hu. specialize (Heq (k - u) ltac:(lia)).
    replace (i0 + k - u) with (i0 + (k - u)) by lia.
    replace (j0 + k - u) with (j0 + (k - u)) by lia. exact Heq. }
  pose proof (find_longest_match_longest a b 0 (length a) 0 (length b)
                Hpop (le_n _) (i0 + k) (j0 + k) (S k) ltac:(lia) Hrun) as Hl.
  unfold get_matching_blocks in Hbls.
  replace (2 * length a + 2) with (S (2 * length a + 1)) in Hbls by lia.
  cbn [blocks_loop] in Hbls. unfold step in Hbls.
  destruct (find_longest_match a b 0 (length a) 0 (length b)) as [[i j] k'].
  unfold size in Hl. cbn [snd] in Hl.
  destruct (Nat.eqb k' 0) eqn:E; [apply Nat.eqb_eq in E; lia|].
  match type of Hbls with
  | match blocks_loop a b ?f ?q ?bl with _ => _ end = _ =>
      destruct (blocks_loop a b f q bl) as [r|] eqn:Er; [|discriminate]
  end.
  apply blocks_loop_grows in Er. inversion Hbls; subst bls.
  rewrite DifflibFacts.sum_sizes_app, DifflibFacts.sum_sizes_collapse,
    DifflibFacts.sum_sizes_sort.
  cbn [app sum_sizes fold_right size snd] in Er. lia.
Qed.

(** When one sequence occurs as a contiguous piece of the other, the
    matched total is the length of the shorter one. *)
Lemma contained_matched : forall u v p s,
  length v < 200 ->
  u = p ++ v ++ s \/ v = p ++ u ++ s ->
  exists bls,
    get_matching_blocks u v = Some bls /\
    sum_sizes bls = Nat.min (length u) (length v).
Proof.
  intros u v p s Hv Hc.
  assert (Hex : exists i0 j0,
            i0 + Nat.min (length u) (length v) <= length u /\
            j0 + Nat.min (length u) (length v) <= length v /\
            forall t, t < Nat.min (length u) (length v) ->
              at_a u (i0 + t) = at_b v (j0 + t)).
  { destruct Hc as [Hc|Hc].
    - exists (length p), 0. subst u. rewrite !length_app.
      split; [lia|]. split; [lia|]. intros t Ht. unfold at_a, at_b.
      rewrite app_nth2_plus, app_nth1 by lia. reflexivity.
    - exists 0, (length p). subst v. rewrite !length_app.
      split; [lia|]. split; [lia|]. intros t Ht. unfold at_a, at_b.
      rewrite app_nth2_plus, app_nth1 by lia. reflexivity. }
  destruct Hex as (i0 & j0 & H1 & H2 & H3).
  destruct (common_block_matched u v i0 j0 _ Hv H1 H2 H3) as (bls & Hb & Hk).
  exists bls. split; [exact Hb|].
  destruct (DifflibFacts.matched_le u v bls Hb). lia.
Qed.

End LongestFacts.

(** X19: when the lower-cased form of one description occurs as a
    contiguous piece of the lower-cased form of the other, and the second
    one has fewer than 200 characters, the similarity is
    [2 * min(len) / (len_1 + len_2) * 100]: all of the shorter description
    is matched. *)
Theorem similarity_of_contained : forall lower a b p s,
  a <> [] -> b <> [] ->
  length (lower b) < 200 ->
  lower a = p ++ lower b ++ s \/ lower b = p ++ lower a ++ s ->
  calculate_text_similarity lower a b
  = Some (Difflib.calculate_ratio
            (Nat.min (length (lower a)) (length (lower b)))
            (length (lower a) + length (lower b)) * 100)%float.
Proof.
  intros lower a b p s Ha Hb Hlen Hc. unfold calculate_text_similarity.
  destruct a as [|x a]; [congruence|]. destruct b as [|y b]; [congruence|].
  cbn [is_empty orb]. unfold Difflib.ratio.
  destruct (LongestFacts.contained_matched _ _ p s Hlen Hc) as (bls & -> & ->).
  reflexivity.
Qed.

Lemma similarity_of_contained_witness :
  calculate_text_similarity ascii_lower (lit "Brake Pad") (lit "BRAKE PAD SET")
  = Some (Difflib.calculate_ratio 9 22 * 100)%float.
Proof.
  apply (similarity_of_contained ascii_lower (lit "Brake Pad")
           (lit "BRAKE PAD SET") [] (lit " set")).
  - discriminate.
  - discriminate.
  - vm_compute. lia.
  - right. reflexivity.
Defined.

(* ================================================================= *)
(** * No price is NaN *)

Module NanFacts.

Definition not_nan (x : spec_float) : bool :=
  match x with
  | S754_nan => false
  | _ => true
  end.

Section Rounding.

Local Open Scope Z_scope.

Lemma is_nan_SF : forall f, is_nan f = negb (not_nan (Prim2SF f)).
Proof.
  intro f. unfold is_nan. rewrite eqb_spec. unfold SFeqb.
  destruct (Prim2SF f) as [s|s| |s m e]; try (destruct s; reflexivity);
    [reflexivity|].
  now rewrite SFcompare_refl_finite.
Qed.

Lemma shr_nonneg : forall m l e n,
  0 <= m -> 0 <= shr_m (fst (shr (shr_record_of_loc m l) e n)).
Proof.
  intros m l e n Hm. destruct n as [|p|p].
  - destruct l as [|[| |]]; exact Hm.
  - destruct (FloatFacts.shr_spec m l e (Zpos p) Hm ltac:(lia))
      as (_ & _ & H & _).
    rewrite H. apply Z.div_pos; [exact Hm|]. apply Z.pow_pos_nonneg; lia.
  - destruct l as [|[| |]]; exact Hm.
Qed.

Lemma round_nonneg : forall R,
  0 <= shr_m R -> 0 <= round_nearest_even (shr_m R) (loc_of_shr_record R).
Proof.
  intros R H.
  destruct (FloatFacts.round_cases R) as [[_ ->]|[_ [->| ->]]]; lia.
Qed.

(** Rounding a non-negative mantissa gives a zero, a finite number or
    an infinity. *)
Lemma round_aux_not_nan : forall s m e l,
  0 <= m -> not_nan (binary_round_aux prec emax s m e l) = true.
Proof.
  intros s m e l Hm. unfold binary_round_aux, shr_fexp.
  pose proof (shr_nonneg m l e
                (fexp prec emax (Zdigits2 m + e) - e) Hm) as H1.
  destruct (shr (shr_record_of_loc m l) e
              (fexp prec emax (Zdigits2 m + e) - e)) as [R1 e1].
  cbn [fst] in H1. apply round_nonneg in H1.
  set (m2 := round_nearest_even (shr_m R1) (loc_of_shr_record R1)) in *.
  pose proof (shr_nonneg m2 loc_Exact e1
                (fexp prec emax (Zdigits2 m2 + e1) - e1) H1) as H2.
  destruct (shr (shr_record_of_loc m2 loc_Exact) e1
              (fexp prec emax (Zdigits2 m2 + e1) - e1)) as [R2 e2].
  cbn [fst] in H2.
  destruct (shr_m R2) as [|q|q]; [reflexivity| |lia].
  now destruct (e2 <=? emax - prec).
Qed.

Lemma round_not_nan : forall s m e,
  not_nan (binary_round prec emax s m e) = true.
Proof.
  intros s m e. unfold binary_round.
  destruct (shl_align m e (fexp prec emax (Zpos (digits2_pos m) + e)))
    as [mz ez].
  apply round_aux_not_nan. lia.
Qed.

Lemma normalize_not_nan : forall m e z,
  not_nan (binary_normalize prec emax m e z) = true.
Proof.
  intros [|p|p] e z; cbn [binary_normalize];
    [reflexivity|apply round_not_nan|apply round_not_nan].
Qed.

Lemma div_core_nonneg : forall m1 e1 m2 e2 q e l,
  SFdiv_core_binary prec emax (Zpos m1) e1 (Zpos m2) e2 = (q, e, l) ->
  0 <= q.
Proof.
  intros m1 e1 m2 e2 q e l. unfold SFdiv_core_binary.
  set (s := e1 - e2 - _).
  set (m' := match s with
             | 0 => Zpos m1
             | Zpos _ => Z.shiftl (Zpos m1) s
             | Zneg _ => 0
             end).
  assert (Hm' : 0 <= m').
  { unfold m'. destruct s; try lia. apply Z.shiftl_nonneg. lia. }
  destruct (Z.div_eucl m' (Zpos m2)) as [q' r'] eqn:E.
  intro H. inversion H; subst.
  assert (Hq : q = m' / Zpos m2) by (unfold Z.div; now rewrite E).
  rewrite Hq. apply Z.div_pos; lia.
Qed.

Lemma div_not_nan : forall x s m e,
  not_nan x = true ->
  not_nan (SFdiv prec emax x (S754_finite s m e)) = true.
Proof.
  intros [sx|sx| |sx mx ex] s m e H; try reflexivity; try discriminate.
  cbn [SFdiv].
  destruct (SFdiv_core_binary prec emax (Zpos mx) ex (Zpos m) e)
    as [[q e'] l] eqn:E.
  apply round_aux_not_nan. now apply div_core_nonneg in E.
Qed.

Lemma mul_not_nan : forall x s m e,
  not_nan x = true ->
  not_nan (SFmul prec emax x (S754_finite s m e)) = true.
Proof.
  intros [sx|sx| |sx mx ex] s m e H; try reflexivity; try discriminate.
  cbn [SFmul]. apply round_aux_not_nan. lia.
Qed.

Lemma SF2Prim_not_nan : forall x,
  not_nan x = true -> is_nan (SF2Prim x) = false.
Proof.
  intros [s|s| |s m e] H; try (destruct s; reflexivity); [discriminate|].
  rewrite is_nan_SF. cbn [SF2Prim].
  assert (Hl : not_nan (Prim2SF (Z.ldexp (of_uint63 (Uint63.of_Z (Zpos m))) e))
               = true).
  { rewrite Z_ldexp_spec, of_uint63_spec.
    pose proof (normalize_not_nan
                  (Uint63.to_Z (Uint63.of_Z (Zpos m))) 0 false) as Hn.
    destruct (binary_normalize prec emax
                (Uint63.to_Z (Uint63.of_Z (Zpos m))) 0 false)
      as [s'|s'| |s' m' e']; try discriminate; try reflexivity.
    cbn [SFldexp]. apply round_not_nan. }
  destruct s; [|now rewrite Hl].
  rewrite opp_spec.
  destruct (Prim2SF (Z.ldexp (of_uint63 (Uint63.of_Z (Zpos m))) e));
    try discriminate; reflexivity.
Qed.

End Rounding.

Lemma float_of_int_not_nan : forall z f,
  float_of_int z = Ok f -> is_nan f = false.
Proof.
  intros z f. unfold float_of_int.
  pose proof (normalize_not_nan z 0 false) as H.
  destruct (binary_normalize prec emax z 0 false) as [s|s| |s m e];
    intro Hf; try discriminate; injection Hf as <-;
    exact (SF2Prim_not_nan _ H).
Qed.

Lemma decimal_value_not_nan : forall neg ip fp,
  is_nan (decimal_value neg ip fp) = false.
Proof.
  intros neg ip fp. unfold decimal_value.
  destruct (digits_value 0 (ip ++ fp)); try (destruct neg; reflexivity).
  unfold float_of_ratio. apply SF2Prim_not_nan. now apply div_not_nan.
Qed.

Lemma float_of_cleaned_not_nan : forall s f,
  float_of_cleaned s = Ok f -> is_nan f = false.
Proof.
  intros s f. unfold float_of_cleaned.
  destruct (match s with
            | c :: r => if char_eqb c MINUS then (true, r) else (false, s)
            | [] => (false, s)
            end) as [neg body].
  destruct (span_digits body) as [ip rest].
  destruct rest as [|c fp].
  - destruct ip; intro H; inversion H. apply decimal_value_not_nan.
  - destruct (char_eqb c DOT && forallb is_digit fp
              && negb (Nat.eqb (length ip + length fp) 0));
      intro H; inversion H. apply decimal_value_not_nan.
Qed.

Lemma clean_price_not_nan : forall float_repr v f,
  clean_price float_repr v = Ok f -> is_nan f = false.
Proof.
  intros float_repr v f H. destruct v as [|b|z|x|s].
  - inversion H. reflexivity.
  - destruct b; inversion H; reflexivity.
  - unfold clean_price in H. cbn in H. now apply float_of_int_not_nan in H.
  - rewrite clean_price_float in H. inversion H.
    destruct (is_nan x) eqn:E; [reflexivity|exact E].
  - rewrite clean_price_str in H. inversion H. unfold parsed_or_zero.
    destruct (float_of_cleaned (re_sub_non_numeric s)) eqn:E; [|reflexivity].
    now apply float_of_cleaned_not_nan in E.
Qed.

Lemma np_rint_not_nan : forall x, is_nan x = false -> is_nan (np_rint x) = false.
Proof.
  intros x H. unfold np_rint.
  destruct (Prim2SF x) as [s|s| |s m e]; try exact H.
  destruct e as [|pe|pe]; try exact H.
  apply SF2Prim_not_nan, normalize_not_nan.
Qed.

Lemma round2_not_nan : forall x, is_nan x = false -> is_nan (round2 x) = false.
Proof.
  intros x H. unfold round2.
  assert (Hm : is_nan (x * fhundred) = false).
  { rewrite is_nan_SF in *. rewrite mul_spec. unfold fhundred.
    rewrite FloatFacts.SF_hundred. unfold SF64mul.
    rewrite mul_not_nan; [reflexivity|].
    now destruct (not_nan (Prim2SF x)). }
  apply np_rint_not_nan in Hm.
  rewrite is_nan_SF in *. rewrite div_spec. unfold fhundred in *.
  rewrite FloatFacts.SF_hundred. unfold SF64div.
  rewrite div_not_nan; [reflexivity|].
  now destruct (not_nan (Prim2SF (np_rint (x * 100)))).
Qed.

End NanFacts.

(** X20: [clean_price] never returns NaN -- a NaN cell becomes 0.0 on line
    23 and neither [float] of a number nor [float] of a cleaned text gives
    one -- and rounding the value to two decimals on line 82 does not
    give NaN either. *)
Theorem clean_price_never_nan : forall float_repr v f,
  clean_price float_repr v = Ok f ->
  is_nan f = false /\ is_nan (round2 f) = false.
Proof.
  intros float_repr v f H.
  pose proof (NanFacts.clean_price_not_nan float_repr v f H) as Hn.
  split; [exact Hn|]. now apply NanFacts.round2_not_nan.
Qed.

Lemma clean_price_never_nan_witness :
  is_nan 0%float = false /\ is_nan (round2 0%float) = false.
Proof.
  apply (clean_price_never_nan repr_unused (CFloat nan) 0%float).
  reflexivity.
Defined.

(* ================================================================= *)
(** * Equal prices *)

Lemma is_finite_SF : forall p,
  is_finite p = true ->
  (exists s, Prim2SF p = S754_zero s) \/
  (exists s m e, Prim2SF p = S754_finite s m e).
Proof.
  intros p. unfold is_finite, is_infinity.
  rewrite NanFacts.is_nan_SF, eqb_spec, abs_spec.
  change (Prim2SF infinity) with (S754_infinity false).
  destruct (Prim2SF p) as [s|s| |s m e]; try discriminate; eauto.
Qed.

Lemma sub_self : forall p, is_finite p = true -> (p - p)%float = 0%float.
Proof.
  intros p H. apply Prim2SF_inj. rewrite sub_spec.
  change (Prim2SF 0) with (S754_zero false). unfold SF64sub.
  destruct (is_finite_SF p H) as [[s ->]|(s & m & e & ->)].
  - now destruct s.
  - cbn [SFsub]. now rewrite Z.sub_diag.
Qed.

Lemma zero_pct : forall p,
  is_finite p = true -> (pct_value 0 p =? 0)%float = true.
Proof.
  intros p H. unfold pct_value.
  destruct (p =? 0)%float eqn:E; [reflexivity|].
  rewrite eqb_spec in *. rewrite mul_spec, div_spec.
  unfold fhundred. rewrite FloatFacts.SF_hundred.
  change (Prim2SF 0) with (S754_zero false) in *.
  destruct (is_finite_SF p H) as [[s Hp]|(s & m & e & Hp)]; rewrite Hp in *.
  - destruct s; discriminate.
  - now destruct s.
Qed.

(** X21: a match whose two prices are equal and finite has
    ['Diferencia $'] exactly 0.0 and ['Diferencia %'] equal to 0, and its
    difference cell gets no style. *)
Theorem equal_prices_no_difference : forall lower ra rb,
  Precio ra = Precio rb -> is_finite (Precio ra) = true ->
  exists m,
    match_record lower ra rb = Ok m /\
    Diferencia_abs m = 0%float /\
    (Diferencia_pct m =? 0)%float = true /\
    highlight_diff (CFloat (Diferencia_abs m)) = [].
Proof.
  intros lower ra rb Heq Hfin. exists (match_value lower ra rb).
  split; [apply match_record_value|].
  unfold match_value. cbn [Diferencia_abs Diferencia_pct].
  rewrite <- Heq, (sub_self _ Hfin).
  change (round2 0) with 0%float.
  split; [reflexivity|]. split; [now apply zero_pct|reflexivity].
Qed.

Lemma equal_prices_no_difference_witness :
  exists m,
    match_record ascii_lower
      (mkRecord (lit "X1") (lit "Brake Pad") 100)
      (mkRecord (lit "X1") (lit "Brake Pad Set") 100) = Ok m /\
    Diferencia_abs m = 0%float /\
    (Diferencia_pct m =? 0)%float = true /\
    highlight_diff (CFloat (Diferencia_abs m)) = [].
Proof.
  apply (equal_prices_no_difference ascii_lower
           (mkRecord (lit "X1") (lit "Brake Pad") 100)
           (mkRecord (lit "X1") (lit "Brake Pad Set") 100)).
  - reflexivity.
  - reflexivity.
Defined.

(* ================================================================= *)
(** * The price columns of a match *)

(** The rows of the merge marked [both] are the pairs of a row of A and a
    row of B with the same key. *)
Lemma both_rows_iff : forall A B row,
  In row (with_indicator both (merge_outer A B))
  <-> exists ra rb,
        row = Both ra rb /\ In ra A /\ In rb B /\ Clave ra = Clave rb.
Proof.
  intros A B row. unfold with_indicator. rewrite filter_In. split.
  - intros [Hrow Hind]. destruct row as [ra|rb|ra rb]; try discriminate.
    unfold merge_outer in Hrow. apply in_flat_map in Hrow.
    destruct Hrow as (k & _ & Hrow). apply join_group_both in Hrow.
    destruct Hrow as [Ha Hb]. apply rows_with_In in Ha, Hb.
    exists ra, rb. repeat split; try tauto. destruct Ha, Hb. congruence.
  - intros (ra & rb & -> & Ha & Hb & Hk). split; [|reflexivity].
    apply in_flat_map. exists (Clave ra). split.
    + apply join_keys_In. left. now apply in_map.
    + apply join_group_both. split; apply rows_with_In; auto.
Qed.

(** What lines 162-163 put in the record [m] of the matched rows [ra] of A
    and [rb] of B. *)
Definition price_columns (ra rb : CanonicalRecord) (m : MatchRecord) : Prop :=
  Precio_A m = Precio ra /\ Precio_B m = Precio rb /\
  Diferencia_abs m = round2 (Precio rb - Precio ra)%float /\
  (if (Precio ra =? 0)%float
   then Diferencia_pct m = 0%float /\
        is_nan (Diferencia_pct m) = false /\
        is_infinity (Diferencia_pct m) = false
   else Diferencia_pct m
        = (round2 (Precio rb - Precio ra) / Precio ra * 100)%float).

Lemma match_record_prices : forall lower ra rb,
  price_columns ra rb (match_value lower ra rb).
Proof.
  intros lower ra rb. unfold price_columns, match_value, pct_value.
  cbn [Precio_A Precio_B Diferencia_abs Diferencia_pct].
  repeat split. destruct (Precio ra =? 0)%float; repeat split.
Qed.

(** C3: the reconciliation never raises, and every pair of a row of A and
    a row of B with the same key has its record among the matches, built
    from the prices of these two rows: the absolute difference is
    [price_b - price_a] rounded to two decimals, the percentage is exactly
    0 (finite, not NaN) when [price_a] equals 0, and
    [price_diff_abs / price_a * 100] otherwise. Every match is the record
    of such a pair. *)
Theorem price_difference_guard : forall lower A B,
  exists r,
    reconcile lower A B = Ok r /\
    (forall ra rb,
       In ra A -> In rb B -> Clave ra = Clave rb ->
       exists m,
         In m (common_df r) /\ match_record lower ra rb = Ok m /\
         price_columns ra rb m) /\
    (forall m,
       In m (common_df r) ->
       exists ra rb,
         In ra A /\ In rb B /\ Clave ra = Clave rb /\
         match_record lower ra rb = Ok m /\ price_columns ra rb m).
Proof.
  intros lower A B. exists (reconcile_value lower A B).
  split; [apply reconcile_returns|].
  unfold reconcile_value. cbn [common_df]. split.
  - intros ra rb Ha Hb Hk. exists (match_value lower ra rb).
    split; [|split; [apply match_record_value|apply match_record_prices]].
    apply in_map_iff. exists (Both ra rb). split; [reflexivity|].
    apply both_rows_iff. eauto 6.
  - intros m Hm. apply in_map_iff in Hm. destruct Hm as (row & <- & Hrow).
    apply both_rows_iff in Hrow.
    destruct Hrow as (ra & rb & -> & Ha & Hb & Hk).
    exists ra, rb. cbn [common_value].
    auto using match_record_value, match_record_prices.
Qed.

(* ================================================================= *)
(** * The caller's table after the call *)













(* ================================================================= *)
(** * Rows through a successful normalization *)

Lemma in_set_labels : forall f d l s,
  In (l, s) (df_cols (set_labels f d)) ->
  exists l0, In (l0, s) (df_cols d) /\ l = f l0.
Proof.
  intros f d l s H. cbn [set_labels df_cols] in H.
  apply in_map_iff in H. destruct H as ([l0 s0] & E & Hin).
  inversion E; subst. eauto.
Qed.

Lemma in_add_column : forall n v d l s,
  In (l, s) (df_cols (add_column n v d)) ->
  In (l, s) (df_cols d) \/ (l = CStr n /\ s = repeat v (df_len d)).
Proof.
  intros n v d l s H. cbn [add_column df_cols] in H.
  apply in_app_or in H. destruct H as [H|[H|[]]]; [now left|].
  inversion H. now right.
Qed.

Lemma in_fill_defaults : forall d l s,
  In (l, s) (df_cols (fill_defaults d)) ->
  In (l, s) (df_cols d) \/
  (l = CStr DESCRIPCION /\ s = repeat (CStr []) (df_len d)) \/
  (l = CStr PRECIO /\ s = repeat (CFloat fzero) (df_len d)).
Proof.
  intros d l s. unfold fill_defaults.
  destruct (negb (in_columns DESCRIPCION d));
    match goal with
    | |- context [negb (in_columns PRECIO ?x)] =>
        destruct (negb (in_columns PRECIO x))
    end; intro H;
    repeat match goal with
           | H : In _ (df_cols (add_column _ _ _)) |- _ =>
               apply in_add_column in H; destruct H as [H|H]
           end; auto.
Qed.

Lemma in_map_named : forall n f d l s,
  In (l, s) (df_cols (map_named n f d)) ->
  exists s0, In (l, s0) (df_cols d) /\
             s = if label_is n l then f s0 else s0.
Proof.
  intros n f d l s H. cbn [map_named df_cols] in H.
  apply in_map_iff in H. destruct H as ([l0 s0] & E & Hin).
  cbn [fst snd] in E. destruct (label_is n l0) eqn:El.
  - inversion E; subst. exists s0. now rewrite El.
  - inversion E; subst. exists s. now rewrite El.
Qed.

Lemma in_select : forall names d l s,
  In (l, s) (df_cols (select names d)) ->
  In (l, s) (df_cols d) /\ exists n, In n names /\ l = CStr n.
Proof.
  intros names d l s H. cbn [select df_cols] in H.
  apply in_flat_map in H. destruct H as (n & Hn & H).
  apply filter_In in H. destruct H as [Hin Hl]. cbn [fst] in Hl.
  apply label_is_true in Hl. eauto.
Qed.

Lemma Forall2_map_fun : forall (X Y : Type) (f : X -> Y) l,
  Forall2 (fun x y => y = f x) l (map f l).
Proof. induction l; simpl; constructor; auto. Qed.

Lemma mapM_Forall2 : forall (X Y Z : Type) (f : X -> result Y) (g : Y -> Z) l ys,
  mapM f l = Ok ys ->
  Forall2 (fun x z => exists y, f x = Ok y /\ z = g y) l (map g ys).
Proof.
  induction l as [|x l IH]; simpl; intros ys H.
  - inversion H. constructor.
  - destruct (f x) as [y|] eqn:E; [|discriminate].
    destruct (mapM f l) as [ys'|]; [|discriminate].
    inversion H; subst. simpl. constructor; eauto.
Qed.

(** A successful price coercion either rewrote the one price column, or
    met several of them in a frame without rows and left it as it was. *)
Lemma coerce_precio_cases : forall float_repr d d',
  coerce_precio float_repr d = Ok d' ->
  (d' = d /\ df_len d = 0) \/
  exists s fs,
    cols_named PRECIO d = [s] /\ mapM (clean_price float_repr) s = Ok fs /\
    d' = map_named PRECIO (fun _ => map (fun f => CFloat (round2 f)) fs) d.
Proof.
  intros float_repr d d'. unfold coerce_precio.
  destruct (cols_named PRECIO d) as [|s [|s' l]]; intro H; try discriminate.
  - destruct (mapM (clean_price float_repr) s) as [fs|] eqn:E;
      [|discriminate].
    inversion H. right. eauto.
  - destruct (Nat.eqb (df_len d) 0) eqn:E; inversion H.
    apply Nat.eqb_eq in E. left. subst. now split.
Qed.

Lemma in_cols_named : forall n d s,
  In (CStr n, s) (df_cols d) -> In s (cols_named n d).
Proof.
  intros n d s H. unfold cols_named. apply in_map_iff.
  exists (CStr n, s). split; [reflexivity|].
  apply filter_In. split; [assumption|]. now apply label_is_true.
Qed.

(** Where a column of the canonical table comes from: the raw column
    whose stripped header is renamed to its label, or the column of
    defaults of lines 75 and 77. *)
Definition source_column (float_repr : float -> pystr) (raw : DataFrame)
    (l : cell) (s0 : Series) : Prop :=
  (exists l0,
     In (l0, s0) (df_cols raw) /\
     l = rename_label
           (build_col_map (set_labels (strip_label float_repr) raw))
           (CStr (strip (py_str float_repr l0)))) \/
  (l = CStr DESCRIPCION /\ s0 = repeat (CStr []) (df_len raw)) \/
  (l = CStr PRECIO /\ s0 = repeat (CFloat fzero) (df_len raw)).

(** What lines 80 to 82 make of the cell [v0] of a column labelled [l]. *)
Definition coerced (float_repr : float -> pystr) (na_kept : bool)
    (l : cell) (v0 v : cell) : Prop :=
  (l = CStr CLAVE /\
   v = if na_kept && pd_isna v0 then CFloat nan
       else CStr (strip (py_str float_repr v0))) \/
  (l = CStr DESCRIPCION /\
   v = if na_kept && pd_isna v0 then CStr []
       else CStr (py_str float_repr v0)) \/
  (l = CStr PRECIO /\
   exists f, clean_price float_repr v0 = Ok f /\ v = CFloat (round2 f)).

(** C10: when [normalize_columns] returns [ok = true] the canonical table
    has as many rows as the raw table and every column of it has one cell
    per row. Each of its columns is, cell by cell and in the same order,
    the coercion of one source column: a raw column, or a column of
    defaults. So row [i] of the canonical table is made of row [i] of the
    raw table alone: no row is dropped, merged or moved, whatever its key
    (repeated keys and keys that strip to the empty string included). Its
    one key column is the raw key column, coerced. *)
Theorem normalize_preserves_rows : forall float_repr na_kept df st out st',
  df < length st -> wf_frame (deref st df) ->
  normalize_columns float_repr na_kept df st = (Ok (out, true), st') ->
  let raw := deref st df in
  let can := deref st' out in
  let d0 := set_labels (strip_label float_repr) raw in
  df_len can = df_len raw /\
  wf_frame can /\
  (forall l s, In (l, s) (df_cols can) ->
     exists s0, source_column float_repr raw l s0 /\
                Forall2 (coerced float_repr na_kept l) s0 s) /\
  exists c s,
    first_match clave_cols d0 = Some c /\
    cols_named c d0 = [s] /\
    length s = df_len raw /\
    cols_named CLAVE can
    = [map (fun v => if na_kept && pd_isna v then CFloat nan
                     else CStr (strip (py_str float_repr v))) s].
Proof.
  intros float_repr na_kept df st out st' Hdf Hwf H raw can d0.
  destruct (normalize_columns_success float_repr na_kept df st out st' Hdf H)
    as (c & d4 & d5 & d6 & Hc & E4 & E5 & E6 & Hout).
  fold raw d0 in Hc, E4. fold can in Hout.
  assert (Hwf0 : wf_frame d0) by (apply wf_set_labels; assumption).
  set (d3 := fill_defaults (rename (build_col_map d0) d0)) in *.
  assert (Hwf3 : wf_frame d3)
    by (apply wf_fill_defaults, wf_set_labels; assumption).
  assert (Hlen3 : df_len d3 = df_len raw)
    by (unfold d3; rewrite df_len_fill_defaults; reflexivity).
  pose proof (coerce_clave_ok _ _ _ _ E4) as (sk & Hsk & D4).
  pose proof (coerce_descripcion_ok _ _ _ _ E5) as D5.
  pose proof (coerce_precio_cases _ _ _ E6) as D6.
  apply coerce_clave_keeps in E4. destruct E4 as (L4 & W4 & s & Hs & Hs4).
  apply coerce_descripcion_keeps in E5. destruct E5 as (L5 & W5 & C5).
  apply coerce_precio_keeps in E6. destruct E6 as (L6 & W6 & C6).
  rewrite Hout. split; [|split; [|split]].
  - cbn [select df_len]. congruence.
  - apply wf_select. auto.
  - intros l s6 Hin. apply in_select in Hin.
    destruct Hin as (Hin6 & n & Hn & ->).
    (* back to the column of [d3] *)
    assert (Hsrc : forall s3, In (CStr n, s3) (df_cols d3) ->
                   source_column float_repr raw (CStr n) s3).
    { intros s3 H3. unfold d3 in H3. apply in_fill_defaults in H3.
      destruct H3 as [H3|[H3|H3]].
      - left. unfold rename in H3. apply in_set_labels in H3.
        destruct H3 as (l1 & H3 & El). unfold d0 in H3.
        apply in_set_labels in H3. destruct H3 as (l0 & H3 & ->).
        exists l0. split; [exact H3|]. exact El.
      - right; left. exact H3.
      - right; right. exact H3. }
    assert (Hback : forall s5, In (CStr n, s5) (df_cols d5) ->
              exists s3, In (CStr n, s3) (df_cols d3) /\
                s5 = (if label_is DESCRIPCION (CStr n)
                      then map (descripcion_cell float_repr na_kept) 
                             (if label_is CLAVE (CStr n)
                              then map (clave_cell float_repr na_kept) s3
                              else s3)
                      else if label_is CLAVE (CStr n)
                           then map (clave_cell float_repr na_kept) s3
                           else s3)).
    { intros s5 Hin5. rewrite D5 in Hin5. apply in_map_named in Hin5.
      destruct Hin5 as (s4 & Hin4 & ->).
      rewrite D4 in Hin4. apply in_map_named in Hin4.
      destruct Hin4 as (s3 & Hin3 & ->). exists s3. split; [exact Hin3|].
      reflexivity. }
    assert (Hlen5 : forall s5, In (CStr n, s5) (df_cols d5) ->
              length s5 = df_len d5).
    { intros s5 Hin5. specialize (W5 (W4 Hwf3)). unfold wf_frame in W5.
      rewrite Forall_forall in W5. exact (W5 _ Hin5). }
    destruct Hn as [<-|[<-|[<-|[]]]].
    + (* the key *)
      assert (Hs5 : In (CStr CLAVE, s6) (df_cols d5)).
      { destruct D6 as [[-> _]|(sp & fs & _ & _ & ->)]; [exact Hin6|].
        apply in_map_named in Hin6. destruct Hin6 as (s5 & Hin5 & ->).
        exact Hin5. }
      destruct (Hback _ Hs5) as (s3 & Hin3 & ->). exists s3.
      split; [now apply Hsrc|].
      change (label_is DESCRIPCION (CStr CLAVE)) with false.
      change (label_is CLAVE (CStr CLAVE)) with true. cbv iota.
      eapply Forall2_impl; [|apply Forall2_map_fun].
      intros v0 v ->. left. split; [reflexivity|].
      apply (coerced_cells float_repr na_kept v0).
    + (* the description *)
      assert (Hs5 : In (CStr DESCRIPCION, s6) (df_cols d5)).
      { destruct D6 as [[-> _]|(sp & fs & _ & _ & ->)]; [exact Hin6|].
        apply in_map_named in Hin6. destruct Hin6 as (s5 & Hin5 & ->).
        exact Hin5. }
      destruct (Hback _ Hs5) as (s3 & Hin3 & ->). exists s3.
      split; [now apply Hsrc|].
      change (label_is DESCRIPCION (CStr DESCRIPCION)) with true.
      change (label_is CLAVE (CStr DESCRIPCION)) with false. cbv iota.
      eapply Forall2_impl; [|apply Forall2_map_fun].
      intros v0 v ->. right; left. split; [reflexivity|].
      apply (coerced_cells float_repr na_kept v0).
    + (* the price *)
      destruct D6 as [[-> Hz]|(sp & fs & Hsp & Hfs & ->)].
      * destruct (Hback _ Hin6) as (s3 & Hin3 & E).
        change (label_is DESCRIPCION (CStr PRECIO)) with false in E.
        change (label_is CLAVE (CStr PRECIO)) with false in E.
        cbv iota in E. subst s6. exists s3. split; [now apply Hsrc|].
        pose proof (Hlen5 _ Hin6) as Hl. rewrite Hz in Hl.
        destruct s3; [constructor|discriminate].
      * apply in_map_named in Hin6. destruct Hin6 as (s5 & Hin5 & ->).
        change (label_is PRECIO (CStr PRECIO)) with true. cbv iota.
        assert (s5 = sp).
        { apply in_cols_named in Hin5. rewrite Hsp in Hin5.
          destruct Hin5 as [<-|[]]. reflexivity. }
        subst s5.
        destruct (Hback _ Hin5) as (s3 & Hin3 & E).
        change (label_is DESCRIPCION (CStr PRECIO)) with false in E.
        change (label_is CLAVE (CStr PRECIO)) with false in E.
        cbv iota in E. subst sp. exists s3. split; [now apply Hsrc|].
        eapply Forall2_impl;
          [|exact (mapM_Forall2 _ _ _ _ (fun f => CFloat (round2 f)) _ _ Hfs)].
        intros v0 v (f & Hf & ->). right; right. split; [reflexivity|].
        eauto.
  - exists c, s.
    assert (Hcs : cols_named c d0 = [s]).
    { rewrite <- (cols_named_clave_rename d0 c Hc).
      unfold d3 in Hs. now rewrite cols_named_clave_fill in Hs. }
    repeat split; auto.
    + assert (Hin : In s (cols_named c d0)) by (rewrite Hcs; now left).
      unfold cols_named in Hin. apply in_map_iff in Hin.
      destruct Hin as ([l s'] & <- & Hin). apply filter_In in Hin.
      destruct Hin as [Hin _]. unfold wf_frame in Hwf0.
      rewrite Forall_forall in Hwf0. apply (Hwf0 _ Hin).
    + rewrite cols_named_select by (simpl; auto).
      rewrite C6, C5, Hs4. f_equal. apply map_ext.
      intro v. apply (coerced_cells float_repr na_kept v).
Qed.

Lemma normalize_preserves_rows_witness :
  (let st' := snd (normalize_columns repr_unused true 0 [frame_codigo]) in
   let raw := deref [frame_codigo] 0 in
   let can := deref st' 2 in
   let d0 := set_labels (strip_label repr_unused) raw in
   df_len can = df_len raw /\
   wf_frame can /\
   (forall l s, In (l, s) (df_cols can) ->
      exists s0, source_column repr_unused raw l s0 /\
                 Forall2 (coerced repr_unused true l) s0 s) /\
   exists c s,
     first_match clave_cols d0 = Some c /\
     cols_named c d0 = [s] /\
     length s = df_len raw /\
     cols_named CLAVE can
     = [map (fun v => if true && pd_isna v then CFloat nan
                      else CStr (strip (py_str repr_unused v))) s]) /\
  deref (snd (normalize_columns repr_unused true 0 [frame_codigo])) 2
  = mkDF [(CStr CLAVE, [CStr (lit "12"); CStr (lit "a1"); CStr []]);
          (CStr DESCRIPCION, [CStr []; CStr []; CStr []]);
          (CStr PRECIO, [CFloat 1234.56; CFloat 0; CFloat 3])] 3.
Proof.
  split; [|vm_compute; reflexivity].
  apply (normalize_preserves_rows repr_unused true 0 [frame_codigo] 2
           (snd (normalize_columns repr_unused true 0 [frame_codigo]))).
  - simpl. lia.
  - repeat constructor.
  - vm_compute. reflexivity.
Defined.
